(** * SES-shim module loader: bindings, module instances, compartments

    A shallow embedding of module-instance.js ([makeModuleInstance],
    [makeThirdPartyModuleInstance]) and of the Compartment constructor and
    its [load], [import] and [importNow] methods (compartment-shim.js, in
    its three versions), with the properties their design document states
    about them; and of the code around them: [makeEvaluate] and the
    [evaluate] method (evaluate.js, compartment-shim.js), [translateGraph]
    and the memo of package descriptors (node-modules.js), and the weak
    maps made of private fields (AltWeakMapSet.js), with properties read
    off that code.

    JavaScript closures are embedded as state-passing functions: the
    variables a closure captures ([value], [tdz], [updaters], [optFunctor],
    [didThrow], [activated], ...) are fields of an explicit state, and a
    [throw] is the [Throw] case of a completion.  Functions whose identity
    the code compares are named by an inductive type.  Code that is not part
    of these files (the module functor, the [execute] of other instances,
    [load], [link], [isValidIdentifierName], [applyTransforms], [read]) is a
    parameter.

    Layout: the model (modules [Js], [Binding], [Instance], [Compartment],
    [AltWeakMapSet], [Names], [InstanceNotions], [NodeModules], [Evaluate],
    and the example programs of [Scenario] and [Scenario2]) comes first,
    the properties after it. *)

From Stdlib Require Import String Ascii ZArith List Bool Lia.
From stdpp Require Import base decidable list strings gmap pretty.
Import ListNotations.

Local Open Scope string_scope.
Local Open Scope list_scope.

(** ** JavaScript values, errors and completions *)

Module Js.

Set Warnings "-register-all".

Inductive ErrorClass := Error | TypeError | ReferenceError | SyntaxError.

(** The values the modelled code inspects.  Objects and functions are
    known by identity only; an error object by its class and message. *)
Inductive JsVal :=
| JUndefined
| JNull
| JBool (b : bool)
| JNum (n : Z)
| JStr (s : string)
| JArray (xs : list JsVal)
| JObject (id : nat)
| JFunction (id : nat)
| JErr (c : ErrorClass) (msg : string).

Definition typeof (v : JsVal) : string :=
  match v with
  | JUndefined => "undefined"
  | JBool _ => "boolean"
  | JNum _ => "number"
  | JStr _ => "string"
  | JFunction _ => "function"
  | JNull | JArray _ | JObject _ | JErr _ _ => "object"
  end.

(** ToBoolean. *)
Definition truthy (v : JsVal) : bool :=
  match v with
  | JUndefined | JNull => false
  | JBool b => b
  | JNum n => negb (Z.eqb n 0)
  | JStr s => negb (String.eqb s "")
  | JArray _ | JObject _ | JFunction _ | JErr _ _ => true
  end.

Definition isArray (v : JsVal) : bool :=
  match v with JArray _ => true | _ => false end.

Definition isString (v : JsVal) : bool :=
  match v with JStr _ => true | _ => false end.

Definition errorClassOf (v : JsVal) : option ErrorClass :=
  match v with JErr c _ => Some c | _ => None end.

Definition messageOf (v : JsVal) : string :=
  match v with JErr _ m => m | _ => "" end.

(** Why an evaluation of the model stops without a JavaScript completion:
    the recursion budget is used up, or a closure's state is missing from
    the store (no JavaScript closure is in that situation). *)
Inductive Fault := OutOfFuel | BadRef.

Inductive Completion (A : Type) :=
| Normal (a : A)
| Throw (e : JsVal)
| Abort (f : Fault).
Arguments Normal {A} a.
Arguments Throw {A} e.
Arguments Abort {A} f.

Definition isNormal {A} (c : Completion A) : bool :=
  match c with Normal _ => true | _ => false end.

(** Computations that thread a state [S] and may throw. *)
Definition SM (S A : Type) := S -> Completion A * S.

Definition ret {S A} (a : A) : SM S A := fun s => (Normal a, s).
Definition throw {S A} (e : JsVal) : SM S A := fun s => (Throw e, s).
Definition bind {S A B} (m : SM S A) (k : A -> SM S B) : SM S B :=
  fun s =>
    match m s with
    | (Normal a, s') => k a s'
    | (Throw e, s') => (Throw e, s')
    | (Abort f, s') => (Abort f, s')
    end.

Notation "x <- m ;; k" := (bind m (fun x => k))
  (at level 100, m at next level, right associativity, only parsing).
Notation "m ;;; k" := (bind m (fun _ => k))
  (at level 100, right associativity, only parsing).

(** [q = JSON.stringify], on strings. *)
Definition dquote : ascii := "034"%char.
Definition backslash : ascii := "092"%char.

Definition hexDigit (n : nat) : ascii :=
  nth n (list_ascii_of_string "0123456789abcdef") "0"%char.

Definition escapeChar (c : ascii) : string :=
  let n := nat_of_ascii c in
  let esc (x : ascii) := String backslash (String x EmptyString) in
  if Nat.eqb n 34 then esc dquote
  else if Nat.eqb n 92 then esc backslash
  else if Nat.eqb n 8 then esc "b"%char
  else if Nat.eqb n 9 then esc "t"%char
  else if Nat.eqb n 10 then esc "n"%char
  else if Nat.eqb n 12 then esc "f"%char
  else if Nat.eqb n 13 then esc "r"%char
  else if Nat.ltb n 32 then
    String backslash
      (String "u"%char
         (String "0"%char
            (String "0"%char
               (String (hexDigit (n / 16))
                  (String (hexDigit (n mod 16)) EmptyString)))))
  else String c EmptyString.

Fixpoint escape (s : string) : string :=
  match s with
  | EmptyString => EmptyString
  | String c s' => escapeChar c +:+ escape s'
  end.

Definition q (s : string) : string :=
  String dquote (escape s +:+ String dquote EmptyString).

(** Objects used as tables ([create(null)] and object literals): own
    string-keyed properties in creation order, which is the order [entries]
    and [keys] enumerate them in when no key is an array index (array
    indices are enumerated first, in numeric order).  An object made by
    [{}] and written under computed names is a [Names.PlainObject]
    instead. *)
Section Obj.
Context {V : Type}.

Fixpoint obj_get (k : string) (o : list (string * V)) : option V :=
  match o with
  | [] => None
  | (k', v) :: o' => if String.eqb k k' then Some v else obj_get k o'
  end.

(** [o[k] = v]: overwrite in place, or append a new property. *)
Fixpoint obj_set (k : string) (v : V) (o : list (string * V)) : list (string * V) :=
  match o with
  | [] => [(k, v)]
  | (k', v') :: o' =>
      if String.eqb k k' then (k, v) :: o' else (k', v') :: obj_set k v o'
  end.

Definition obj_keys (o : list (string * V)) : list string := map fst o.
Definition obj_has (k : string) (o : list (string * V)) : bool :=
  match obj_get k o with Some _ => true | None => false end.
End Obj.

(** [Array.prototype.includes] on an array of strings. *)
Fixpoint includes (x : string) (l : list string) : bool :=
  match l with
  | [] => false
  | y :: l' => String.eqb x y || includes x l'
  end.

(** [Array.prototype.join]. *)
Fixpoint join (sep : string) (l : list string) : string :=
  match l with
  | [] => ""
  | [x] => x
  | x :: l' => x +:+ sep +:+ join sep l'
  end.

End Js.

Export Js.

(** ** Binding records

    The closure state of the bindings that [makeModuleInstance] creates for
    the entries of [__fixedExportMap__] and [__liveExportMap__], and that
    [makeThirdPartyModuleInstance] creates for the names of [exports].
    A binding is known by a reference into the store; the functions closing
    over it ([get], [set], [init], [update], [notify]) take that reference. *)

Module Binding.

Abbreviation Ref := nat (only parsing).

(** The variables that assignment closures assign to. *)
Inductive Var :=
| ImportVar (k : nat)
    (* a variable of an importing functor *)
| ForwardVar (exports : nat) (name : string)
    (* the [value] that forwards [name] in the instance whose exports
       namespace is the object [exports] *).

#[global] Instance Var_eq_dec : EqDecision Var.
Proof. solve_decision. Defined.

(** The functions that are passed around as updaters.  Function identity
    matters to [notify] ([updater === init], [updater === update]), so an
    updater is a name, not a Rocq function:
    - [UAssign x]: a closure of the importing side that assigns its argument
      to the variable [x], as the generated [$h_a => (x = $h_a)] and the
      [newValue => (value = newValue)] of an [export *] forwarder do; it
      returns, and all the store keeps of it is the record of the call;
    - [UInit r]: the frozen [init] of the fixed binding [r] ([onceVar]);
    - [UUpdate r]: the frozen [update] of the live binding [r] ([liveVar]). *)
Inductive Updater :=
| UAssign (x : Var)
| UInit (r : Ref)
| UUpdate (r : Ref).

#[global] Instance Updater_eq_dec : EqDecision Updater.
Proof. solve_decision. Defined.

(** [let value; let tdz = true; let optUpdaters = [];] *)
Record FixedBinding := {
  f_localName : string;
  f_value : JsVal;
  f_tdz : bool;
  f_optUpdaters : option (list Updater)   (* [None] is [null] *)
}.

(** [let value; let tdz = true; const updaters = [];] *)
Record LiveBinding := {
  l_exportName : string;
  l_localName : string;
  l_value : JsVal;
  l_tdz : bool;
  l_updaters : list Updater
}.

(** [let value = proxiedExports[name]; const updaters = [];] *)
Record PlainBinding := {
  p_value : JsVal;
  p_updaters : list Updater
}.

Inductive Cell :=
| Fixed (b : FixedBinding)
| Live (b : LiveBinding)
| Plain (b : PlainBinding).

(** The store: the binding cells, and the record of every updater call
    [updater(value)] made so far, oldest first. *)
Record Store := {
  cells : list Cell;
  calls : list (Updater * JsVal)
}.

Definition emptyStore : Store := {| cells := []; calls := [] |}.

(** Writing the variables of the binding [r]; only used where [r] has
    been looked up. *)
Definition setCell (r : Ref) (c : Cell) (s : Store) : Store :=
  {| cells := <[r := c]> (cells s); calls := calls s |}.

Definition logCall (u : Updater) (v : JsVal) (s : Store) : Store :=
  {| cells := cells s; calls := calls s ++ [(u, v)] |}.

Definition alloc (c : Cell) (s : Store) : Ref * Store :=
  (length (cells s), {| cells := cells s ++ [c]; calls := calls s |}).

Definition newFixed (localName : string) : Cell :=
  Fixed {| f_localName := localName; f_value := JUndefined;
           f_tdz := true; f_optUpdaters := Some [] |}.

Definition newLive (liveExportName localName : string) : Cell :=
  Live {| l_exportName := liveExportName; l_localName := localName;
          l_value := JUndefined; l_tdz := true; l_updaters := [] |}.

Definition newPlain (initial : JsVal) : Cell :=
  Plain {| p_value := initial; p_updaters := [] |}.

(** Computations over the store. *)
Definition M (A : Type) := SM Store A.

(** [for (const updater of updaters) { updater(v); }] *)
Fixpoint forUpdaters (call : Updater -> JsVal -> M unit)
    (updaters : list Updater) (v : JsVal) : M unit :=
  match updaters with
  | [] => ret tt
  | u :: rest => call u v ;;; forUpdaters call rest v
  end.

Definition notInitialized (name : string) : JsVal :=
  JErr ReferenceError ("binding " +:+ q name +:+ " not yet initialized").

Definition alreadyInitialized (name : string) : JsVal :=
  JErr Error ("Internal: binding " +:+ q name +:+ " already initialized").

(** What the engine throws for [for (... of null)] and [null.push(...)]. *)
Definition nullUpdaters : JsVal :=
  JErr TypeError "optUpdaters is null".

Section Closures.

(** How an updater is called; tied below by [callUpdater]. *)
Variable call : Updater -> JsVal -> M unit.

(** *** Fixed bindings (module-instance.js, lines 135-203) *)

(** [get]: tdz sensitive getter. *)
Definition fixed_get (r : Ref) : M JsVal := fun s =>
  match cells s !! r with
  | Some (Fixed b) =>
      if f_tdz b then (Throw (notInitialized (f_localName b)), s)
      else (Normal (f_value b), s)
  | _ => (Abort BadRef, s)
  end.

(** [init]: leave tdz once. *)
Definition fixed_init (r : Ref) (initValue : JsVal) : M JsVal := fun s =>
  match cells s !! r with
  | Some (Fixed b) =>
      if negb (f_tdz b) then (Throw (alreadyInitialized (f_localName b)), s)
      else
        let updaters := f_optUpdaters b in
        let s1 := setCell r (Fixed {| f_localName := f_localName b;
                                      f_value := initValue;
                                      f_tdz := false;
                                      f_optUpdaters := None |}) s in
        match updaters with
        | Some us => (forUpdaters call us initValue ;;; ret initValue) s1
        | None => (Throw nullUpdaters, s1)
        end
  | _ => (Abort BadRef, s)
  end.

(** [notify]: if still tdz, register update for notification later;
    otherwise, update now. *)
Definition fixed_notify (r : Ref) (updater : Updater) : M unit := fun s =>
  if decide (updater = UInit r) then (Normal tt, s)   (* Prevent recursion. *)
  else
    match cells s !! r with
    | Some (Fixed b) =>
        if f_tdz b then
          match f_optUpdaters b with
          | Some us =>
              (Normal tt,
               setCell r (Fixed {| f_localName := f_localName b;
                                   f_value := f_value b;
                                   f_tdz := f_tdz b;
                                   f_optUpdaters := Some (us ++ [updater]) |}) s)
          | None => (Throw nullUpdaters, s)
          end
        else call updater (f_value b) s
    | _ => (Abort BadRef, s)
    end.

(** *** Live bindings (module-instance.js, lines 205-293) *)

(** [get]: tdz sensitive getter; its message quotes [liveExportName]. *)
Definition live_get (r : Ref) : M JsVal := fun s =>
  match cells s !! r with
  | Some (Live b) =>
      if l_tdz b then (Throw (notInitialized (l_exportName b)), s)
      else (Normal (l_value b), s)
  | _ => (Abort BadRef, s)
  end.

(** [update]: callable independent of tdz, always leaves tdz. *)
Definition live_update (r : Ref) (newValue : JsVal) : M unit := fun s =>
  match cells s !! r with
  | Some (Live b) =>
      let s1 := setCell r (Live {| l_exportName := l_exportName b;
                                   l_localName := l_localName b;
                                   l_value := newValue;
                                   l_tdz := false;
                                   l_updaters := l_updaters b |}) s in
      forUpdaters call (l_updaters b) newValue s1
  | _ => (Abort BadRef, s)
  end.

(** [set]: tdz sensitive setter; its message quotes [localName]. *)
Definition live_set (r : Ref) (newValue : JsVal) : M unit := fun s =>
  match cells s !! r with
  | Some (Live b) =>
      if l_tdz b then (Throw (notInitialized (l_localName b)), s)
      else
        let s1 := setCell r (Live {| l_exportName := l_exportName b;
                                     l_localName := l_localName b;
                                     l_value := newValue;
                                     l_tdz := l_tdz b;
                                     l_updaters := l_updaters b |}) s in
        forUpdaters call (l_updaters b) newValue s1
  | _ => (Abort BadRef, s)
  end.

(** [notify]: always register the updater function; if not in tdz, also
    update now. *)
Definition live_notify (r : Ref) (updater : Updater) : M unit := fun s =>
  if decide (updater = UUpdate r) then (Normal tt, s)   (* Prevent recursion. *)
  else
    match cells s !! r with
    | Some (Live b) =>
        let s1 := setCell r (Live {| l_exportName := l_exportName b;
                                     l_localName := l_localName b;
                                     l_value := l_value b;
                                     l_tdz := l_tdz b;
                                     l_updaters := l_updaters b ++ [updater] |}) s in
        if negb (l_tdz b) then call updater (l_value b) s1
        else (Normal tt, s1)
    | _ => (Abort BadRef, s)
    end.

(** *** Bindings of a third-party instance (module-instance.js, lines 33-57) *)

Definition plain_get (r : Ref) : M JsVal := fun s =>
  match cells s !! r with
  | Some (Plain b) => (Normal (p_value b), s)
  | _ => (Abort BadRef, s)
  end.

Definition plain_set (r : Ref) (newValue : JsVal) : M unit := fun s =>
  match cells s !! r with
  | Some (Plain b) =>
      let s1 := setCell r (Plain {| p_value := newValue;
                                    p_updaters := p_updaters b |}) s in
      forUpdaters call (p_updaters b) newValue s1
  | _ => (Abort BadRef, s)
  end.

Definition plain_notify (r : Ref) (update : Updater) : M unit := fun s =>
  match cells s !! r with
  | Some (Plain b) =>
      let s1 := setCell r (Plain {| p_value := p_value b;
                                    p_updaters := p_updaters b ++ [update] |}) s in
      call update (p_value b) s1
  | _ => (Abort BadRef, s)
  end.

End Closures.

(** Calling an updater.  [init] and [update] call further updaters, and a
    chain of re-exports may be cyclic, so the call depth is bounded by
    [fuel]; [Abort OutOfFuel] stands for a recursion deeper than that. *)
Fixpoint callUpdater (fuel : nat) (u : Updater) (v : JsVal) (s : Store)
  : Completion unit * Store :=
  match fuel with
  | O => (Abort OutOfFuel, s)
  | S n =>
      let s := logCall u v s in
      match u with
      | UAssign _ => (Normal tt, s)
      | UInit r => (fixed_init (callUpdater n) r v ;;; ret tt) s
      | UUpdate r => live_update (callUpdater n) r v s
      end
  end.

(** The externally visible entry points: the frozen [init] and [update]
    held in [onceVar] and [liveVar], the accessors, and [notify]. *)
Definition init (fuel : nat) := fixed_init (callUpdater fuel).
Definition update (fuel : nat) := live_update (callUpdater fuel).
Definition set (fuel : nat) := live_set (callUpdater fuel).
Definition notifyFixed (fuel : nat) := fixed_notify (callUpdater fuel).
Definition notifyLive (fuel : nat) := live_notify (callUpdater fuel).
Definition notifyPlain (fuel : nat) := plain_notify (callUpdater fuel).

(** *** Notions used to state how a store evolves while updaters run *)

(** What a fan-out of the value [v] can do to a cell: nothing, or leave
    the tdz of a fixed binding with [v], or write [v] to a live binding. *)
Inductive written (v : JsVal) : Cell -> Cell -> Prop :=
| written_same c : written v c c
| written_fixed b :
    f_tdz b = true ->
    written v (Fixed b)
      (Fixed {| f_localName := f_localName b; f_value := v;
                f_tdz := false; f_optUpdaters := None |})
| written_live b :
    written v (Live b)
      (Live {| l_exportName := l_exportName b; l_localName := l_localName b;
               l_value := v; l_tdz := false; l_updaters := l_updaters b |}).

Record evolves (v : JsVal) (s s' : Store) : Prop := {
  ev_calls : exists evs, calls s' = calls s ++ evs;
  ev_length : length (cells s') = length (cells s);
  ev_cells : forall r c, cells s !! r = Some c ->
                         exists c', cells s' !! r = Some c' /\ written v c c'
}.

(** A calling convention for updaters under which stores only evolve. *)
Definition callEvolves (call : Updater -> JsVal -> M unit) : Prop :=
  forall u v s res s', call u v s = (res, s') -> evolves v s s'.

Definition isAssign (u : Updater) : bool :=
  match u with UAssign _ => true | _ => false end.

(** The calls [evs] consist of one stretch per updater of [us], in the order
    of [us]; each stretch starts with the call of that updater on [v] and
    goes on with the calls that updater makes in turn. *)
Definition invokedInOrder (us : list Updater) (v : JsVal)
    (evs : list (Updater * JsVal)) : Prop :=
  exists chunks,
    evs = concat chunks /\
    Forall2 (fun u chunk => exists rest, chunk = (u, v) :: rest) us chunks.

(** No binding has its own [init], respectively [update], among the
    updaters it will call. *)
Definition noSelfSubscription (s : Store) : Prop :=
  forall r c, cells s !! r = Some c ->
    match c with
    | Fixed b => forall us, f_optUpdaters b = Some us -> ~ In (UInit r) us
    | Live b => ~ In (UUpdate r) (l_updaters b)
    | Plain _ => True
    end.

(** What a cell may become without gaining a self-subscription: its list of
    updaters is kept, or dropped, or extended by an updater that is not the
    binding's own sink. *)
Definition keepsNoSelf (r : Ref) (c c' : Cell) : Prop :=
  match c, c' with
  | Fixed b, Fixed b' =>
      forall us', f_optUpdaters b' = Some us' ->
        exists us, f_optUpdaters b = Some us /\
                   (us' = us \/ exists u, u <> UInit r /\ us' = us ++ [u])
  | Live b, Live b' =>
      l_updaters b' = l_updaters b \/
      exists u, u <> UUpdate r /\ l_updaters b' = l_updaters b ++ [u]
  | Plain _, Plain _ => True
  | _, _ => False
  end.

(** The ways the functor of a module and its importers act on bindings:
    creation (by [makeModuleInstance] and [makeThirdPartyModuleInstance]),
    [onceVar] and [liveVar] calls, assignments through the scope proxy and
    through [proxiedExports], and [notify] calls made by [imports]. *)
Inductive Op :=
| OpNewFixed (localName : string)
| OpNewLive (liveExportName localName : string)
| OpNewPlain (initial : JsVal)
| OpInit (r : Ref) (v : JsVal)
| OpUpdate (r : Ref) (v : JsVal)
| OpSet (r : Ref) (v : JsVal)
| OpPlainSet (r : Ref) (v : JsVal)
| OpNotifyFixed (r : Ref) (u : Updater)
| OpNotifyLive (r : Ref) (u : Updater)
| OpNotifyPlain (r : Ref) (u : Updater).

(** A fixed binding in its tdz has its queue of updaters ([optUpdaters] is
    [null] only once the binding is initialized). *)
Definition queuesInTdz (s : Store) : Prop :=
  forall r b, cells s !! r = Some (Fixed b) -> f_tdz b = true ->
    exists us, f_optUpdaters b = Some us.

(** Every updater of every binding is an assignment closure. *)
Definition onlyAssignments (s : Store) : Prop :=
  forall r c, cells s !! r = Some c ->
    match c with
    | Fixed b => forall us, f_optUpdaters b = Some us -> forallb isAssign us = true
    | Live b => forallb isAssign (l_updaters b) = true
    | Plain b => forallb isAssign (p_updaters b) = true
    end.

(** An operation that subscribes nothing but assignment closures, except
    that it may pass a binding's own sink to the [notify] of that binding,
    as a module that re-exports from itself does. *)
Definition assignOrOwnSink (op : Op) : bool :=
  match op with
  | OpNotifyFixed r u => isAssign u || bool_decide (u = UInit r)
  | OpNotifyLive r u => isAssign u || bool_decide (u = UUpdate r)
  | OpNotifyPlain r u => isAssign u
  | _ => true
  end.

(** The store after an operation, whether it returned or threw. *)
Definition runOp (fuel : nat) (op : Op) (s : Store) : Store :=
  match op with
  | OpNewFixed n => snd (alloc (newFixed n) s)
  | OpNewLive e n => snd (alloc (newLive e n) s)
  | OpNewPlain v => snd (alloc (newPlain v) s)
  | OpInit r v => snd (init fuel r v s)
  | OpUpdate r v => snd (update fuel r v s)
  | OpSet r v => snd (set fuel r v s)
  | OpPlainSet r v => snd (plain_set (callUpdater fuel) r v s)
  | OpNotifyFixed r u => snd (notifyFixed fuel r u s)
  | OpNotifyLive r u => snd (notifyLive fuel r u s)
  | OpNotifyPlain r u => snd (notifyPlain fuel r u s)
  end.

Definition runOps (fuel : nat) (ops : list Op) (s : Store) : Store :=
  fold_left (fun s op => runOp fuel op s) ops s.

End Binding.

(** ** Module instances (module-instance.js) *)

Module Instance.

Import Binding.

(** The accessor functions installed as the [get] of an export:
    the tdz sensitive getters of fixed and live bindings, the getter of a
    third-party binding, and the [get() { return value; }] of a forwarder. *)
Inductive Getter :=
| GetFixed (r : Ref)
| GetLive (r : Ref)
| GetPlain (r : Ref)
| GetForward (x : Var).

#[global] Instance Getter_eq_dec : EqDecision Getter.
Proof. solve_decision. Defined.

(** The functions found in a [notifiers] table: the [notify] of a fixed,
    live or third-party binding, and [notifyStar], which passes the
    [proxiedExports] object to the updater. *)
Inductive Notifier :=
| NotifyFixed (r : Ref)
| NotifyLive (r : Ref)
| NotifyPlain (r : Ref)
| NotifyStar (proxiedExports : nat).

(** [importNotify(updater)] *)
Definition callNotify (fuel : nat) (n : Notifier) (u : Updater) : M unit :=
  match n with
  | NotifyFixed r => notifyFixed fuel r u
  | NotifyLive r => notifyLive fuel r u
  | NotifyPlain r => notifyPlain fuel r u
  | NotifyStar o => callUpdater fuel u (JObject o)
  end.

Record GetNotify := { gn_get : Getter; gn_notify : Notifier }.

(** The fields of a parsed static module record that [makeModuleInstance]
    reads; an entry of [__fixedExportMap__] is [exportName: [localName]],
    one of [__liveExportMap__] is [exportName: [localName, setProxyTrap]]. *)
Record StaticModuleRecord := {
  reexports : list string;
  fixedExportMap : list (string * string);
  liveExportMap : list (string * (string * bool))
}.

(** What [getDeferredExports] hands out: the identities of the exports
    proxy and of the object behind it. *)
Record DeferredExports := {
  exportsProxy : nat;
  proxiedExports : nat
}.

(** The tables built by [makeModuleInstance]. *)
Record Tables := {
  exportsProps : list (string * Getter);
  localLexicals : list (string * Ref);   (* accessor [get]/[set] of live binding *)
  onceVar : list (string * Updater);
  liveVar : list (string * Updater);
  localGetNotify : list (string * GetNotify);
  notifiers : list (string * Notifier)
}.

Definition emptyTables : Tables :=
  {| exportsProps := []; localLexicals := []; onceVar := []; liveVar := [];
     localGetNotify := []; notifiers := [] |}.

Definition withExportsProps (t : Tables) (x : list (string * Getter)) : Tables :=
  {| exportsProps := x; localLexicals := localLexicals t; onceVar := onceVar t;
     liveVar := liveVar t; localGetNotify := localGetNotify t;
     notifiers := notifiers t |}.

Definition withNotifiers (t : Tables) (x : list (string * Notifier)) : Tables :=
  {| exportsProps := exportsProps t; localLexicals := localLexicals t;
     onceVar := onceVar t; liveVar := liveVar t;
     localGetNotify := localGetNotify t; notifiers := x |}.

(** The own properties of the [proxiedExports] object, whether it has been
    frozen, and whether the deferred exports have been activated. *)
Record Namespace := {
  properties : list (string * Getter);
  frozen : bool;
  active : bool
}.

Definition emptyNamespace : Namespace :=
  {| properties := []; frozen := false; active := false |}.

(** Modelled from the spec: [activate], returned by [getDeferredExports] of
    module-proxy.js, which is not among the sources.  The design document
    calls it a one-shot, idempotent activation callback. *)
Definition activate (n : Namespace) : Namespace :=
  {| properties := properties n; frozen := frozen n; active := true |}.

Definition freeze (n : Namespace) : Namespace :=
  {| properties := properties n; frozen := true; active := active n |}.

(** [defineProperty(proxiedExports, k, { get, set: undefined, enumerable:
    true, configurable: false })]: a new property needs an extensible
    object, an existing one cannot be given another getter. *)
Definition defineProperty (k : string) (g : Getter) (n : Namespace)
  : Completion unit * Namespace :=
  match obj_get k (properties n) with
  | Some g' =>
      if decide (g = g') then (Normal tt, n)
      else (Throw (JErr TypeError ("Cannot redefine property: " +:+ k)), n)
  | None =>
      if frozen n
      then (Throw (JErr TypeError
                     ("Cannot define property " +:+ k +:+ ", object is not extensible")), n)
      else (Normal tt, {| properties := properties n ++ [(k, g)];
                          frozen := frozen n; active := active n |})
  end.

(** [Array.prototype.sort] on strings, default comparison: by UTF-16 code
    units, which on ASCII strings is the comparison of characters made
    here. *)
Fixpoint insertSorted (x : string) (l : list string) : list string :=
  match l with
  | [] => [x]
  | y :: l' => if String.leb x y then x :: l else y :: insertSorted x l'
  end.

Definition sort (l : list string) : list string :=
  fold_right insertSorted [] l.

Section World.

(** The closure state of the other module instances. *)
Variable X : Type.

Record World := {
  store : Store;
  others : X
}.

Definition onStore {A} (m : M A) : SM World A := fun w =>
  let (res, s') := m (store w) in (res, {| store := s'; others := others w |}).

(** A module instance as its importers see it: the frozen
    [{ notifiers, exportsProxy, execute }]; the [notifiers] table is mutable
    and is read where the code reads it. *)
Record ModuleInstance := {
  mi_notifiers : World -> list (string * Notifier);
  mi_exportsProxy : nat;
  mi_execute : SM World unit
}.

(** [updateRecord = Map<specifier, Map<importName, [update(newValue)*]>>] *)
Definition UpdateRecord := list (string * list (string * list Updater)).

(** The module functor, per its calling convention: it calls [imports] once
    up front with its update record, then runs the module body, which
    reaches its bindings through [onceVar] and [liveVar]. *)
Record Functor := {
  updateRecord : UpdateRecord;
  body : SM World unit
}.

(** The closure state of an instance made by [makeModuleInstance].
    [functorCalls] is not a variable of the code: it counts the calls of the
    functor. *)
Record InstanceState := {
  tables : Tables;
  namespace : Namespace;
  optFunctor : option Functor;
  didThrow : bool;
  thrownError : JsVal;
  functorCalls : nat
}.

Definition withTables (st : InstanceState) (t : Tables) : InstanceState :=
  {| tables := t; namespace := namespace st; optFunctor := optFunctor st;
     didThrow := didThrow st; thrownError := thrownError st;
     functorCalls := functorCalls st |}.

Definition withNamespace (st : InstanceState) (n : Namespace) : InstanceState :=
  {| tables := tables st; namespace := n; optFunctor := optFunctor st;
     didThrow := didThrow st; thrownError := thrownError st;
     functorCalls := functorCalls st |}.

Variable deferred : DeferredExports.
Variable staticModuleRecord : StaticModuleRecord.
Variable moduleSpecifier : string.

(** [importedInstances = Map[specifier, { notifiers, module, execute }]],
    filled by the linker before the instance executes. *)
Variable importedInstances : string -> option ModuleInstance.

(** *** Construction: the bindings and tables (lines 135-298) *)

Definition addFixedExport (acc : Tables * Store) (entry : string * string)
  : Tables * Store :=
  let '(t, s) := acc in
  let '(fixedExportName, localName) := entry in
  let '(fixedGetNotify, t1, s1) :=
    match obj_get localName (localGetNotify t) with
    | Some gn => (gn, t, s)
    | None =>
        let (r, s1) := alloc (newFixed localName) s in
        let gn := {| gn_get := GetFixed r; gn_notify := NotifyFixed r |} in
        (gn,
         {| exportsProps := exportsProps t; localLexicals := localLexicals t;
            onceVar := obj_set localName (UInit r) (onceVar t);
            liveVar := liveVar t;
            localGetNotify := obj_set localName gn (localGetNotify t);
            notifiers := notifiers t |},
         s1)
    end in
  (withNotifiers
     (withExportsProps t1 (obj_set fixedExportName (gn_get fixedGetNotify) (exportsProps t1)))
     (obj_set fixedExportName (gn_notify fixedGetNotify) (notifiers t1)),
   s1).

Definition addLiveExport (acc : Tables * Store)
    (entry : string * (string * bool)) : Tables * Store :=
  let '(t, s) := acc in
  let '(liveExportName, (localName, setProxyTrap)) := entry in
  let '(liveGetNotify, t1, s1) :=
    match obj_get localName (localGetNotify t) with
    | Some gn => (gn, t, s)
    | None =>
        let (r, s1) := alloc (newLive liveExportName localName) s in
        let gn := {| gn_get := GetLive r; gn_notify := NotifyLive r |} in
        (gn,
         {| exportsProps := exportsProps t;
            localLexicals := if setProxyTrap
                             then obj_set localName r (localLexicals t)
                             else localLexicals t;
            onceVar := onceVar t;
            liveVar := obj_set localName (UUpdate r) (liveVar t);
            localGetNotify := obj_set localName gn (localGetNotify t);
            notifiers := notifiers t |},
         s1)
    end in
  (withNotifiers
     (withExportsProps t1 (obj_set liveExportName (gn_get liveGetNotify) (exportsProps t1)))
     (obj_set liveExportName (gn_notify liveGetNotify) (notifiers t1)),
   s1).

(** [functor] is what [compartment.evaluate(functorSource, ...)] returned. *)
Definition makeModuleInstance (functor : Functor) (s : Store)
  : InstanceState * Store :=
  let (t1, s1) := fold_left addFixedExport (fixedExportMap staticModuleRecord)
                    (emptyTables, s) in
  let (t2, s2) := fold_left addLiveExport (liveExportMap staticModuleRecord)
                    (t1, s1) in
  ({| tables := withNotifiers t2
                  (obj_set "*" (NotifyStar (proxiedExports deferred)) (notifiers t2));
      namespace := emptyNamespace;
      optFunctor := Some functor;
      didThrow := false;
      thrownError := JUndefined;
      functorCalls := 0 |},
   s2).

(** *** [imports] (lines 308-380) *)

Definition missingExport (specifier importName : string) : JsVal :=
  JErr SyntaxError
    ("The requested module '" +:+ specifier +:+
     "' does not provide an export named '" +:+ importName +:+ "'").

(** What the engine throws for [instance.execute()] on [undefined]. *)
Definition undefinedInstance : JsVal :=
  JErr TypeError "Cannot read property 'execute' of undefined".

(** [for (const updater of updaters) { importNotify(updater); }] *)
Fixpoint subscribeEach (fuel : nat) (importNotify : Notifier)
    (updaters : list Updater) : SM World unit :=
  match updaters with
  | [] => ret tt
  | updater :: rest =>
      onStore (callNotify fuel importNotify updater) ;;;
      subscribeEach fuel importNotify rest
  end.

(** [for (const [importName, updaters] of importUpdaters) { ... }] *)
Fixpoint subscribe (fuel : nat) (instance : ModuleInstance)
    (specifier : string) (importUpdaters : list (string * list Updater))
  : SM World unit :=
  match importUpdaters with
  | [] => ret tt
  | (importName, updaters) :: rest =>
      fun w =>
        match obj_get importName (mi_notifiers instance w) with
        | None => (Throw (missingExport specifier importName), w)
        | Some importNotify =>
            (subscribeEach fuel importNotify updaters ;;;
             subscribe fuel instance specifier rest) w
        end
  end.

(** [candidateAll]: a name is absent ([undefined]), a candidate notifier, or
    [None] for [false]. *)
Definition CandidateAll := list (string * option Notifier).

(** [for (const [importName, importNotify] of entries(importNotifiers))] *)
Fixpoint addCandidates (importNotifiers : list (string * Notifier))
    (candidateAll : CandidateAll) : CandidateAll :=
  match importNotifiers with
  | [] => candidateAll
  | (importName, importNotify) :: rest =>
      addCandidates rest
        (match obj_get importName candidateAll with
         | None => obj_set importName (Some importNotify) candidateAll
         | Some _ => obj_set importName None candidateAll   (* remove ambiguity *)
         end)
  end.

(** One round of the first loop, up to and including the subscriptions
    (lines 319-332). *)
Definition visit (fuel : nat) (specifier : string)
    (importUpdaters : list (string * list Updater))
  : SM World ModuleInstance :=
  match importedInstances specifier with
  | None => throw undefinedInstance
  | Some instance =>
      mi_execute instance ;;;   (* bottom up cycle tolerant *)
      subscribe fuel instance specifier importUpdaters ;;;
      ret instance
  end.

(** [for (const [specifier, importUpdaters] of updateRecord) { ... }] *)
Fixpoint importsLoop (fuel : nat) (record : UpdateRecord)
    (candidateAll : CandidateAll) : SM World CandidateAll :=
  match record with
  | [] => ret candidateAll
  | (specifier, importUpdaters) :: rest =>
      instance <- visit fuel specifier importUpdaters ;;
      fun w =>
        importsLoop fuel rest
          (if includes specifier (reexports staticModuleRecord)
           then addCandidates (mi_notifiers instance w) candidateAll
           else candidateAll) w
  end.

(** [for (const [importName, notify] of entries(candidateAll)) { ... }] *)
Fixpoint forwardCandidates (fuel : nat) (candidates : CandidateAll)
  : SM (InstanceState * World) unit :=
  match candidates with
  | [] => ret tt
  | (importName, notify) :: rest =>
      fun '(st, w) =>
        match obj_get importName (notifiers (tables st)), notify with
        | None, Some notify =>
            let st1 := withTables st
                         (withNotifiers (tables st)
                            (obj_set importName notify (notifiers (tables st)))) in
            let x := ForwardVar (exportsProxy deferred) importName in
            match onStore (callNotify fuel notify (UAssign x)) w with
            | (Normal _, w1) =>
                forwardCandidates fuel rest
                  (withTables st1
                     (withExportsProps (tables st1)
                        (obj_set importName (GetForward x) (exportsProps (tables st1)))),
                   w1)
            | (Throw e, w1) => (Throw e, (st1, w1))
            | (Abort f, w1) => (Abort f, (st1, w1))
            end
        | _, _ => forwardCandidates fuel rest (st, w)
        end
  end.

(** [keys(exportsProps).sort().forEach(k =>
      defineProperty(proxiedExports, k, exportsProps[k]))] *)
Fixpoint installExports (exports : list (string * Getter)) (ks : list string)
  : SM Namespace unit :=
  match ks with
  | [] => ret tt
  | k :: rest =>
      match obj_get k exports with
      | Some g => defineProperty k g ;;; installExports exports rest
      | None => installExports exports rest
      end
  end.

Definition imports (fuel : nat) (record : UpdateRecord)
  : SM (InstanceState * World) unit :=
  fun '(st, w) =>
    (* export * cannot export default. *)
    match importsLoop fuel record [("default", None)] w with
    | (Normal candidateAll, w1) =>
        match forwardCandidates fuel candidateAll (st, w1) with
        | (Normal _, (st2, w2)) =>
            let exports := exportsProps (tables st2) in
            match installExports exports (sort (obj_keys exports)) (namespace st2) with
            | (Normal _, n) =>
                (Normal tt, (withNamespace st2 (activate (freeze n)), w2))
            | (Throw e, n) => (Throw e, (withNamespace st2 n, w2))
            | (Abort f, n) => (Abort f, (withNamespace st2 n, w2))
            end
        | other => other
        end
    | (Throw e, w1) => (Throw e, (st, w1))
    | (Abort f, w1) => (Abort f, (st, w1))
    end.

(** *** [execute] (lines 387-412) *)

(** [functor(freeze({ imports, onceVar, liveVar }))] *)
Definition callFunctor (fuel : nat) (functor : Functor)
  : SM (InstanceState * World) unit :=
  imports fuel (updateRecord functor) ;;;
  (fun '(st, w) => let (res, w') := body functor w in (res, (st, w'))).

Definition execute (fuel : nat) : SM (InstanceState * World) unit :=
  fun '(st, w) =>
    let ran :=
      match optFunctor st with
      | Some functor =>
          (* uninitialized *)
          let st1 := {| tables := tables st; namespace := namespace st;
                        optFunctor := None;
                        didThrow := didThrow st; thrownError := thrownError st;
                        functorCalls := S (functorCalls st) |} in
          (* initializing *)
          match callFunctor fuel functor (st1, w) with
          | (Normal _, (st2, w2)) => (Normal tt, (st2, w2))
          | (Throw e, (st2, w2)) =>
              (Normal tt,
               ({| tables := tables st2; namespace := namespace st2;
                   optFunctor := optFunctor st2;
                   didThrow := true; thrownError := e;
                   functorCalls := functorCalls st2 |}, w2))
          | (Abort f, (st2, w2)) => (Abort f, (st2, w2))
          end
      | None => (Normal tt, (st, w))
      end in
    match ran with
    | (Normal _, (st3, w3)) =>
        if didThrow st3 then (Throw (thrownError st3), (st3, w3))
        else (Normal tt, (st3, w3))
    | other => other
    end.

(** [imports] and the functor body leave the variables of [execute] alone. *)
Definition sameExec (st st' : InstanceState) : Prop :=
  optFunctor st' = optFunctor st /\ didThrow st' = didThrow st /\
  thrownError st' = thrownError st /\ functorCalls st' = functorCalls st.

(** The candidates after the entries of several [export *] sources. *)
Definition mergeAll (entries : list (list (string * Notifier)))
    (candidateAll : CandidateAll) : CandidateAll :=
  fold_left (fun c es => addCandidates es c) entries candidateAll.

(** A run of [execute] calls, with whatever happens to the world between
    them. *)
Fixpoint executeAll (fuel : nat) (between : list (World -> World))
    (st : InstanceState) (w : World)
  : list (Completion unit) * (InstanceState * World) :=
  match between with
  | [] => ([], (st, w))
  | g :: rest =>
      let '(res, (st1, w1)) := execute fuel (st, g w) in
      let '(ress, final) := executeAll fuel rest st1 w1 in
      (res :: ress, final)
  end.

(** What the first loop of [imports] finds in the [notifiers] of the
    [export *] sources: one list of entries per such source, in the order
    and in the worlds in which the loop enumerates them. *)
Fixpoint starEntries (fuel : nat) (record : UpdateRecord) (w : World)
  : list (list (string * Notifier)) :=
  match record with
  | [] => []
  | (specifier, importUpdaters) :: rest =>
      match visit fuel specifier importUpdaters w with
      | (Normal instance, w1) =>
          (if includes specifier (reexports staticModuleRecord)
           then [mi_notifiers instance w1] else [])
          ++ starEntries fuel rest w1
      | _ => []
      end
  end.

(** The number of these lists of entries, one per [export *] source, that
    have [name]. *)
Definition providers (name : string) (entries : list (list (string * Notifier)))
  : nat :=
  length (List.filter (fun es => obj_has name es) entries).

(** [name] is not an export of the instance: it has no notifier, no export
    descriptor and no property on [proxiedExports]. *)
Definition notExported (name : string) (st : InstanceState) : Prop :=
  obj_get name (notifiers (tables st)) = None /\
  obj_get name (exportsProps (tables st)) = None /\
  obj_get name (properties (namespace st)) = None.

(** *** Third-party instances (lines 7-76) *)

(** A static module record that was not obtained by parsing: its [exports]
    property, and its [execute(proxiedExports, compartment,
    resolvedImports)]. *)
Record ThirdPartyRecord := {
  tp_exports : JsVal;
  tp_execute : SM World unit
}.

(** The closure state of an instance made by
    [makeThirdPartyModuleInstance]: the accessor properties defined on
    [proxiedExports], each on its binding.  [executeCalls] is not a
    variable of the code: it counts the calls of the record's [execute]. *)
Record ThirdPartyState := {
  tp_notifiers : list (string * Notifier);
  tp_properties : list (string * Ref);
  tp_active : bool;
  activated : bool;
  executeCalls : nat
}.

Definition invalidExports : JsVal :=
  JErr TypeError
    ("SES third-party static module record " +:+ q "exports" +:+
     " property must be an array of strings for module " +:+ moduleSpecifier).

(** [Array.prototype.some], on an array. *)
Definition some (f : JsVal -> bool) (v : JsVal) : bool :=
  match v with JArray xs => existsb f xs | _ => false end.

Definition elements (v : JsVal) : list JsVal :=
  match v with JArray xs => xs | _ => [] end.

Definition stringOf (v : JsVal) : string :=
  match v with JStr s => s | _ => "" end.

(** [staticModuleRecord.exports.forEach(name => { ... })]; the tables get
    their properties in the order of the array. *)
Fixpoint addThirdPartyExports (names : list string)
  : SM (ThirdPartyState * Store) unit :=
  match names with
  | [] => ret tt
  | name :: rest =>
      fun '(st, s) =>
        (* let value = proxiedExports[name]; *)
        let value :=
          match obj_get name (tp_properties st) with
          | Some r0 =>
              match cells s !! r0 with
              | Some (Plain b) => p_value b
              | _ => JUndefined
              end
          | None => JUndefined
          end in
        let (r, s1) := alloc (newPlain value) s in
        match obj_get name (tp_properties st) with
        | Some _ =>
            (Throw (JErr TypeError ("Cannot redefine property: " +:+ name)), (st, s1))
        | None =>
            addThirdPartyExports rest
              ({| tp_notifiers := obj_set name (NotifyPlain r) (tp_notifiers st);
                  tp_properties := tp_properties st ++ [(name, r)];
                  tp_active := tp_active st;
                  activated := activated st;
                  executeCalls := executeCalls st |}, s1)
        end
  end.

Definition makeThirdPartyModuleInstance (record : ThirdPartyRecord)
  : SM Store ThirdPartyState :=
  fun s =>
    let st0 := {| tp_notifiers := []; tp_properties := []; tp_active := false;
                  activated := false; executeCalls := 0 |} in
    if truthy (tp_exports record) then
      if negb (isArray (tp_exports record))
         || some (fun name => negb (String.eqb (typeof name) "string"))
              (tp_exports record)
      then (Throw invalidExports, s)
      else
        match addThirdPartyExports
                (map stringOf (elements (tp_exports record))) (st0, s) with
        | (Normal _, (st, s')) => (Normal st, s')
        | (Throw e, (_, s')) => (Throw e, s')
        | (Abort f, (_, s')) => (Abort f, s')
        end
    else (Normal st0, s).

(** [execute() { if (!activated) { activate(); activated = true;
      staticModuleRecord.execute(...); } }] *)
Definition executeThirdParty (record : ThirdPartyRecord)
  : SM (ThirdPartyState * World) unit :=
  fun '(st, w) =>
    if negb (activated st) then
      let st1 := {| tp_notifiers := tp_notifiers st;
                    tp_properties := tp_properties st;
                    tp_active := true;
                    activated := true;
                    executeCalls := S (executeCalls st) |} in
      let (res, w') := tp_execute record w in (res, (st1, w'))
    else (Normal tt, (st, w)).

(** A run of [execute] calls of a third-party instance. *)
Fixpoint executeAllThirdParty (record : ThirdPartyRecord)
    (between : list (World -> World)) (st : ThirdPartyState) (w : World)
  : list (Completion unit) * (ThirdPartyState * World) :=
  match between with
  | [] => ([], (st, w))
  | g :: rest =>
      let '(res, (st1, w1)) := executeThirdParty record (st, g w) in
      let '(ress, final) := executeAllThirdParty record rest st1 w1 in
      (res :: ress, final)
  end.

(** The design document's wording of what [exports] must be. *)
Definition isArrayOfStrings (v : JsVal) : bool :=
  match v with
  | JArray xs => forallb isString xs
  | _ => false
  end.

End World.

Arguments store {X} _.
Arguments others {X} _.
Arguments mi_notifiers {X} _ _.
Arguments mi_exportsProxy {X} _.
Arguments mi_execute {X} _.
Arguments updateRecord {X} _.
Arguments body {X} _.
Arguments tables {X} _.
Arguments namespace {X} _.
Arguments optFunctor {X} _.
Arguments didThrow {X} _.
Arguments thrownError {X} _.
Arguments functorCalls {X} _.
Arguments tp_exports {X} _.
Arguments tp_execute {X} _.
Arguments onStore {X A} _ _.
Arguments withTables {X} _ _.
Arguments withNamespace {X} _ _.
Arguments makeModuleInstance {X}.
Arguments subscribeEach {X}.
Arguments subscribe {X}.
Arguments visit {X}.
Arguments importsLoop {X}.
Arguments forwardCandidates {X}.
Arguments imports {X}.
Arguments callFunctor {X}.
Arguments execute {X}.
Arguments executeAll {X}.
Arguments starEntries {X}.
Arguments notExported {X}.
Arguments sameExec {X}.
Arguments makeThirdPartyModuleInstance {X}.
Arguments executeThirdParty {X}.
Arguments executeAllThirdParty {X}.

(** A parsed instance as a dependency of other instances: its closure
    state is part of their world. *)
Definition asModuleInstance {X : Type} (deferred : DeferredExports)
    (smr : StaticModuleRecord)
    (importedInstances : string -> option (ModuleInstance X)) (fuel : nat)
  : ModuleInstance (InstanceState X * X) :=
  {| mi_notifiers := fun w => notifiers (tables (fst (others w)));
     mi_exportsProxy := exportsProxy deferred;
     mi_execute := fun w =>
       let '(st, x) := others w in
       let '(res, (st', w')) :=
         execute deferred smr importedInstances fuel
           (st, {| store := store w; others := x |}) in
       (res, {| store := store w'; others := (st', others w') |}) |}.

End Instance.

(** ** Compartments (compartment-shim.js) *)

Module Compartment.

(** The options of the constructor that the modelled code reads; an absent
    option is [JUndefined].  [globalLexicals] is given by its own
    properties, in the order of [getOwnPropertyNames]. *)
Record Options := {
  opt_name : string;
  opt_globalLexicals : list (string * JsVal);
  opt_resolveHook : JsVal;
  opt_importHook : JsVal;
  opt_moduleMapHook : JsVal
}.

(** The private fields of a compartment that the modelled code reads. *)
Record Fields := {
  name : string;
  globalLexicals : list (string * JsVal);
  resolveHook : JsVal;
  importHook : JsVal;
  moduleMap : list (string * JsVal);
  moduleMapHook : JsVal
}.

(** The two weak maps of the module: [moduleAliases], from an exports
    namespace (an object) to its compartment and specifier, and
    [privateFields], from a compartment to its fields. *)
Record Realm := {
  moduleAliases : gmap nat (nat * string);
  privateFields : gmap nat Fields
}.

(** [moduleAliases.get(aliasNamespace)]; only objects are keys. *)
Definition aliasOf (r : Realm) (aliasNamespace : JsVal) : option (nat * string) :=
  match aliasNamespace with
  | JObject id => moduleAliases r !! id
  | _ => None
  end.

Definition setPrivateFields (this : nat) (f : Fields) (r : Realm) : Realm :=
  {| moduleAliases := moduleAliases r;
     privateFields := <[this := f]> (privateFields r) |}.

Definition cannotMapString (q : string -> string) (specifier aliasNamespace : string)
  : JsVal :=
  JErr TypeError
    ("Cannot map module " +:+ q specifier +:+ " to " +:+ q aliasNamespace +:+
     " in parent compartment").

Definition cannotMapUnknown (q : string -> string) (specifier : string) : JsVal :=
  JErr ReferenceError
    ("Cannot map module " +:+ q specifier +:+
     " because it has no known compartment in this realm").

Definition invalidLexicals (invalidNames : list string) : JsVal :=
  JErr Error
    ("Cannot create compartment with invalid names for global lexicals: " +:+
     String.concat ", " invalidNames +:+
     "; these names would not be lexically mentionable").

Definition calledWithoutNew : JsVal :=
  JErr TypeError "Class constructor Compartment cannot be invoked without 'new'".

(** [for (const [specifier, aliasNamespace] of entries(moduleMap)) { ... }] *)
Fixpoint validateModuleMap (q : string -> string) (r : Realm)
    (moduleMapEntries : list (string * JsVal)) : Completion unit :=
  match moduleMapEntries with
  | [] => Normal tt
  | (specifier, aliasNamespace) :: rest =>
      if String.eqb (typeof aliasNamespace) "string" then
        Throw (cannotMapString q specifier (Instance.stringOf aliasNamespace))
      else
        match aliasOf r aliasNamespace with
        | None => Throw (cannotMapUnknown q specifier)
        | Some _ => validateModuleMap q r rest
        end
  end.

(** A module map value is recognized when it is registered in
    [moduleAliases]; a string never is. *)
Definition recognized (r : Realm) (aliasNamespace : JsVal) : bool :=
  match aliasOf r aliasNamespace with Some _ => true | None => false end.

(** Modelled from the spec: [isValidIdentifierName] of scope-constants.js,
    which is not among the sources; the design document only asks for "a
    valid identifier".  This stand-in accepts the names that match
    [/^[a-zA-Z_$][\w$]*$/]; it instantiates the parameter in examples. *)
Definition isIdentifierStart (c : ascii) : bool :=
  let n := nat_of_ascii c in
  (Nat.leb 65 n && Nat.leb n 90) || (Nat.leb 97 n && Nat.leb n 122)
  || Nat.eqb n 95 || Nat.eqb n 36.

Definition isIdentifierPart (c : ascii) : bool :=
  let n := nat_of_ascii c in
  isIdentifierStart c || (Nat.leb 48 n && Nat.leb n 57).

Definition matchesIdentifierPattern (s : string) : bool :=
  match s with
  | EmptyString => false
  | String c rest =>
      isIdentifierStart c && forallb isIdentifierPart (list_ascii_of_string rest)
  end.

Section Constructor.

(** [isValidIdentifierName] of scope-constants.js and the [quote] of
    error/assert.js are not among the sources. *)
Variable isValidIdentifierName : string -> bool.
Variable quote : string -> string.

(** How building the global object ends ([initGlobalObject...],
    [makeEvaluate], [assign(globalObject, endowments)]). *)
Variable globalSetup : Completion unit.

(** [getOwnPropertyNames(globalLexicals).filter(identifier =>
      !isValidIdentifierName(identifier))] *)
Definition invalidNamesOf (lexicals : list (string * JsVal)) : list string :=
  List.filter (fun identifier => negb (isValidIdentifierName identifier))
    (obj_keys lexicals).

Definition fieldsOf (moduleMapEntries : list (string * JsVal)) (o : Options)
  : Fields :=
  {| name := opt_name o;
     globalLexicals := opt_globalLexicals o;   (* freeze({ ...globalLexicals }) *)
     resolveHook := opt_resolveHook o;
     importHook := opt_importHook o;
     moduleMap := moduleMapEntries;
     moduleMapHook := opt_moduleMapHook o |}.

(** The constructor of the current compartment-shim.js (with [load] and
    [link]): [new.target] check, module map validation, lexical names
    check, then the global object, then [privateFields.set(this, ...)]. *)
Definition Compartment (this : nat) (newTarget : bool)
    (moduleMapEntries : list (string * JsVal)) (o : Options) : SM Realm unit :=
  fun r =>
    if negb newTarget then (Throw calledWithoutNew, r)
    else
      match validateModuleMap quote r moduleMapEntries with
      | Normal _ =>
          let invalidNames := invalidNamesOf (opt_globalLexicals o) in
          if negb (Nat.eqb (length invalidNames) 0)
          then (Throw (invalidLexicals invalidNames), r)
          else
            match globalSetup with
            | Normal _ =>
                (Normal tt, setPrivateFields this (fieldsOf moduleMapEntries o) r)
            | Throw e => (Throw e, r)
            | Abort f => (Abort f, r)
            end
      | Throw e => (Throw e, r)
      | Abort f => (Abort f, r)
      end.

(** The constructor of the earlier module shim (which also exports
    StaticModuleRecord): the global object is built first, and messages
    quote with [JSON.stringify]. *)
Definition CompartmentModuleShim (this : nat)
    (moduleMapEntries : list (string * JsVal)) (o : Options) : SM Realm unit :=
  fun r =>
    match globalSetup with
    | Normal _ =>
        match validateModuleMap q r moduleMapEntries with
        | Normal _ =>
            let invalidNames := invalidNamesOf (opt_globalLexicals o) in
            if negb (Nat.eqb (length invalidNames) 0)
            then (Throw (invalidLexicals invalidNames), r)
            else (Normal tt, setPrivateFields this (fieldsOf moduleMapEntries o) r)
        | Throw e => (Throw e, r)
        | Abort f => (Abort f, r)
        end
    | Throw e => (Throw e, r)
    | Abort f => (Abort f, r)
    end.

(** The private fields the constructor without module system records:
    the name and the global lexicals (with the global object and the
    global transforms, which the modelled code does not read); it neither
    reads nor records a hook or a module map, so these fields are absent. *)
Definition fieldsWithoutModules (o : Options) : Fields :=
  {| name := opt_name o;
     globalLexicals := opt_globalLexicals o;   (* freeze({ ...globalLexicals }) *)
     resolveHook := JUndefined;
     importHook := JUndefined;
     moduleMap := [];
     moduleMapHook := JUndefined |}.

(** The constructor of packages/ses/src/compartment-shim.js, which has no
    module system: [_moduleMap] is not looked at, and of the options only
    [name], [transforms] and [globalLexicals] are. *)
Definition CompartmentNoModules (this : nat)
    (moduleMapEntries : list (string * JsVal)) (o : Options) : SM Realm unit :=
  fun r =>
    match globalSetup with
    | Normal _ =>
        let invalidNames := invalidNamesOf (opt_globalLexicals o) in
        if negb (Nat.eqb (length invalidNames) 0)
        then (Throw (invalidLexicals invalidNames), r)
        else (Normal tt, setPrivateFields this (fieldsWithoutModules o) r)
    | Throw e => (Throw e, r)
    | Abort f => (Abort f, r)
    end.

End Constructor.

(** *** [load], [import], [importNow] *)

Section Methods.

(** Everything [load] and [link] act on besides the two weak maps. *)
Variable W : Type.

(** A linked module instance, as [importNow] uses it. *)
Record Linked := {
  execute : SM (Realm * W) unit;
  exportsProxy : nat
}.

(** [load] of module-load.js and [link] of module-link.js are not among
    the sources.  The promise [load] returns is given by how it settles:
    [Normal] when it is fulfilled, [Throw e] when it is rejected with [e]. *)
Variable load : nat -> string -> SM (Realm * W) unit.
Variable link : nat -> string -> SM (Realm * W) Linked.

(** The jobs that run between the settlement of a promise and the call of
    its reaction. *)
Variable otherJobs : Realm * W -> Realm * W.

Definition mustBeString (method : string) : JsVal :=
  JErr TypeError ("first argument of " +:+ method +:+ "() must be a string").

Definition hooksMissing : JsVal :=
  JErr TypeError
    "Compartment must be constructed with an importHook and a resolveHook for it to be able to load modules".

(** What the engine throws for destructuring [undefined]. *)
Definition notACompartment : JsVal :=
  JErr TypeError "Cannot destructure property 'importHook' of undefined".

Definition assertModuleHooks (compartment : nat) : SM (Realm * W) unit :=
  fun st =>
    match privateFields (fst st) !! compartment with
    | None => (Throw notACompartment, st)
    | Some fields =>
        if negb (String.eqb (typeof (importHook fields)) "function")
           || negb (String.eqb (typeof (resolveHook fields)) "function")
        then (Throw hooksMissing, st)
        else (Normal tt, st)
    end.

Definition importNow (this : nat) (specifier : JsVal) : SM (Realm * W) nat :=
  if negb (String.eqb (typeof specifier) "string")
  then throw (mustBeString "importNow")
  else
    assertModuleHooks this ;;;
    moduleInstance <- link this (Instance.stringOf specifier) ;;
    execute moduleInstance ;;;
    ret (exportsProxy moduleInstance).

(** The object [{ namespace }]. *)
Record NamespaceBox := { namespace : nat }.

(** [promise.then(reaction)], by settlement: a rejection passes through; on
    fulfilment the reaction runs later, and what it returns or throws
    settles the result. *)
Definition andThen {A B} (promise : SM (Realm * W) A)
    (reaction : A -> SM (Realm * W) B) : SM (Realm * W) B :=
  x <- promise ;; fun st => reaction x (otherJobs st).

(** [async load(specifier)]; a throw in an async function is a rejection. *)
Definition loadMethod (this : nat) (specifier : JsVal) : SM (Realm * W) unit :=
  if negb (String.eqb (typeof specifier) "string")
  then throw (mustBeString "load")
  else
    assertModuleHooks this ;;;
    load this (Instance.stringOf specifier).

(** [async import(specifier)] *)
Definition import (this : nat) (specifier : JsVal)
  : SM (Realm * W) NamespaceBox :=
  if negb (String.eqb (typeof specifier) "string")
  then throw (mustBeString "import")
  else
    assertModuleHooks this ;;;
    andThen (load this (Instance.stringOf specifier))
      (fun _ =>
         namespace <- importNow this specifier ;;
         ret {| namespace := namespace |}).

(** The design document's reading of [import]: [load], then [importNow]. *)
Definition import_spec (this : nat) (specifier : JsVal)
  : SM (Realm * W) NamespaceBox :=
  andThen (loadMethod this specifier)
    (fun _ =>
       namespace <- importNow this specifier ;;
       ret {| namespace := namespace |}).

End Methods.

Arguments execute {W} _.
Arguments exportsProxy {W} _.

End Compartment.

(** ** AltWeakMap and AltWeakSet (make-hardener, AltWeakMapSet.js)

    A weak map made of private fields: every AltWeakMap has a HiddenClass
    of its own, whose constructor returns its [key] argument and so installs
    its private field [#value] on that key.  The state is which object
    holds the [#value] of which HiddenClass. *)

Module AltWeakMapSet.

(** The largest safe integer, [Number.MAX_SAFE_INTEGER = 2^53 - 1]. *)
Definition maxSafeInteger : Z := 9007199254740991.

Definition isSafeInteger (n : Z) : bool := (Z.abs n <=? maxSafeInteger)%Z.

(** The values that are not objects.  The numbers are the safe integers,
    which are doubles and which [String] prints in decimal notation (other
    numbers are left out: above 2^53 doubles round, and from 10^21 on
    [String] uses the exponent notation); a bigint is any integer; a symbol
    is given by its description, [None] for [undefined]. *)
Inductive Primitive :=
| PUndefined
| PNull
| PBoolean (b : bool)
| PNumber (n : Z) (safe : isSafeInteger n = true)
| PBigInt (n : Z)
| PString (s : string)
| PSymbol (description : option string).

(** [String(key)] *)
Definition toString (p : Primitive) : string :=
  match p with
  | PUndefined => "undefined"
  | PNull => "null"
  | PBoolean true => "true"
  | PBoolean false => "false"
  | PNumber n _ => pretty n
  | PBigInt n => pretty n
  | PString s => s
  | PSymbol (Some description) => "Symbol(" +:+ description +:+ ")"
  | PSymbol None => "Symbol()"
  end.

(** A key: an object, by identity, or a primitive
    ([key !== Object(key)]). *)
Inductive Key :=
| KObject (id : nat)
| KPrimitive (p : Primitive).

(** What a [#value] field holds: a value, or [PUMPKIN], which must not
    escape. *)
Inductive Slot :=
| Held (value : JsVal)
| PUMPKIN.

(** [privateValue !! (c, o)] is the [#value] of HiddenClass [c] on the
    object [o], when [o] has that field; [nextClass] numbers the next
    HiddenClass. *)
Record Heap := {
  privateValue : gmap (nat * nat) Slot;
  nextClass : nat
}.

Definition emptyHeap : Heap := {| privateValue := ∅; nextClass := 0 |}.

Definition invalidKey (key : Primitive) : JsVal :=
  JErr TypeError ("Invalid value used as weak map key " +:+ toString key).

(** [key.#value]: [None] is the TypeError of an object without the field,
    or of a primitive. *)
Definition readValue (c : nat) (key : Key) (h : Heap) : option Slot :=
  match key with
  | KObject o => privateValue h !! (c, o)
  | KPrimitive _ => None
  end.

Definition writeValue (c o : nat) (slot : Slot) (h : Heap) : Heap :=
  {| privateValue := <[(c, o) := slot]> (privateValue h);
     nextClass := nextClass h |}.

Module HiddenClass.

(** [constructor(key, value)] *)
Definition construct (c : nat) (key : Key) (value : JsVal) : SM Heap unit :=
  fun h =>
    match key with
    | KPrimitive p => (Throw (invalidKey p), h)
    | KObject o => (Normal tt, writeValue c o (Held value) h)
    end.

(** [static has(key)] *)
Definition has (c : nat) (key : Key) (h : Heap) : bool :=
  match readValue c key h with
  | Some (Held _) => true
  | Some PUMPKIN => false
  | None => false
  end.

(** [static get(key)] *)
Definition get (c : nat) (key : Key) (h : Heap) : JsVal :=
  match readValue c key h with
  | Some (Held value) => value
  | Some PUMPKIN => JUndefined
  | None => JUndefined
  end.

(** [static set(key, value)] *)
Definition set (c : nat) (key : Key) (value : JsVal) : SM Heap unit :=
  fun h =>
    match key, readValue c key h with
    | KObject o, Some _ => (Normal tt, writeValue c o (Held value) h)
    | _, _ => construct c key value h
    end.

(** [static delete(key)] *)
Definition delete (c : nat) (key : Key) : Heap -> bool * Heap :=
  fun h =>
    match key, readValue c key h with
    | KObject o, Some (Held _) => (true, writeValue c o PUMPKIN h)
    | _, _ => (false, h)
    end.

End HiddenClass.

Module AltWeakMap.

(** An AltWeakMap, known by its [#hiddenClass]. *)
Definition has (this : nat) (key : Key) (h : Heap) : bool :=
  HiddenClass.has this key h.

Definition get (this : nat) (key : Key) (h : Heap) : JsVal :=
  HiddenClass.get this key h.

(** [set(key, value) { this.#hiddenClass.set(key, value); return this; }] *)
Definition set (this : nat) (key : Key) (value : JsVal) : SM Heap nat :=
  HiddenClass.set this key value ;;; ret this.

Definition delete (this : nat) (key : Key) : Heap -> bool * Heap :=
  HiddenClass.delete this key.

(** [for (const [k, v] of optIterable) { this.set(k, v); }] *)
Fixpoint setAll (this : nat) (pairs : list (Key * JsVal)) : SM Heap unit :=
  match pairs with
  | [] => ret tt
  | (k, v) :: rest => set this k v ;;; setAll this rest
  end.

(** [constructor(optIterable = undefined)]; [None] is [undefined]. *)
Definition construct (optIterable : option (list (Key * JsVal))) : SM Heap nat :=
  fun h =>
    let this := nextClass h in
    let h1 := {| privateValue := privateValue h; nextClass := S (nextClass h) |} in
    match optIterable with
    | Some pairs => (setAll this pairs ;;; ret this) h1
    | None => (Normal this, h1)
    end.

End AltWeakMap.

Module AltWeakSet.

(** An AltWeakSet, known by the AltWeakMap in its [#wm]. *)
Definition has (this : nat) (key : Key) (h : Heap) : bool :=
  AltWeakMap.has this key h.

(** [add(key) { this.#wm.set(key, true); return this; }] *)
Definition add (this : nat) (key : Key) : SM Heap nat :=
  AltWeakMap.set this key (JBool true) ;;; ret this.

Definition delete (this : nat) (key : Key) : Heap -> bool * Heap :=
  AltWeakMap.delete this key.

Fixpoint addAll (this : nat) (keys : list Key) : SM Heap unit :=
  match keys with
  | [] => ret tt
  | k :: rest => add this k ;;; addAll this rest
  end.

(** The field initializer [#wm = new AltWeakMap()] runs first. *)
Definition construct (optIterable : option (list Key)) : SM Heap nat :=
  this <- AltWeakMap.construct None ;;
  match optIterable with
  | Some keys => addAll this keys ;;; ret this
  | None => ret this
  end.

End AltWeakSet.

(** The map an AltWeakMap stands for: the objects that hold a value that
    is not [PUMPKIN], under the pair of the map and the object. *)
Definition entries (h : Heap) : gmap (nat * nat) JsVal :=
  omap (fun slot => match slot with Held v => Some v | PUMPKIN => None end)
    (privateValue h).

(** No object holds a field of a HiddenClass that is yet to be made. *)
Definition wellFormed (h : Heap) : Prop :=
  forall c o, nextClass h <= c -> privateValue h !! (c, o) = None.

(** The operations on one heap: of maps on keys. *)
Inductive Op :=
| OpNew (optIterable : option (list (Key * JsVal)))
| OpSet (this : nat) (key : Key) (value : JsVal)
| OpDelete (this : nat) (key : Key).

Definition runOp (op : Op) (h : Heap) : Heap :=
  match op with
  | OpNew it => snd (AltWeakMap.construct it h)
  | OpSet this key value => snd (AltWeakMap.set this key value h)
  | OpDelete this key => snd (AltWeakMap.delete this key h)
  end.

(** An operation on a map that has been made. *)
Definition onExisting (h : Heap) (op : Op) : Prop :=
  match op with
  | OpNew _ => True
  | OpSet this _ _ | OpDelete this _ => this < nextClass h
  end.

End AltWeakMapSet.

(** ** Property names and the order of enumeration

    An object enumerates its own string keys ([keys], [entries]) with the
    array indices first, in numeric order, and the other names after them
    in the order of their creation.  The tables of the model keep the order
    of creation; it is the order of enumeration when no key is an array
    index.  An array index is a canonical numeric string, so it starts with
    a digit.  [Array.prototype.sort] compares strings by UTF-16 code units,
    the model compares them character by character: the same order on
    ASCII names. *)

Module Names.

Definition isDigit (c : ascii) : bool :=
  let n := nat_of_ascii c in Nat.leb 48 n && Nat.leb n 57.

Definition startsWithDigit (s : string) : bool :=
  match s with
  | String c _ => isDigit c
  | EmptyString => false
  end.

(** No key is an array index: the keys are enumerated as created. *)
Definition enumeratedAsCreated (keys : list string) : bool :=
  forallb (fun k => negb (startsWithDigit k)) keys.

Definition asciiOnly (s : string) : bool :=
  forallb (fun c => Nat.ltb (nat_of_ascii c) 128) (list_ascii_of_string s).

(** Names on which the order of the model is the order of the code, for
    enumeration and for sorting. *)
Definition plainNames (keys : list string) : bool :=
  forallb (fun k => negb (startsWithDigit k) && asciiOnly k) keys.

(** An object made by [{}]: its own properties, and its prototype when
    that has been set ([None] is [Object.prototype]). *)
Record PlainObject (V : Type) := {
  own : list (string * V);
  proto : option V
}.
Arguments own {V} _.
Arguments proto {V} _.

Definition emptyObject {V : Type} : PlainObject V := {| own := []; proto := None |}.

(** [o[k] = v] on such an object, for a value [v] that is an object: the
    name [__proto__] is the accessor of [Object.prototype], whose setter
    sets the prototype of [o] and defines no property; every other name
    becomes, or stays, an own property. *)
Definition assign {V : Type} (k : string) (v : V) (o : PlainObject V)
  : PlainObject V :=
  if String.eqb k "__proto__"
  then {| own := own o; proto := Some v |}
  else {| own := obj_set k v (own o); proto := proto o |}.

(** What the assignments to [k] have left in [o]: its prototype for
    [__proto__], its own property [k] for any other name. *)
Definition assigned {V : Type} (k : string) (o : PlainObject V) : option V :=
  if String.eqb k "__proto__" then proto o else obj_get k (own o).

(** The keys that become own properties. *)
Definition ownKeys (keys : list string) : list string :=
  List.filter (fun k => negb (String.eqb k "__proto__")) keys.

End Names.

(** ** Notions used to state what [makeModuleInstance] and [imports] build *)

Module InstanceNotions.

Import Binding Instance.

(** The entry [gn] of [localGetNotify] for [localName] is the getter and
    the notifier of one binding, made for [localName] at or after the
    reference [from], which is as [makeModuleInstance] makes bindings (in
    its tdz, without updaters) and which the functor reaches through
    [onceVar] or [liveVar]. *)
Definition localBinding (t : Tables) (s : Store) (from : nat)
    (localName : string) (gn : GetNotify) : Prop :=
  exists r,
    from <= r /\
    ((gn = {| gn_get := GetFixed r; gn_notify := NotifyFixed r |} /\
      cells s !! r = Some (newFixed localName) /\
      obj_get localName (onceVar t) = Some (UInit r)) \/
     (exists liveExportName,
        gn = {| gn_get := GetLive r; gn_notify := NotifyLive r |} /\
        cells s !! r = Some (newLive liveExportName localName) /\
        obj_get localName (liveVar t) = Some (UUpdate r))).

(** The export [exportName] of the local name [localName] has its binding:
    the getter and the notifier in the tables are those of the binding of
    [localName]. *)
Definition bindingOf (t : Tables) (s : Store) (from : nat)
    (exportName localName : string) : Prop :=
  exists gn,
    obj_get localName (localGetNotify t) = Some gn /\
    obj_get exportName (notifiers t) = Some (gn_notify gn) /\
    obj_get exportName (exportsProps t) = Some (gn_get gn) /\
    localBinding t s from localName gn.

(** What one round of the two [forEach] loops keeps and adds. *)
Definition roundOk (from : nat) (acc acc' : Tables * Store) (e l0 : string)
  : Prop :=
  from <= length (cells (snd acc)) ->
  (forall l gn, obj_get l (localGetNotify (fst acc)) = Some gn ->
                localBinding (fst acc) (snd acc) from l gn) ->
  from <= length (cells (snd acc')) /\
  (forall l gn, obj_get l (localGetNotify (fst acc')) = Some gn ->
                localBinding (fst acc') (snd acc') from l gn) /\
  (forall l gn, obj_get l (localGetNotify (fst acc)) = Some gn ->
                obj_get l (localGetNotify (fst acc')) = Some gn) /\
  (exists gn, obj_get l0 (localGetNotify (fst acc')) = Some gn /\
              obj_get e (notifiers (fst acc')) = Some (gn_notify gn) /\
              obj_get e (exportsProps (fst acc')) = Some (gn_get gn)) /\
  (forall e', e' <> e ->
     obj_get e' (notifiers (fst acc')) = obj_get e' (notifiers (fst acc)) /\
     obj_get e' (exportsProps (fst acc')) = obj_get e' (exportsProps (fst acc))) /\
  (exists new, cells (snd acc') = cells (snd acc) ++ new) /\
  calls (snd acc') = calls (snd acc) /\
  (NoDup (obj_keys (exportsProps (fst acc))) ->
   NoDup (obj_keys (exportsProps (fst acc')))).

(** *** An instance in an import cycle

    While the functor of an instance runs the first loop of [imports], the
    instance can be reached again through a cycle of imports.  What is
    found then is the instance as [execute] left it when it called the
    functor: the functor field cleared, no failure cached yet, and the
    tables as they are at that moment, which are the tables the instance
    had when [execute] was called, since the first loop of [imports] does
    not write them. *)
Definition running {X Y : Type} (st : InstanceState X) : InstanceState Y :=
  {| tables := tables st; namespace := namespace st;
     optFunctor := None;
     didThrow := didThrow st; thrownError := thrownError st;
     functorCalls := S (functorCalls st) |}.

(** The frozen [{ notifiers, exportsProxy, execute }] of that instance, as
    the other instances of the cycle see it meanwhile. *)
Definition reentered {X Y : Type} (deferred : DeferredExports)
    (smr : StaticModuleRecord) (st : InstanceState X) : ModuleInstance Y :=
  {| mi_notifiers := fun _ => notifiers (tables (@running X Y st));
     mi_exportsProxy := exportsProxy deferred;
     mi_execute := fun w =>
       let '(res, (_, w')) :=
         execute deferred smr (fun _ => None) 0 (@running X Y st, w) in
       (res, w') |}.

(** An instance that acts on the store only, as a dependency in a larger
    world. *)
Definition lift {X : Type} (instance : ModuleInstance unit) : ModuleInstance X :=
  {| mi_notifiers := fun w =>
       mi_notifiers instance {| store := store w; others := tt |};
     mi_exportsProxy := mi_exportsProxy instance;
     mi_execute := fun w =>
       let (res, w') := mi_execute instance {| store := store w; others := tt |} in
       (res, {| store := store w'; others := others w |}) |}.

(** The exports of a static module record, as pairs of export name and
    local name: the fixed ones, then the live ones. *)
Definition exportedLocals (smr : StaticModuleRecord) : list (string * string) :=
  fixedExportMap smr
  ++ map (fun entry => (fst entry, fst (snd entry))) (liveExportMap smr).

(** Strings in the order of [sort]. *)
Fixpoint isSorted (l : list string) : bool :=
  match l with
  | [] => true
  | x :: l' =>
      match l' with
      | [] => true
      | y :: _ => String.leb x y && isSorted l'
      end
  end.

End InstanceNotions.

(** ** Compartment maps for node_modules (compartment-mapper, node-modules.js) *)

Module NodeModules.

Import Names.

(** A parser map: from a file extension to the name of a parser. *)
Definition ParserMap := list (string * string).

Definition commonParsers : ParserMap :=
  [("js", "cjs"); ("cjs", "cjs"); ("mjs", "mjs"); ("json", "json")].

Definition moduleParsers : ParserMap :=
  [("js", "mjs"); ("mjs", "mjs"); ("cjs", "cjs"); ("json", "json")].

Definition cannotInferParsers (type location : string) : JsVal :=
  JErr Error
    ("Cannot infer parser map for package of type " +:+ type +:+ " at " +:+ location).

(** [inferParsers(type, location)], for a [type] that is a string or
    [undefined] ([None]). *)
Definition inferParsers (type : option string) (location : string)
  : Completion ParserMap :=
  match type with
  | None => Normal commonParsers
  | Some t =>
      if String.eqb t "module" then Normal moduleParsers
      else if String.eqb t "commonjs" then Normal commonParsers
      else Throw (cannotInferParsers t location)
  end.

(** What [graphPackage] records for a package: the values of the graph,
    whose keys are the locations of the packages.  The graph and the
    [exports] of a package are given as [entries] enumerates them. *)
Record Node := {
  label : string;
  dependencies : list string;
  exports : list (string * string);
  parsers : ParserMap;
  types : list (string * string)
}.

Definition Graph := list (string * Node).

(** [{ compartment, module }] *)
Record ModuleDescriptor := {
  compartment : string;
  module : string
}.

(** [{ label, location, modules, parsers, types }]; [modules] is made by
    [{}]. *)
Record CompartmentDescriptor := {
  c_label : string;
  c_location : string;
  c_modules : PlainObject ModuleDescriptor;
  c_parsers : ParserMap;
  c_types : list (string * string)
}.

(** [{ main, compartments }]; [compartments] is made by [{}]. *)
Record CompartmentMap := {
  main : string;
  compartments : PlainObject CompartmentDescriptor
}.

(** What the engine throws for [const { exports } = undefined]. *)
Definition undefinedNode : JsVal :=
  JErr TypeError "Cannot destructure property 'exports' of 'graph[packageLocation]' as it is undefined.".

(** [for (const [exportName, module] of entries(exports)) { modules[exportName]
    = { compartment: packageLocation, module }; }] *)
Definition addExports (packageLocation : string) (exports : list (string * string))
    (modules : PlainObject ModuleDescriptor) : PlainObject ModuleDescriptor :=
  fold_left
    (fun modules entry =>
       assign (fst entry)
         {| compartment := packageLocation; module := snd entry |} modules)
    exports modules.

(** [for (const packageLocation of dependencies) { ... }]; the graph is
    made by [create(null)], so that [graph[packageLocation]] is a lookup
    among its own properties. *)
Fixpoint addDependencies (graph : Graph) (dependencies : list string)
    (modules : PlainObject ModuleDescriptor)
  : Completion (PlainObject ModuleDescriptor) :=
  match dependencies with
  | [] => Normal modules
  | packageLocation :: rest =>
      match obj_get packageLocation graph with
      | None => Throw undefinedNode
      | Some node =>
          addDependencies graph rest (addExports packageLocation (exports node) modules)
      end
  end.

(** [for (const [packageLocation, { label, parsers, dependencies, types }] of
    entries(graph)) { ... }] *)
Fixpoint translateEntries (graph : Graph) (entries : list (string * Node))
    (compartments : PlainObject CompartmentDescriptor)
  : Completion (PlainObject CompartmentDescriptor) :=
  match entries with
  | [] => Normal compartments
  | (packageLocation, node) :: rest =>
      match addDependencies graph (dependencies node) emptyObject with
      | Normal modules =>
          translateEntries graph rest
            (assign packageLocation
               {| c_label := label node;
                  c_location := packageLocation;
                  c_modules := modules;
                  c_parsers := parsers node;
                  c_types := types node |}
               compartments)
      | Throw e => Throw e
      | Abort f => Abort f
      end
  end.

Definition translateGraph (mainPackagePath : string) (graph : Graph)
  : Completion CompartmentMap :=
  match translateEntries graph graph emptyObject with
  | Normal compartments =>
      Normal {| main := mainPackagePath; compartments := compartments |}
  | Throw e => Throw e
  | Abort f => Abort f
  end.

(** The dependency that provides [exportName] to a package: the last one,
    in the order of [dependencies], whose exports have that name. *)
Fixpoint provider (graph : Graph) (dependencies : list string) (exportName : string)
  : option ModuleDescriptor :=
  match dependencies with
  | [] => None
  | packageLocation :: rest =>
      match provider graph rest exportName with
      | Some found => Some found
      | None =>
          match obj_get packageLocation graph with
          | Some node =>
              match obj_get exportName (exports node) with
              | Some module =>
                  Some {| compartment := packageLocation; module := module |}
              | None => None
              end
          | None => None
          end
      end
  end.

(** Every dependency of every package is a key of the graph. *)
Definition closed (graph : Graph) : Prop :=
  forall packageLocation node dependency,
    In (packageLocation, node) graph -> In dependency (dependencies node) ->
    obj_get dependency graph <> None.

(** Every package exports under distinct names, as the own properties of
    an object are distinct. *)
Definition distinctExports (graph : Graph) : Prop :=
  forall packageLocation node,
    In (packageLocation, node) graph -> NoDup (obj_keys (exports node)).

(** *** Package descriptors, read once *)

(** The locations among [requested], in their order, that are not [known]
    and have not been requested before. *)
Fixpoint misses (known requested : list string) : list string :=
  match requested with
  | [] => []
  | packageLocation :: rest =>
      if includes packageLocation known then misses known rest
      else packageLocation :: misses (packageLocation :: known) rest
  end.

Section Descriptors.

(** A package descriptor; file contents; the state of the file system. *)
Variable Descriptor : Type.
Variable Bytes : Type.
Variable Files : Type.

(** [resolve(rel, abs) = new URL(rel, abs).toString()], [read] (a
    parameter of the code; [None] stands for a rejected promise) and
    [JSON.parse(decoder.decode(descriptorBytes))]. *)
Variable resolve : string -> string -> string.
Variable read : string -> Files -> option Bytes * Files.
Variable parse : Bytes -> Completion Descriptor.

(** How the promise of a descriptor settles; [Normal None] is fulfilment
    with [undefined]. *)
Definition Settled := Completion (option Descriptor).

(** The memo object, the file system, and the locations [read] has been
    called with, oldest first (this log is not a variable of the code). *)
Record ReadState := {
  memo : list (string * Settled);
  files : Files;
  readLog : list string
}.

(** [readDescriptor(read, packageLocation)] *)
Definition readDescriptor (packageLocation : string) (st : ReadState)
  : Settled * ReadState :=
  let descriptorPath := resolve "package.json" packageLocation in
  let (descriptorBytes, files') := read descriptorPath (files st) in
  let st' := {| memo := memo st; files := files';
                readLog := readLog st ++ [descriptorPath] |} in
  match descriptorBytes with
  | None => (Normal None, st')
  | Some bytes =>
      match parse bytes with
      | Normal descriptor => (Normal (Some descriptor), st')
      | Throw e => (Throw e, st')
      | Abort f => (Abort f, st')
      end
  end.

(** [readDescriptorWithMemo(memo, read, packageLocation)] *)
Definition readDescriptorWithMemo (packageLocation : string) (st : ReadState)
  : Settled * ReadState :=
  match obj_get packageLocation (memo st) with
  | Some promise => (promise, st)
  | None =>
      let (promise, st1) := readDescriptor packageLocation st in
      (promise,
       {| memo := obj_set packageLocation promise (memo st1);
          files := files st1; readLog := readLog st1 |})
  end.

(** Reading the descriptors of several locations, one after the other,
    while the file system changes in between. *)
Fixpoint readAll (requests : list (string * (Files -> Files))) (st : ReadState)
  : list Settled * ReadState :=
  match requests with
  | [] => ([], st)
  | (packageLocation, change) :: rest =>
      let (promise, st1) :=
        readDescriptorWithMemo packageLocation
          {| memo := memo st; files := change (files st); readLog := readLog st |} in
      let (promises, st2) := readAll rest st1 in
      (promise :: promises, st2)
  end.

(** The start of [graphPackages]: a memo of its own, which holds the
    descriptor of the main package when the caller has it. *)
Definition initialMemo (packageLocation : string)
    (mainPackageDescriptor : option Descriptor) : list (string * Settled) :=
  match mainPackageDescriptor with
  | Some descriptor => obj_set packageLocation (Normal (Some descriptor)) []
  | None => []
  end.

End Descriptors.

Arguments memo {Descriptor Files} _.
Arguments files {Descriptor Files} _.
Arguments readLog {Descriptor Files} _.
Arguments readDescriptor {Descriptor Bytes Files}.
Arguments readDescriptorWithMemo {Descriptor Bytes Files}.
Arguments readAll {Descriptor Bytes Files}.
Arguments initialMemo {Descriptor}.

End NodeModules.

(** ** Evaluation (evaluate.js, and the [evaluate] method of
    compartment-shim.js) *)

Module Evaluate.

(** The state of a scope handler and of the revocable scope proxy made with
    it: [scopeHandler.useUnsafeEvaluator], and whether
    [scopeProxyRevocable.revoke()] has been called. *)
Record Handler := {
  useUnsafeEvaluator : bool;
  revoked : bool
}.

Section Evaluator.

(** Source transforms are functions, known by identity. *)
Variable Transform : Type.
Variable mandatoryTransforms : Transform.
Variable evadeHtmlCommentTest : Transform.
Variable evadeImportExpressionTest : Transform.
Variable rejectSomeDirectEvalExpressions : Transform.

(** Objects of lexical bindings, and whatever else evaluated code acts
    on. *)
Variable Lexicals : Type.
Variable W : Type.

(** What [makeEvaluate] is given besides the transforms. *)
Record Scope := {
  localObject : Lexicals;
  sloppyGlobalsMode : bool
}.

(** The function [makeEvaluate] returns: a closure over its scope handler,
    its scope and its [globalTransforms]. *)
Record Evaluator := {
  ev_handler : nat;
  ev_scope : Scope;
  ev_globalTransforms : list Transform
}.

(** The private fields of a compartment that the [evaluate] method reads. *)
Record Fields := {
  globalTransforms : list Transform;
  globalLexicals : Lexicals;
  evaluate : Evaluator
}.

Record State := {
  handlers : list Handler;
  privateFields : gmap nat Fields;
  world : W
}.

(** Not among the sources: [applyTransforms] of transforms.js, which runs
    the transforms, functions of the caller, on the source; the function
    that [makeEvaluateFactory] makes, which runs the source under the scope
    proxy of a handler and is expected to reset [useUnsafeEvaluator] through
    it; the error that [assert.fail] throws, given the [err] stashed by the
    [catch] ([None] is [undefined]); and the object that [create] and
    [defineProperties] make of the global lexicals and the lexicals of a
    module, when they can. *)
Variable applyTransforms : string -> list Transform -> SM State string.
Variable runSource : nat -> Scope -> string -> SM State JsVal.
Variable assertFail : option JsVal -> JsVal.
Variable withModuleLexicals : Lexicals -> Lexicals -> Completion Lexicals.

Definition setUnsafe (h : nat) (st : State) : State :=
  {| handlers :=
       match handlers st !! h with
       | Some handler =>
           <[h := {| useUnsafeEvaluator := true; revoked := revoked handler |}]>
             (handlers st)
       | None => handlers st
       end;
     privateFields := privateFields st;
     world := world st |}.

Definition revoke (h : nat) (st : State) : State :=
  {| handlers :=
       match handlers st !! h with
       | Some handler =>
           <[h := {| useUnsafeEvaluator := useUnsafeEvaluator handler;
                     revoked := true |}]> (handlers st)
       | None => handlers st
       end;
     privateFields := privateFields st;
     world := world st |}.

(** [scopeHandler.useUnsafeEvaluator === true] *)
Definition stillUnsafe (h : nat) (st : State) : bool :=
  match handlers st !! h with
  | Some handler => useUnsafeEvaluator handler
  | None => false
  end.

(** [makeEvaluate({ globalObject, localObject, globalTransforms = [],
    sloppyGlobalsMode, knownScopeProxies })]; [None] is an [undefined]
    [globalTransforms]. *)
Definition makeEvaluate (scope : Scope) (optGlobalTransforms : option (list Transform))
  : SM State Evaluator :=
  fun st =>
    (Normal {| ev_handler := length (handlers st);
               ev_scope := scope;
               ev_globalTransforms := default [] optGlobalTransforms |},
     {| handlers := handlers st
                    ++ [{| useUnsafeEvaluator := false; revoked := false |}];
        privateFields := privateFields st;
        world := world st |}).

(** The [try], [catch] and [finally] around the call of the evaluator. *)
Definition guarded (ev : Evaluator) (source : string) : SM State JsVal :=
  fun st =>
    let h := ev_handler ev in
    match runSource h (ev_scope ev) source (setUnsafe h st) with
    | (Normal v, st') =>
        if stillUnsafe h st' then (Throw (assertFail None), revoke h st')
        else (Normal v, st')
    | (Throw e, st') =>
        if stillUnsafe h st' then (Throw (assertFail (Some e)), revoke h st')
        else (Throw e, st')
    | (Abort f, st') => (Abort f, st')
    end.

(** The function [makeEvaluate] returns:
    [(source, { localTransforms = [] } = {}) => { ... }]. *)
Definition callEvaluator (ev : Evaluator) (source : string)
    (localTransforms : list Transform) : SM State JsVal :=
  source' <- applyTransforms source
               (localTransforms ++ ev_globalTransforms ev ++ [mandatoryTransforms]) ;;
  guarded ev source'.

(** The options of the [evaluate] method; an absent option is
    [JUndefined] ([None] for the lexicals) and takes its default. *)
Record EvaluateOptions := {
  opt_transforms : list Transform;
  opt_sloppyGlobalsMode : JsVal;
  opt_moduleShimLexicals : option Lexicals;
  opt_evadeHtmlCommentTest : JsVal;
  opt_evadeImportExpressionTest : JsVal;
  opt_rejectSomeDirectEvalExpressions : JsVal
}.

(** [option === true], for an option whose default is [byDefault]. *)
Definition isTrue (byDefault : bool) (option : JsVal) : bool :=
  match option with
  | JUndefined => byDefault
  | JBool true => true
  | _ => false
  end.

(** [localTransforms], after the three [push]. *)
Definition localTransformsOf (o : EvaluateOptions) : list Transform :=
  opt_transforms o
  ++ (if isTrue false (opt_evadeHtmlCommentTest o) then [evadeHtmlCommentTest] else [])
  ++ (if isTrue false (opt_evadeImportExpressionTest o)
      then [evadeImportExpressionTest] else [])
  ++ (if isTrue true (opt_rejectSomeDirectEvalExpressions o)
      then [rejectSomeDirectEvalExpressions] else []).

Definition mustBeString : JsVal :=
  JErr TypeError "first argument of evaluate() must be a string".

(** What the engine throws for destructuring [undefined]. *)
Definition notACompartment : JsVal :=
  JErr TypeError "Cannot destructure property 'evaluate' of 'compartmentFields' as it is undefined.".

(** [evaluate(source, options = {})] of [CompartmentPrototype]. *)
Definition evaluateMethod (this : nat) (source : JsVal) (o : EvaluateOptions)
  : SM State JsVal :=
  if negb (String.eqb (typeof source) "string") then throw mustBeString
  else
    let source := Instance.stringOf source in
    let localTransforms := localTransformsOf o in
    let sloppy := truthy (opt_sloppyGlobalsMode o) in
    fun st =>
      match privateFields st !! this with
      | None => (Throw notACompartment, st)
      | Some compartmentFields =>
          match opt_moduleShimLexicals o with
          | None =>
              if negb sloppy
              then callEvaluator (evaluate compartmentFields) source localTransforms st
              else
                (ev <- makeEvaluate
                         {| localObject := globalLexicals compartmentFields;
                            sloppyGlobalsMode := sloppy |}
                         (Some (globalTransforms compartmentFields)) ;;
                 callEvaluator ev source localTransforms) st
          | Some moduleShimLexicals =>
              match withModuleLexicals (globalLexicals compartmentFields)
                      moduleShimLexicals with
              | Normal localObject =>
                  (ev <- makeEvaluate
                           {| localObject := localObject;
                              sloppyGlobalsMode := sloppy |}
                           None ;;
                   callEvaluator ev source localTransforms) st
              | Throw e => (Throw e, st)
              | Abort f => (Abort f, st)
              end
          end
      end.

(** The part of the Compartment constructor that sets evaluation up:
    [globalTransforms = [...transforms, ...__shimTransforms__]], the shared
    evaluator, and the private fields. *)
Definition setupEvaluation (this : nat) (transforms shimTransforms : list Transform)
    (lexicals : Lexicals) : SM State unit :=
  let globalTransforms := transforms ++ shimTransforms in
  ev <- makeEvaluate {| localObject := lexicals; sloppyGlobalsMode := false |}
          (Some globalTransforms) ;;
  fun st =>
    (Normal tt,
     {| handlers := handlers st;
        privateFields :=
          <[this := {| globalTransforms := globalTransforms;
                       globalLexicals := lexicals;
                       evaluate := ev |}]> (privateFields st);
        world := world st |}).

(** The call by which [makeModuleInstance] makes the functor of a module:
    [compartment.evaluate(functorSource, { globalObject, transforms:
    __shimTransforms__, __moduleShimLexicals__: localLexicals })]. *)
Definition evaluateFunctor (compartment : nat) (functorSource : string)
    (shimTransforms : list Transform) (localLexicals : Lexicals)
  : SM State JsVal :=
  evaluateMethod compartment (JStr functorSource)
    {| opt_transforms := shimTransforms;
       opt_sloppyGlobalsMode := JUndefined;
       opt_moduleShimLexicals := Some localLexicals;
       opt_evadeHtmlCommentTest := JUndefined;
       opt_evadeImportExpressionTest := JUndefined;
       opt_rejectSomeDirectEvalExpressions := JUndefined |}.

(** After a call, the unsafe evaluator is out of reach through the handler
    [h]: its flag is off, or its scope proxy is revoked. *)
Definition unsafeOutOfReach (h : nat) (st : State) : Prop :=
  forall handler, handlers st !! h = Some handler ->
    useUnsafeEvaluator handler = false \/ revoked handler = true.

End Evaluator.

Arguments handlers {Transform Lexicals W} _.
Arguments privateFields {Transform Lexicals W} _.
Arguments world {Transform Lexicals W} _.
Arguments ev_handler {Transform Lexicals} _.
Arguments ev_scope {Transform Lexicals} _.
Arguments ev_globalTransforms {Transform Lexicals} _.
Arguments localObject {Lexicals} _.
Arguments sloppyGlobalsMode {Lexicals} _.

End Evaluate.

(** ** Example programs *)

Module Scenario.

Import Binding Instance.

(** *** Bindings

    A module with [export const x], [export let y] and [export let z]:
    two importers subscribe to [x] and one to [y] before the module body
    runs, and the body so far has assigned [z = 1]. *)
Definition bindingOps : list Op :=
  [ OpNewFixed "x"; OpNewLive "y" "y"; OpNewLive "z" "z";
    OpNotifyFixed 0 (UAssign (ImportVar 1));
    OpNotifyFixed 0 (UAssign (ImportVar 2));
    OpNotifyLive 1 (UAssign (ImportVar 3));
    OpUpdate 2 (JNum 1) ].

Definition bindings : Store := Eval vm_compute in runOps 2 bindingOps emptyStore.

Definition xBinding : FixedBinding :=
  {| f_localName := "x"; f_value := JUndefined; f_tdz := true;
     f_optUpdaters := Some [UAssign (ImportVar 1); UAssign (ImportVar 2)] |}.

Definition yBinding : LiveBinding :=
  {| l_exportName := "y"; l_localName := "y"; l_value := JUndefined;
     l_tdz := true; l_updaters := [UAssign (ImportVar 3)] |}.

Definition zBinding : LiveBinding :=
  {| l_exportName := "z"; l_localName := "z"; l_value := JNum 1;
     l_tdz := false; l_updaters := [] |}.

(** A module with [export let x] that also re-exports [x] from itself, so
    that [imports] passes the [update] of [x] to the [notify] of [x]; an
    importer subscribes as well. *)
Definition selfReexportOps : list Op :=
  [ OpNewLive "x" "x";
    OpNotifyLive 0 (UUpdate 0);
    OpNotifyLive 0 (UAssign (ImportVar 1)) ].

(** *** Module instances

    The world holds no other closure state; the store has the bindings of
    the exports of two third-party modules, [x] and [y] of ./a.js and
    [x] and [default] of ./b.js. *)
Definition world0 : World unit :=
  {| store := runOps 1 [OpNewPlain (JNum 10); OpNewPlain (JNum 11);
                        OpNewPlain (JNum 20); OpNewPlain (JNum 21)] emptyStore;
     others := tt |}.

Definition instanceA : ModuleInstance unit :=
  {| mi_notifiers := fun _ => [("x", NotifyPlain 0); ("y", NotifyPlain 1)];
     mi_exportsProxy := 100;
     mi_execute := ret tt |}.

Definition instanceB : ModuleInstance unit :=
  {| mi_notifiers := fun _ => [("x", NotifyPlain 2); ("default", NotifyPlain 3)];
     mi_exportsProxy := 101;
     mi_execute := ret tt |}.

(** ./b.js again, with a module body that throws. *)
Definition boom : JsVal := JErr Error "boom".

Definition instanceBThrowing : ModuleInstance unit :=
  {| mi_notifiers := mi_notifiers instanceB;
     mi_exportsProxy := 101;
     mi_execute := throw boom |}.

Definition linked (b : ModuleInstance unit) (specifier : string)
  : option (ModuleInstance unit) :=
  if String.eqb specifier "./a.js" then Some instanceA
  else if String.eqb specifier "./b.js" then Some b
  else None.

Definition mainDeferred : DeferredExports :=
  {| exportsProxy := 102; proxiedExports := 103 |}.

(** [export * from './a.js'; export * from './b.js';] *)
Definition starRecord : StaticModuleRecord :=
  {| reexports := ["./a.js"; "./b.js"]; fixedExportMap := []; liveExportMap := [] |}.

Definition starFunctor : Functor unit :=
  {| updateRecord := [("./a.js", []); ("./b.js", [])]; body := ret tt |}.

(** [import { missing } from './b.js';] *)
Definition importingRecord : StaticModuleRecord :=
  {| reexports := []; fixedExportMap := []; liveExportMap := [] |}.

Definition importingFunctor : Functor unit :=
  {| updateRecord := [("./b.js", [("missing", [UAssign (ImportVar 0)])])];
     body := ret tt |}.

Definition starInstance : InstanceState unit :=
  fst (makeModuleInstance mainDeferred starRecord starFunctor (store world0)).

Definition importingInstance : InstanceState unit :=
  fst (makeModuleInstance mainDeferred importingRecord importingFunctor
         (store world0)).

(** [export const entity = 42;] in ./leaf.js, and
    [import { entity } from './leaf.js';] in ./main.js. *)
Definition leafDeferred : DeferredExports :=
  {| exportsProxy := 200; proxiedExports := 201 |}.

Definition leafRecord : StaticModuleRecord :=
  {| reexports := []; fixedExportMap := [("entity", "entity")];
     liveExportMap := [] |}.

Definition leafFunctor : Functor unit :=
  {| updateRecord := [];
     body := onStore (init 1 0 (JNum 42) ;;; ret tt) |}.

Definition noInstances {X : Type} (specifier : string)
  : option (ModuleInstance X) := None.

Definition leafInstance : InstanceState unit :=
  fst (makeModuleInstance leafDeferred leafRecord leafFunctor emptyStore).

Definition leafWorld : World (InstanceState unit * unit) :=
  {| store := snd (makeModuleInstance leafDeferred leafRecord leafFunctor emptyStore);
     others := (leafInstance, tt) |}.

Definition mainLinked (specifier : string)
  : option (ModuleInstance (InstanceState unit * unit)) :=
  if String.eqb specifier "./leaf.js"
  then Some (asModuleInstance leafDeferred leafRecord noInstances 1)
  else None.

Definition mainFunctor : Functor (InstanceState unit * unit) :=
  {| updateRecord := [("./leaf.js", [("entity", [UAssign (ImportVar 0)])])];
     body := ret tt |}.

Definition mainInstance : InstanceState (InstanceState unit * unit) :=
  fst (makeModuleInstance mainDeferred importingRecord mainFunctor (store leafWorld)).

(** A third-party record whose [execute] throws, and the instance made of
    it. *)
Definition throwingRecord : ThirdPartyRecord unit :=
  {| tp_exports := JArray [JStr "value"]; tp_execute := throw boom |}.

Definition freshThirdParty : ThirdPartyState :=
  {| tp_notifiers := []; tp_properties := []; tp_active := false;
     activated := false; executeCalls := 0 |}.

Definition throwingInstance : ThirdPartyState :=
  match makeThirdPartyModuleInstance "./native.js" throwingRecord emptyStore with
  | (Normal st, _) => st
  | _ => freshThirdParty
  end.

Definition recordWithExports (exports : JsVal) : ThirdPartyRecord unit :=
  {| tp_exports := exports; tp_execute := ret tt |}.

(** *** Compartments

    A realm in which the object 5 is the exports namespace of ./mod.js in
    compartment 0, and compartment 1 has both hooks. *)
Definition someOptions (lexicals : list (string * JsVal)) : Compartment.Options :=
  {| Compartment.opt_name := "<unknown>";
     Compartment.opt_globalLexicals := lexicals;
     Compartment.opt_resolveHook := JFunction 1;
     Compartment.opt_importHook := JFunction 2;
     Compartment.opt_moduleMapHook := JUndefined |}.

Definition realm0 : Compartment.Realm :=
  {| Compartment.moduleAliases := {[ 5 := (0, "./mod.js") ]};
     Compartment.privateFields :=
       {[ 1 := Compartment.fieldsOf [] (someOptions []) ]} |}.

Definition rootInstance : Compartment.Linked unit :=
  {| Compartment.execute := ret tt; Compartment.exportsProxy := 5 |}.

End Scenario.

(** ** More example programs *)

Module Scenario2.

Import Binding Instance InstanceNotions Scenario.

(** *** Bindings *)

(** The module of [bindings], once its body has run [export const x = 7]. *)
Definition initializedOps : list Op := bindingOps ++ [OpInit 0 (JNum 7)].

Definition initialized : Store := Eval vm_compute in runOps 2 initializedOps emptyStore.

Definition xInitialized : FixedBinding :=
  {| f_localName := "x"; f_value := JNum 7; f_tdz := false; f_optUpdaters := None |}.

(** The binding of a third-party export, to which two importers have
    subscribed. *)
Definition subscribedOps : list Op :=
  [ OpNewPlain JUndefined;
    OpNotifyPlain 0 (UAssign (ImportVar 1));
    OpNotifyPlain 0 (UAssign (ImportVar 2)) ].

Definition subscribed : Store := Eval vm_compute in runOps 1 subscribedOps emptyStore.

Definition subscribedBinding : PlainBinding :=
  {| p_value := JUndefined;
     p_updaters := [UAssign (ImportVar 1); UAssign (ImportVar 2)] |}.

(** [export let x] in ./source.js (binding 0); [export { x } from
    './source.js'] in ./middle.js (binding 1), between two importers of
    ./source.js; and an importer of ./middle.js. *)
Definition reexportOps : list Op :=
  [ OpNewLive "x" "x"; OpNewLive "x" "x";
    OpNotifyLive 0 (UAssign (ImportVar 1));
    OpNotifyLive 0 (UUpdate 1);
    OpNotifyLive 0 (UAssign (ImportVar 2));
    OpNotifyLive 1 (UAssign (ImportVar 3)) ].

Definition reexported : Store := Eval vm_compute in runOps 2 reexportOps emptyStore.

Definition sourceBinding : LiveBinding :=
  {| l_exportName := "x"; l_localName := "x"; l_value := JUndefined; l_tdz := true;
     l_updaters := [UAssign (ImportVar 1); UUpdate 1; UAssign (ImportVar 2)] |}.

Definition middleBinding : LiveBinding :=
  {| l_exportName := "x"; l_localName := "x"; l_value := JUndefined; l_tdz := true;
     l_updaters := [UAssign (ImportVar 3)] |}.

(** *** Module instances *)

(** [const x = 1; export { x as a, x as b }; export let y;] *)
Definition aliasRecord : StaticModuleRecord :=
  {| reexports := [];
     fixedExportMap := [("a", "x"); ("b", "x")];
     liveExportMap := [("y", ("y", true))] |}.

Definition idleFunctor : Functor unit := {| updateRecord := []; body := ret tt |}.

(** [export const x = 0; export * from './a.js';], where ./a.js exports
    [x] and [y]. *)
Definition shadowRecord : StaticModuleRecord :=
  {| reexports := ["./a.js"]; fixedExportMap := [("x", "x")]; liveExportMap := [] |}.

Definition shadowFunctor : Functor unit :=
  {| updateRecord := [("./a.js", [])]; body := ret tt |}.

Definition shadowInstance : InstanceState unit :=
  fst (makeModuleInstance mainDeferred shadowRecord shadowFunctor (store world0)).

Definition shadowWorld : World unit :=
  {| store := snd (makeModuleInstance mainDeferred shadowRecord shadowFunctor
                     (store world0));
     others := tt |}.

(** *** An import cycle with [export *]

    [import './mid.js'; export * from './a.js';] in ./top.js and
    [export * from './top.js'; export * from './b.js';] in ./mid.js, where
    ./a.js exports [x] and [y] and ./b.js exports [x] and [default]. *)
Definition topDeferred : DeferredExports :=
  {| exportsProxy := 300; proxiedExports := 301 |}.

Definition midDeferred : DeferredExports :=
  {| exportsProxy := 310; proxiedExports := 311 |}.

Definition topRecord : StaticModuleRecord :=
  {| reexports := ["./a.js"]; fixedExportMap := []; liveExportMap := [] |}.

Definition midRecord : StaticModuleRecord :=
  {| reexports := ["./top.js"; "./b.js"]; fixedExportMap := []; liveExportMap := [] |}.

Definition topFunctor {X : Type} : Functor X :=
  {| updateRecord := [("./mid.js", []); ("./a.js", [])]; body := ret tt |}.

Definition midFunctor {X : Type} : Functor X :=
  {| updateRecord := [("./top.js", []); ("./b.js", [])]; body := ret tt |}.

Definition topMade {X : Type} : InstanceState X :=
  fst (makeModuleInstance topDeferred topRecord topFunctor (store world0)).

Definition midMade {X : Type} : InstanceState X :=
  fst (makeModuleInstance midDeferred midRecord midFunctor (store world0)).

(** The graph as linked when ./top.js is executed first: ./mid.js is
    executed by the [imports] of ./top.js and reaches ./top.js again. *)
Definition midLinkedUnderTop (specifier : string) : option (ModuleInstance unit) :=
  if String.eqb specifier "./top.js"
  then Some (reentered topDeferred topRecord
               (@topMade (InstanceState unit * unit)))
  else if String.eqb specifier "./b.js" then Some instanceB
  else None.

Definition topLinked (specifier : string)
  : option (ModuleInstance (InstanceState unit * unit)) :=
  if String.eqb specifier "./mid.js"
  then Some (asModuleInstance midDeferred midRecord midLinkedUnderTop 1)
  else if String.eqb specifier "./a.js" then Some (lift instanceA)
  else None.

Definition topFirstWorld : World (InstanceState unit * unit) :=
  {| store := store world0; others := (midMade, tt) |}.

(** The same graph as linked when ./mid.js is executed first. *)
Definition topLinkedUnderMid (specifier : string) : option (ModuleInstance unit) :=
  if String.eqb specifier "./mid.js"
  then Some (reentered midDeferred midRecord
               (@midMade (InstanceState unit * unit)))
  else if String.eqb specifier "./a.js" then Some instanceA
  else None.

Definition midLinked (specifier : string)
  : option (ModuleInstance (InstanceState unit * unit)) :=
  if String.eqb specifier "./top.js"
  then Some (asModuleInstance topDeferred topRecord topLinkedUnderMid 1)
  else if String.eqb specifier "./b.js" then Some (lift instanceB)
  else None.

Definition midFirstWorld : World (InstanceState unit * unit) :=
  {| store := store world0; others := (topMade, tt) |}.

(** A third-party record with two exports. *)
Definition pairRecord : ThirdPartyRecord unit :=
  {| tp_exports := JArray [JStr "a"; JStr "b"]; tp_execute := ret tt |}.

(** *** Compartments *)

(** [link] fails for every specifier. *)
Definition noSuchModule : JsVal := JErr Error "Cannot find module".

Definition failingLink (compartment : nat) (specifier : string)
  : SM (Compartment.Realm * unit) (Compartment.Linked unit) :=
  throw noSuchModule.

(** *** A graph of packages

    The application depends on two packages, which both export [shared];
    the second also exports [b]. *)
Definition appNode : NodeModules.Node :=
  {| NodeModules.label := "app@1.0.0";
     NodeModules.dependencies := ["file:///app/node_modules/a/";
                                  "file:///app/node_modules/b/"];
     NodeModules.exports := [("app", "./main.js")];
     NodeModules.parsers := NodeModules.moduleParsers;
     NodeModules.types := [] |}.

Definition aNode : NodeModules.Node :=
  {| NodeModules.label := "a@1.0.0";
     NodeModules.dependencies := [];
     NodeModules.exports := [("shared", "./a.js")];
     NodeModules.parsers := NodeModules.commonParsers;
     NodeModules.types := [] |}.

Definition bNode : NodeModules.Node :=
  {| NodeModules.label := "b@2.0.0";
     NodeModules.dependencies := [];
     NodeModules.exports := [("shared", "./shared.js"); ("b", "./b.js")];
     NodeModules.parsers := NodeModules.commonParsers;
     NodeModules.types := [] |}.

Definition appGraph : NodeModules.Graph :=
  [ ("file:///app/", appNode);
    ("file:///app/node_modules/a/", aNode);
    ("file:///app/node_modules/b/", bNode) ].

(** The same application, in a graph that lacks the second package. *)
Definition brokenGraph : NodeModules.Graph :=
  [ ("file:///app/", appNode); ("file:///app/node_modules/a/", aNode) ].

(** A package that exports a module under the name [__proto__], and an
    application that depends on it. *)
Definition protoNode : NodeModules.Node :=
  {| NodeModules.label := "p@1.0.0";
     NodeModules.dependencies := [];
     NodeModules.exports := [("__proto__", "./proto.js"); ("p", "./p.js")];
     NodeModules.parsers := NodeModules.commonParsers;
     NodeModules.types := [] |}.

Definition protoAppNode : NodeModules.Node :=
  {| NodeModules.label := "app@1.0.0";
     NodeModules.dependencies := ["file:///app/node_modules/p/"];
     NodeModules.exports := [("app", "./main.js")];
     NodeModules.parsers := NodeModules.moduleParsers;
     NodeModules.types := [] |}.

Definition protoGraph : NodeModules.Graph :=
  [ ("file:///app/", protoAppNode);
    ("file:///app/node_modules/p/", protoNode) ].

(** *** Evaluation

    Transforms are numbered, 0 being the mandatory ones and 3
    [rejectSomeDirectEvalExpressions]; they leave the source as it is, and
    the world is the record of the lists of transforms applied.  One
    evaluator resets [useUnsafeEvaluator] as it should and returns 1, the
    other one does not touch it. *)
Definition EvalState := Evaluate.State nat unit (list (list nat)).

Definition keepSource (source : string) (transforms : list nat)
  : SM EvalState string :=
  fun st =>
    (Normal source,
     {| Evaluate.handlers := Evaluate.handlers st;
        Evaluate.privateFields := Evaluate.privateFields st;
        Evaluate.world := Evaluate.world st ++ [transforms] |}).

Definition resetUnsafe (h : nat) (st : EvalState) : EvalState :=
  {| Evaluate.handlers :=
       <[h := {| Evaluate.useUnsafeEvaluator := false;
                 Evaluate.revoked := false |}]> (Evaluate.handlers st);
     Evaluate.privateFields := Evaluate.privateFields st;
     Evaluate.world := Evaluate.world st |}.

Definition goodEvaluator (h : nat) (scope : Evaluate.Scope unit) (source : string)
  : SM EvalState JsVal :=
  fun st => (Normal (JNum 1), resetUnsafe h st).

Definition badEvaluator (h : nat) (scope : Evaluate.Scope unit) (source : string)
  : SM EvalState JsVal :=
  ret (JNum 1).

Definition confused (err : option JsVal) : JsVal :=
  JErr Error "handler did not revoke useUnsafeEvaluator".

Definition noLexicals (globalLexicals moduleLexicals : unit) : Completion unit :=
  Normal tt.

Definition evalState0 : EvalState :=
  {| Evaluate.handlers := []; Evaluate.privateFields := ∅; Evaluate.world := [] |}.

Definition evalState1 : EvalState :=
  snd (Evaluate.setupEvaluation nat unit (list (list nat)) 1 [10] [20] tt evalState0).

Definition defaultOptions : Evaluate.EvaluateOptions nat unit :=
  {| Evaluate.opt_transforms := [];
     Evaluate.opt_sloppyGlobalsMode := JUndefined;
     Evaluate.opt_moduleShimLexicals := None;
     Evaluate.opt_evadeHtmlCommentTest := JUndefined;
     Evaluate.opt_evadeImportExpressionTest := JUndefined;
     Evaluate.opt_rejectSomeDirectEvalExpressions := JUndefined |}.

Definition sharedEvaluator : Evaluate.Evaluator nat unit :=
  {| Evaluate.ev_handler := 0;
     Evaluate.ev_scope := {| Evaluate.localObject := tt;
                             Evaluate.sloppyGlobalsMode := false |};
     Evaluate.ev_globalTransforms := [10; 20] |}.

End Scenario2.

(** * Properties of tables *)

Section ObjFacts.

Context {V : Type}.

Lemma obj_get_set_eq (k : string) (v : V) o : obj_get k (obj_set k v o) = Some v.
Proof.
  induction o as [|[k' v'] o IH]; simpl.
  - now rewrite String.eqb_refl.
  - destruct (String.eqb_spec k k') as [->|Hne]; simpl.
    + now rewrite String.eqb_refl.
    + destruct (String.eqb_spec k k'); [contradiction | exact IH].
Qed.

Lemma obj_get_set_ne (k k' : string) (v : V) o :
  k <> k' -> obj_get k (obj_set k' v o) = obj_get k o.
Proof.
  intros Hne. induction o as [|[k0 v0] o IH]; simpl.
  - destruct (String.eqb_spec k k'); [contradiction | reflexivity].
  - destruct (String.eqb_spec k' k0) as [->|Hne0]; simpl.
    + destruct (String.eqb_spec k k0); [contradiction | reflexivity].
    + destruct (String.eqb_spec k k0); [reflexivity | exact IH].
Qed.

Lemma obj_get_app_ne (k k' : string) (v : V) o :
  k <> k' -> obj_get k (o ++ [(k', v)]) = obj_get k o.
Proof.
  intros Hne. induction o as [|[k0 v0] o IH]; simpl.
  - destruct (String.eqb_spec k k'); [contradiction | reflexivity].
  - destruct (String.eqb_spec k k0); [reflexivity | exact IH].
Qed.

Lemma obj_get_None_keys (k : string) (o : list (string * V)) :
  obj_get k o = None <-> ~ In k (obj_keys o).
Proof.
  induction o as [|[k0 v0] o IH]; simpl; [tauto|].
  destruct (String.eqb_spec k k0) as [->|Hne].
  - split; [discriminate | intros H; exfalso; apply H; now left].
  - rewrite IH. split; [intros H [Heq|Hin]; [congruence | tauto] | tauto].
Qed.

Lemma obj_keys_set (k : string) (v : V) o :
  obj_keys (obj_set k v o) =
    if obj_has k o then obj_keys o else obj_keys o ++ [k].
Proof.
  unfold obj_has. induction o as [|[k0 v0] o IH]; simpl; [reflexivity|].
  destruct (String.eqb_spec k k0) as [->|Hne]; simpl; [reflexivity|].
  rewrite IH. now destruct (obj_get k o).
Qed.

Lemma obj_set_NoDup (k : string) (v : V) o :
  NoDup (obj_keys o) -> NoDup (obj_keys (obj_set k v o)).
Proof.
  intros H. rewrite obj_keys_set. unfold obj_has.
  destruct (obj_get k o) eqn:E; [assumption|].
  apply obj_get_None_keys in E.
  apply NoDup_ListNoDup. apply List.NoDup_app; repeat split.
  - now apply NoDup_ListNoDup.
  - constructor; [intros [] | constructor].
  - intros x Hx [<-|[]]. contradiction.
Qed.

Lemma obj_get_In (k : string) (v : V) o :
  NoDup (obj_keys o) -> In (k, v) o -> obj_get k o = Some v.
Proof.
  induction o as [|[k0 v0] o IH]; simpl; [tauto|].
  intros Hnd [Heq|Hin].
  - inversion Heq; subst. now rewrite String.eqb_refl.
  - apply NoDup_cons in Hnd as [Hnot Hnd].
    destruct (String.eqb_spec k k0) as [->|Hne]; [|now apply IH].
    exfalso. apply Hnot. apply list_elem_of_In.
    change k0 with (fst (k0, v)). now apply in_map.
Qed.

End ObjFacts.

(** * Properties of binding records *)

Section BindingFacts.

Import Binding.

(** *** How a store evolves while updaters run *)

Lemma written_trans v c1 c2 c3 :
  written v c1 c2 -> written v c2 c3 -> written v c1 c3.
Proof.
  intros H12 H23.
  destruct H12 as [c|b Hb|b]; [exact H23| |].
  - inversion H23; subst; simpl in *; try discriminate.
    now apply written_fixed.
  - inversion H23; subst; simpl; apply written_live.
Qed.

Lemma evolves_refl v s : evolves v s s.
Proof.
  split; [exists []; now rewrite app_nil_r | reflexivity |].
  intros r c H. exists c. split; [assumption | constructor].
Qed.

Lemma evolves_trans v s1 s2 s3 :
  evolves v s1 s2 -> evolves v s2 s3 -> evolves v s1 s3.
Proof.
  intros [[e1 C1] L1 X1] [[e2 C2] L2 X2]. split.
  - exists (e1 ++ e2). now rewrite C2, C1, app_assoc.
  - congruence.
  - intros r c Hc. destruct (X1 r c Hc) as [c' [Hc' W1]].
    destruct (X2 r c' Hc') as [c'' [Hc'' W2]].
    exists c''. split; [assumption | eapply written_trans; eassumption].
Qed.

Lemma evolves_logCall v u w s : evolves v s (logCall u w s).
Proof.
  split; simpl; [eexists; reflexivity | reflexivity |].
  intros r c H. exists c. split; [assumption | constructor].
Qed.

Lemma evolves_setCell v r c c' s :
  cells s !! r = Some c -> written v c c' -> evolves v s (setCell r c' s).
Proof.
  intros Hr Hw. split; simpl.
  - exists []. now rewrite app_nil_r.
  - apply length_insert.
  - intros r0 c0 H0. destruct (decide (r = r0)) as [->|Hne].
    + rewrite list_lookup_insert_eq by (eapply lookup_lt_Some; eassumption).
      assert (c0 = c) by congruence. subst c0.
      exists c'. split; [reflexivity | assumption].
    + rewrite list_lookup_insert_ne by assumption.
      exists c0. split; [assumption | constructor].
Qed.

Lemma forUpdaters_evolves call us v s res s' :
  callEvolves call ->
  forUpdaters call us v s = (res, s') -> evolves v s s'.
Proof.
  intros Hcall. revert s. induction us as [|u us IH]; intros s H; simpl in H.
  - inversion H; subst. apply evolves_refl.
  - unfold bind in H. destruct (call u v s) as [[[]|e|f] s1] eqn:E.
    + eapply evolves_trans; [eapply Hcall; eassumption | eapply IH; eassumption].
    + inversion H; subst. eapply Hcall; eassumption.
    + inversion H; subst. eapply Hcall; eassumption.
Qed.

Lemma fixed_init_evolves call r v s res s' :
  callEvolves call ->
  fixed_init call r v s = (res, s') -> evolves v s s'.
Proof.
  intros Hcall H. unfold fixed_init in H.
  destruct (cells s !! r) as [[b| |]|] eqn:Hr;
    try (inversion H; subst; apply evolves_refl).
  destruct (f_tdz b) eqn:Htdz; simpl in H;
    [|inversion H; subst; apply evolves_refl].
  assert (Hset : evolves v s
            (setCell r (Fixed {| f_localName := f_localName b; f_value := v;
                                 f_tdz := false; f_optUpdaters := None |}) s)).
  { eapply evolves_setCell; [eassumption | now apply written_fixed]. }
  destruct (f_optUpdaters b) as [us|].
  - unfold bind in H.
    destruct (forUpdaters call us v _) as [[[]|e|f] s1] eqn:E;
      inversion H; subst;
      (eapply evolves_trans; [exact Hset | eapply forUpdaters_evolves; eassumption]).
  - inversion H; subst. exact Hset.
Qed.

Lemma live_update_evolves call r v s res s' :
  callEvolves call ->
  live_update call r v s = (res, s') -> evolves v s s'.
Proof.
  intros Hcall H. unfold live_update in H.
  destruct (cells s !! r) as [[|b|]|] eqn:Hr;
    try (inversion H; subst; apply evolves_refl).
  eapply evolves_trans; [|eapply forUpdaters_evolves; eassumption].
  eapply evolves_setCell; [eassumption | apply written_live].
Qed.

Lemma callUpdater_evolves fuel : callEvolves (callUpdater fuel).
Proof.
  induction fuel as [|n IH]; intros u v s res s' H; simpl in H.
  - inversion H; subst. apply evolves_refl.
  - eapply evolves_trans; [apply (evolves_logCall v u v s)|].
    destruct u as [k|r|r].
    + inversion H; subst. apply evolves_refl.
    + unfold bind in H.
      destruct (fixed_init (callUpdater n) r v (logCall (UInit r) v s))
        as [[a|e|f] s1] eqn:E; inversion H; subst;
        eapply fixed_init_evolves; eassumption.
    + eapply live_update_evolves; eassumption.
Qed.

(** Naming the outcome of the fan-out or updater call that the goal is
    about, with the fact that the store evolved under it. *)
Ltac name_outcome :=
  match goal with
  | |- context [snd (forUpdaters (callUpdater ?f) ?us ?v ?s1)] =>
      let res := fresh "res" in
      let s' := fresh "s'" in
      let E := fresh "E" in
      destruct (forUpdaters (callUpdater f) us v s1) as [res s'] eqn:E;
      apply (forUpdaters_evolves _ _ _ _ _ _ (callUpdater_evolves f)) in E;
      simpl
  | |- context [snd (callUpdater ?f ?u ?v ?s1)] =>
      let res := fresh "res" in
      let s' := fresh "s'" in
      let E := fresh "E" in
      destruct (callUpdater f u v s1) as [res s'] eqn:E;
      apply callUpdater_evolves in E;
      simpl
  | |- context [snd (init ?f ?r ?v ?s1)] =>
      let res := fresh "res" in
      let s' := fresh "s'" in
      let E := fresh "E" in
      destruct (init f r v s1) as [res s'] eqn:E;
      apply (fixed_init_evolves _ _ _ _ _ _ (callUpdater_evolves f)) in E;
      simpl
  | |- context [snd (update ?f ?r ?v ?s1)] =>
      let res := fresh "res" in
      let s' := fresh "s'" in
      let E := fresh "E" in
      destruct (update f r v s1) as [res s'] eqn:E;
      apply (live_update_evolves _ _ _ _ _ _ (callUpdater_evolves f)) in E;
      simpl
  end.

(** *** Which updaters a fan-out calls, and in which order *)

Lemma callUpdater_normal_calls fuel u v s s' :
  callUpdater fuel u v s = (Normal tt, s') ->
  exists rest, calls s' = calls s ++ (u, v) :: rest.
Proof.
  destruct fuel as [|n]; simpl; intros H; [discriminate|].
  assert (E : evolves v (logCall u v s) s').
  { destruct u as [k|r|r].
    - inversion H; subst. apply evolves_refl.
    - unfold bind in H.
      destruct (fixed_init (callUpdater n) r v (logCall (UInit r) v s))
        as [[a|e|f] s1] eqn:E; inversion H; subst.
      eapply fixed_init_evolves; [apply callUpdater_evolves | eassumption].
    - eapply live_update_evolves; [apply callUpdater_evolves | eassumption]. }
  destruct (ev_calls _ _ _ E) as [rest Hrest]. exists rest.
  rewrite Hrest. simpl. now rewrite <- app_assoc.
Qed.

Lemma forUpdaters_invokedInOrder fuel us v s s' :
  forUpdaters (callUpdater fuel) us v s = (Normal tt, s') ->
  exists evs, calls s' = calls s ++ evs /\ invokedInOrder us v evs.
Proof.
  revert s. induction us as [|u us IH]; intros s H; simpl in H.
  - inversion H; subst. exists []. split; [now rewrite app_nil_r|].
    exists []. split; [reflexivity | constructor].
  - unfold bind in H.
    destruct (callUpdater fuel u v s) as [[[]|e|f] s1] eqn:E; try discriminate.
    destruct (callUpdater_normal_calls _ _ _ _ _ E) as [rest Hrest].
    destruct (IH _ H) as [evs [Hevs [chunks [Hc HF]]]].
    exists (((u, v) :: rest) ++ evs). split.
    + rewrite Hevs, Hrest. now rewrite <- app_assoc.
    + exists (((u, v) :: rest) :: chunks). split.
      * simpl. now rewrite Hc.
      * constructor; [now exists rest | assumption].
Qed.

(** Updaters that only assign return, whatever the store. *)
Lemma forUpdaters_assign fuel us v s :
  forallb isAssign us = true -> 0 < fuel ->
  forUpdaters (callUpdater fuel) us v s =
    (Normal tt, {| cells := cells s;
                   calls := calls s ++ map (fun u => (u, v)) us |}).
Proof.
  intros Hus Hfuel. destruct fuel as [|n]; [lia|]. clear Hfuel.
  revert s. induction us as [|u us IH]; intros s; simpl.
  - rewrite app_nil_r. now destruct s.
  - simpl in Hus. apply andb_true_iff in Hus as [Hu Hus].
    destruct u as [k|r|r]; try discriminate.
    unfold bind. cbn [callUpdater]. rewrite (IH Hus). simpl.
    now rewrite <- app_assoc.
Qed.

(** The cell of a binding after a fan-out that started once the binding had
    its value: the fan-out cannot change it any more. *)
Lemma evolves_fixed_initialized v s s' r b :
  evolves v s s' -> cells s !! r = Some (Fixed b) -> f_tdz b = false ->
  cells s' !! r = Some (Fixed b).
Proof.
  intros E Hr Ht. destruct (ev_cells _ _ _ E r _ Hr) as [c' [Hc' Hw]].
  inversion Hw; subst; [assumption | congruence].
Qed.

Lemma evolves_live_written v s s' r b :
  evolves v s s' -> cells s !! r = Some (Live b) ->
  l_value b = v -> l_tdz b = false ->
  cells s' !! r = Some (Live b).
Proof.
  intros E Hr Hv Ht. destruct (ev_cells _ _ _ E r _ Hr) as [c' [Hc' Hw]].
  inversion Hw; subst; [assumption|].
  rewrite Hc'. destruct b; simpl in *; congruence.
Qed.

Lemma lookup_setCell_eq r c s c0 :
  cells s !! r = Some c0 -> cells (setCell r c s) !! r = Some c.
Proof.
  intros H. simpl. apply list_lookup_insert_eq. eapply lookup_lt_Some; eassumption.
Qed.

(** *** [init] and [update] leave the tdz and fan out *)

Lemma init_leaves_tdz fuel s r b us v :
  cells s !! r = Some (Fixed b) -> f_tdz b = true -> f_optUpdaters b = Some us ->
  exists res s',
    init fuel r v s = (res, s') /\
    cells s' !! r = Some (Fixed {| f_localName := f_localName b; f_value := v;
                                   f_tdz := false; f_optUpdaters := None |}) /\
    (res = Normal v ->
       exists evs, calls s' = calls s ++ evs /\ invokedInOrder us v evs) /\
    (forallb isAssign us = true -> 0 < fuel ->
       res = Normal v /\ calls s' = calls s ++ map (fun u => (u, v)) us).
Proof.
  intros Hr Ht Hus. unfold init, fixed_init. rewrite Hr, Ht, Hus. simpl.
  set (c1 := Fixed {| f_localName := f_localName b; f_value := v;
                      f_tdz := false; f_optUpdaters := None |}).
  set (s1 := setCell r c1 s).
  assert (H1 : cells s1 !! r = Some c1) by (eapply lookup_setCell_eq; eassumption).
  unfold bind.
  destruct (forUpdaters (callUpdater fuel) us v s1) as [res0 s'] eqn:E.
  assert (Ev : evolves v s1 s')
    by (eapply forUpdaters_evolves; [apply callUpdater_evolves | eassumption]).
  assert (Hcell : cells s' !! r = Some c1)
    by (eapply evolves_fixed_initialized; [exact Ev | exact H1 | reflexivity]).
  destruct res0 as [[]|e|f]; eexists; eexists; (split; [reflexivity|]);
    (split; [exact Hcell|]); split; try discriminate.
  - intros _. apply forUpdaters_invokedInOrder in E. exact E.
  - intros Ha Hf. rewrite (forUpdaters_assign _ _ _ _ Ha Hf) in E.
    inversion E; subst. split; reflexivity.
  - intros Ha Hf. rewrite (forUpdaters_assign _ _ _ _ Ha Hf) in E. discriminate.
  - intros Ha Hf. rewrite (forUpdaters_assign _ _ _ _ Ha Hf) in E. discriminate.
Qed.

Lemma update_leaves_tdz fuel s r b v :
  cells s !! r = Some (Live b) ->
  exists res s',
    update fuel r v s = (res, s') /\
    cells s' !! r = Some (Live {| l_exportName := l_exportName b;
                                  l_localName := l_localName b;
                                  l_value := v; l_tdz := false;
                                  l_updaters := l_updaters b |}) /\
    (res = Normal tt ->
       exists evs, calls s' = calls s ++ evs /\
                   invokedInOrder (l_updaters b) v evs) /\
    (forallb isAssign (l_updaters b) = true -> 0 < fuel ->
       res = Normal tt /\
       calls s' = calls s ++ map (fun u => (u, v)) (l_updaters b)).
Proof.
  intros Hr. unfold update, live_update. rewrite Hr.
  set (c1 := Live {| l_exportName := l_exportName b; l_localName := l_localName b;
                     l_value := v; l_tdz := false; l_updaters := l_updaters b |}).
  set (s1 := setCell r c1 s).
  assert (H1 : cells s1 !! r = Some c1) by (eapply lookup_setCell_eq; eassumption).
  destruct (forUpdaters (callUpdater fuel) (l_updaters b) v s1) as [res s'] eqn:E.
  assert (Ev : evolves v s1 s')
    by (eapply forUpdaters_evolves; [apply callUpdater_evolves | eassumption]).
  assert (Hcell : cells s' !! r = Some c1)
    by (eapply evolves_live_written; [exact Ev | exact H1 | reflexivity | reflexivity]).
  exists res, s'. split; [reflexivity|]. split; [exact Hcell|]. split.
  - intros ->. apply forUpdaters_invokedInOrder in E. exact E.
  - intros Ha Hf. rewrite (forUpdaters_assign _ _ _ _ Ha Hf) in E.
    inversion E; subst. split; reflexivity.
Qed.

Lemma set_fans_out fuel s r b v :
  cells s !! r = Some (Live b) -> l_tdz b = false ->
  exists res s',
    set fuel r v s = (res, s') /\
    cells s' !! r = Some (Live {| l_exportName := l_exportName b;
                                  l_localName := l_localName b;
                                  l_value := v; l_tdz := false;
                                  l_updaters := l_updaters b |}) /\
    (res = Normal tt ->
       exists evs, calls s' = calls s ++ evs /\
                   invokedInOrder (l_updaters b) v evs) /\
    (forallb isAssign (l_updaters b) = true -> 0 < fuel ->
       res = Normal tt /\
       calls s' = calls s ++ map (fun u => (u, v)) (l_updaters b)).
Proof.
  intros Hr Ht. unfold set, live_set. rewrite Hr, Ht.
  set (c1 := Live {| l_exportName := l_exportName b; l_localName := l_localName b;
                     l_value := v; l_tdz := false; l_updaters := l_updaters b |}).
  set (s1 := setCell r c1 s).
  assert (H1 : cells s1 !! r = Some c1) by (eapply lookup_setCell_eq; eassumption).
  destruct (forUpdaters (callUpdater fuel) (l_updaters b) v s1) as [res s'] eqn:E.
  assert (Ev : evolves v s1 s')
    by (eapply forUpdaters_evolves; [apply callUpdater_evolves | eassumption]).
  assert (Hcell : cells s' !! r = Some c1)
    by (eapply evolves_live_written; [exact Ev | exact H1 | reflexivity | reflexivity]).
  exists res, s'. split; [reflexivity|]. split; [exact Hcell|]. split.
  - intros ->. apply forUpdaters_invokedInOrder in E. exact E.
  - intros Ha Hf. rewrite (forUpdaters_assign _ _ _ _ Ha Hf) in E.
    inversion E; subst. split; reflexivity.
Qed.

(** *** Accessors in the temporal dead zone *)

Lemma fixed_get_tdz s r b :
  cells s !! r = Some (Fixed b) -> f_tdz b = true ->
  fixed_get r s = (Throw (notInitialized (f_localName b)), s).
Proof. intros Hr Ht. unfold fixed_get. now rewrite Hr, Ht. Qed.

Lemma live_get_tdz s r b :
  cells s !! r = Some (Live b) -> l_tdz b = true ->
  live_get r s = (Throw (notInitialized (l_exportName b)), s).
Proof. intros Hr Ht. unfold live_get. now rewrite Hr, Ht. Qed.

Lemma live_set_tdz fuel s r b v :
  cells s !! r = Some (Live b) -> l_tdz b = true ->
  set fuel r v s = (Throw (notInitialized (l_localName b)), s).
Proof. intros Hr Ht. unfold set, live_set. now rewrite Hr, Ht. Qed.

(** *** [notify] *)

Lemma callUpdater_calls fuel u v s res s' :
  0 < fuel -> callUpdater fuel u v s = (res, s') ->
  exists rest, calls s' = calls s ++ (u, v) :: rest.
Proof.
  destruct fuel as [|n]; [lia|]. intros _ H. simpl in H.
  assert (E : evolves v (logCall u v s) s').
  { destruct u as [k|r|r].
    - inversion H; subst. apply evolves_refl.
    - unfold bind in H.
      destruct (fixed_init (callUpdater n) r v (logCall (UInit r) v s))
        as [[a|e|f] s1] eqn:E; inversion H; subst;
        (eapply fixed_init_evolves; [apply callUpdater_evolves | eassumption]).
    - eapply live_update_evolves; [apply callUpdater_evolves | eassumption]. }
  destruct (ev_calls _ _ _ E) as [rest Hrest]. exists rest.
  rewrite Hrest. simpl. now rewrite <- app_assoc.
Qed.

(** The guard at the head of both [notify] functions: the binding's own
    [init], respectively [update], is neither queued nor called. *)
Lemma notifyFixed_own_init fuel r s :
  notifyFixed fuel r (UInit r) s = (Normal tt, s).
Proof. unfold notifyFixed, fixed_notify. now rewrite decide_True. Qed.

Lemma notifyLive_own_update fuel r s :
  notifyLive fuel r (UUpdate r) s = (Normal tt, s).
Proof. unfold notifyLive, live_notify. now rewrite decide_True. Qed.

(** A fixed binding in its tdz queues the updater and does not call it. *)
Lemma notifyFixed_tdz fuel s r b us u :
  u <> UInit r ->
  cells s !! r = Some (Fixed b) -> f_tdz b = true -> f_optUpdaters b = Some us ->
  notifyFixed fuel r u s =
    (Normal tt,
     {| cells := <[r := Fixed {| f_localName := f_localName b;
                                 f_value := f_value b; f_tdz := true;
                                 f_optUpdaters := Some (us ++ [u]) |}]> (cells s);
        calls := calls s |}).
Proof.
  intros Hu Hr Ht Hus. unfold notifyFixed, fixed_notify.
  rewrite decide_False by assumption. rewrite Hr, Ht, Hus. reflexivity.
Qed.

(** An initialized fixed binding calls the updater at once, with its value. *)
Lemma notifyFixed_initialized fuel s r b u :
  u <> UInit r ->
  cells s !! r = Some (Fixed b) -> f_tdz b = false ->
  notifyFixed fuel r u s = callUpdater fuel u (f_value b) s /\
  (0 < fuel ->
   exists res s' rest,
     notifyFixed fuel r u s = (res, s') /\
     calls s' = calls s ++ (u, f_value b) :: rest).
Proof.
  intros Hu Hr Ht. unfold notifyFixed, fixed_notify.
  rewrite decide_False by assumption. rewrite Hr, Ht.
  split; [reflexivity|]. intros Hf.
  destruct (callUpdater fuel u (f_value b) s) as [res s'] eqn:E.
  destruct (callUpdater_calls _ _ _ _ _ _ Hf E) as [rest Hrest].
  now exists res, s', rest.
Qed.

(** A live binding always registers the updater, at the end of its list; it
    calls it at once exactly when it has left its tdz. *)
Lemma notifyLive_registers fuel s r b u :
  u <> UUpdate r ->
  cells s !! r = Some (Live b) ->
  exists res s',
    notifyLive fuel r u s = (res, s') /\
    cells s' !! r = Some (Live {| l_exportName := l_exportName b;
                                  l_localName := l_localName b;
                                  l_value := l_value b; l_tdz := l_tdz b;
                                  l_updaters := l_updaters b ++ [u] |}) /\
    (l_tdz b = true -> res = Normal tt /\ calls s' = calls s) /\
    (l_tdz b = false -> 0 < fuel ->
       exists rest, calls s' = calls s ++ (u, l_value b) :: rest).
Proof.
  intros Hu Hr. unfold notifyLive, live_notify.
  rewrite decide_False by assumption. rewrite Hr.
  set (c1 := Live {| l_exportName := l_exportName b; l_localName := l_localName b;
                     l_value := l_value b; l_tdz := l_tdz b;
                     l_updaters := l_updaters b ++ [u] |}).
  set (s1 := setCell r c1 s).
  assert (H1 : cells s1 !! r = Some c1) by (eapply lookup_setCell_eq; eassumption).
  destruct (l_tdz b) eqn:Ht; simpl.
  - exists (Normal tt), s1. repeat split; try assumption; discriminate.
  - destruct (callUpdater fuel u (l_value b) s1) as [res s'] eqn:E.
    exists res, s'. split; [reflexivity|]. split; [|split; [discriminate|]].
    + eapply evolves_live_written;
        [eapply callUpdater_evolves; exact E | exact H1 | reflexivity | reflexivity].
    + intros _ Hf. exact (callUpdater_calls _ _ _ _ _ _ Hf E).
Qed.

(** The binding of a third-party export registers and calls at once. *)
Lemma notifyPlain_registers fuel s r b u :
  cells s !! r = Some (Plain b) ->
  exists res s',
    notifyPlain fuel r u s = (res, s') /\
    cells s' !! r = Some (Plain {| p_value := p_value b;
                                   p_updaters := p_updaters b ++ [u] |}) /\
    (0 < fuel -> exists rest, calls s' = calls s ++ (u, p_value b) :: rest).
Proof.
  intros Hr. unfold notifyPlain, plain_notify. rewrite Hr.
  set (c1 := Plain {| p_value := p_value b; p_updaters := p_updaters b ++ [u] |}).
  set (s1 := setCell r c1 s).
  assert (H1 : cells s1 !! r = Some c1) by (eapply lookup_setCell_eq; eassumption).
  destruct (callUpdater fuel u (p_value b) s1) as [res s'] eqn:E.
  exists res, s'. split; [reflexivity|]. split.
  - assert (Ev := callUpdater_evolves _ _ _ _ _ _ E).
    destruct (ev_cells _ _ _ Ev r _ H1) as [c' [Hc' Hw]].
    inversion Hw; subst. assumption.
  - intros Hf. exact (callUpdater_calls _ _ _ _ _ _ Hf E).
Qed.


(** *** No binding is ever subscribed to itself *)

Lemma written_keepsNoSelf v r c c' : written v c c' -> keepsNoSelf r c c'.
Proof.
  intros [c0|b Hb|b]; simpl.
  - destruct c0; simpl; eauto.
  - intros us' H. discriminate.
  - now left.
Qed.

Lemma keepsNoSelf_ok r c c' :
  keepsNoSelf r c c' ->
  match c with
  | Fixed b => forall us, f_optUpdaters b = Some us -> ~ In (UInit r) us
  | Live b => ~ In (UUpdate r) (l_updaters b)
  | Plain _ => True
  end ->
  match c' with
  | Fixed b => forall us, f_optUpdaters b = Some us -> ~ In (UInit r) us
  | Live b => ~ In (UUpdate r) (l_updaters b)
  | Plain _ => True
  end.
Proof.
  destruct c as [b|b|b], c' as [b'|b'|b']; simpl; try tauto.
  - intros K H us' Hus'. destruct (K us' Hus') as [us [Hus [->|[u [Hu ->]]]]].
    + now apply H.
    + rewrite in_app_iff. intros [Hin|[Heq|[]]]; [now apply (H us)|congruence].
  - intros [->|[u [Hu ->]]] H; [assumption|].
    rewrite in_app_iff. intros [Hin|[Heq|[]]]; [tauto|congruence].
Qed.

Lemma evolves_noSelf v s s' :
  evolves v s s' -> noSelfSubscription s -> noSelfSubscription s'.
Proof.
  intros E H r c' Hc'.
  assert (Hlt : r < length (cells s))
    by (rewrite <- (ev_length _ _ _ E); eapply lookup_lt_Some; eassumption).
  destruct (lookup_lt_is_Some_2 _ _ Hlt) as [c Hc].
  destruct (ev_cells _ _ _ E r c Hc) as [c'' [Hc'' Hw]].
  assert (c'' = c') by congruence. subst c''.
  eapply keepsNoSelf_ok; [eapply written_keepsNoSelf; eassumption | now apply H].
Qed.

Lemma setCell_noSelf r c c' s :
  cells s !! r = Some c -> keepsNoSelf r c c' ->
  noSelfSubscription s -> noSelfSubscription (setCell r c' s).
Proof.
  intros Hr K H r0 c0 H0. simpl in H0.
  destruct (decide (r = r0)) as [<-|Hne].
  - rewrite list_lookup_insert_eq in H0 by (eapply lookup_lt_Some; eassumption).
    inversion H0; subst. eapply keepsNoSelf_ok; [exact K | now apply H].
  - rewrite list_lookup_insert_ne in H0 by assumption. now apply H.
Qed.

Lemma alloc_noSelf c s :
  match c with
  | Fixed b => f_optUpdaters b = Some [] \/ f_optUpdaters b = None
  | Live b => l_updaters b = []
  | Plain _ => True
  end ->
  noSelfSubscription s -> noSelfSubscription (snd (alloc c s)).
Proof.
  intros Hc H r c0 H0. simpl in H0.
  destruct (decide (r < length (cells s))) as [Hlt|Hge].
  - rewrite lookup_app_l in H0 by assumption. now apply H.
  - rewrite lookup_app_r in H0 by lia.
    destruct (r - length (cells s)) as [|k]; simpl in H0; [|discriminate].
    inversion H0; subst c0. destruct c as [b|b|b]; [| |exact I].
    + intros us Hus. destruct Hc as [Hc|Hc]; rewrite Hc in Hus; [|discriminate].
      inversion Hus; subst. intros [].
    + rewrite Hc. intros [].
Qed.

Lemma runOp_noSelf fuel op s :
  noSelfSubscription s -> noSelfSubscription (runOp fuel op s).
Proof.
  intros H. destruct op as [n|e n|v|r v|r v|r v|r v|r u|r u|r u]; simpl.
  - apply alloc_noSelf; [now left | assumption].
  - apply alloc_noSelf; [reflexivity | assumption].
  - apply alloc_noSelf; [exact I | assumption].
  - name_outcome. eapply evolves_noSelf; eassumption.
  - name_outcome. eapply evolves_noSelf; eassumption.
  - unfold set, live_set.
    destruct (cells s !! r) as [[b|b|b]|] eqn:Hr; simpl; try assumption.
    destruct (l_tdz b) eqn:Ht; simpl; [assumption|].
    name_outcome. eapply evolves_noSelf; [eassumption|].
    eapply setCell_noSelf; [eassumption | now left | assumption].
  - unfold plain_set.
    destruct (cells s !! r) as [[b|b|b]|] eqn:Hr; simpl; try assumption.
    name_outcome. eapply evolves_noSelf; [eassumption|].
    eapply setCell_noSelf; [eassumption | exact I | assumption].
  - unfold notifyFixed, fixed_notify.
    destruct (decide (u = UInit r)) as [Hu|Hu]; [assumption|].
    destruct (cells s !! r) as [[b|b|b]|] eqn:Hr; simpl; try assumption.
    destruct (f_tdz b) eqn:Ht.
    + destruct (f_optUpdaters b) as [us|] eqn:Hus; simpl; [|assumption].
      eapply setCell_noSelf; [eassumption | | assumption].
      simpl. intros us' Hus'. inversion Hus'; subst. exists us. split; [assumption|].
      right. now exists u.
    + name_outcome. eapply evolves_noSelf; eassumption.
  - unfold notifyLive, live_notify.
    destruct (decide (u = UUpdate r)) as [Hu|Hu]; [assumption|].
    destruct (cells s !! r) as [[b|b|b]|] eqn:Hr; simpl; try assumption.
    assert (K : noSelfSubscription
                  (setCell r (Live {| l_exportName := l_exportName b;
                                      l_localName := l_localName b;
                                      l_value := l_value b; l_tdz := l_tdz b;
                                      l_updaters := l_updaters b ++ [u] |}) s)).
    { eapply setCell_noSelf; [eassumption | | assumption]. simpl. right. now exists u. }
    destruct (l_tdz b); simpl; [assumption|].
    name_outcome. eapply evolves_noSelf; eassumption.
  - unfold notifyPlain, plain_notify.
    destruct (cells s !! r) as [[b|b|b]|] eqn:Hr; simpl; try assumption.
    name_outcome. eapply evolves_noSelf; [eassumption|].
    eapply setCell_noSelf; [eassumption | exact I | assumption].
Qed.

Lemma runOps_noSelf fuel ops s :
  noSelfSubscription s -> noSelfSubscription (runOps fuel ops s).
Proof.
  revert s. induction ops as [|op ops IH]; intros s H; simpl; [assumption|].
  apply IH. now apply runOp_noSelf.
Qed.

Lemma emptyStore_noSelf : noSelfSubscription emptyStore.
Proof. intros r c H. simpl in H. rewrite lookup_nil in H. discriminate. Qed.

(** Why the guard matters: were a live binding's own [update] among its
    updaters, [update] would call itself without end. *)
Lemma forUpdaters_app call us1 us2 v s :
  forUpdaters call (us1 ++ us2) v s =
    match forUpdaters call us1 v s with
    | (Normal _, s') => forUpdaters call us2 v s'
    | other => other
    end.
Proof.
  revert s. induction us1 as [|u us1 IH]; intros s; simpl; [reflexivity|].
  unfold bind. destruct (call u v s) as [[[]|e|f] s1]; [apply IH | reflexivity | reflexivity].
Qed.

Lemma self_subscribed_update_diverges fuel :
  forall s r b v us1 us2,
    cells s !! r = Some (Live b) ->
    l_updaters b = us1 ++ UUpdate r :: us2 ->
    forallb isAssign us1 = true ->
    fst (update fuel r v s) = Abort OutOfFuel.
Proof.
  induction fuel as [|n IH]; intros s r b v us1 us2 Hr Hus Ha;
    unfold update, live_update; rewrite Hr, Hus.
  - destruct us1 as [|u us1]; simpl; reflexivity.
  - rewrite forUpdaters_app.
    rewrite (forUpdaters_assign (S n) us1 v _ Ha) by lia.
    cbn [forUpdaters]. unfold bind at 1. cbn [callUpdater].
    match goal with |- context [live_update (callUpdater n) r v ?s1] =>
      set (s2 := s1) end.
    assert (H2 : cells s2 !! r =
                 Some (Live {| l_exportName := l_exportName b;
                               l_localName := l_localName b;
                               l_value := v; l_tdz := false;
                               l_updaters := us1 ++ UUpdate r :: us2 |})).
    { subst s2. simpl. apply list_lookup_insert_eq. eapply lookup_lt_Some; eassumption. }
    specialize (IH s2 r _ v us1 us2 H2 eq_refl Ha). unfold update in IH.
    destruct (live_update (callUpdater n) r v s2) as [res s3].
    simpl in IH. subst res. reflexivity.
Qed.

(** *** Fixed bindings keep their queue while in the tdz *)

Lemma evolves_queuesInTdz v s s' :
  evolves v s s' -> queuesInTdz s -> queuesInTdz s'.
Proof.
  intros E H r b' Hb' Ht.
  assert (Hlt : r < length (cells s))
    by (rewrite <- (ev_length _ _ _ E); eapply lookup_lt_Some; eassumption).
  destruct (lookup_lt_is_Some_2 _ _ Hlt) as [c Hc].
  destruct (ev_cells _ _ _ E r c Hc) as [c' [Hc' Hw]].
  assert (c' = Fixed b') by congruence. subst c'.
  inversion Hw; subst; [exact (H r b' Hc Ht) | discriminate].
Qed.

Lemma setCell_queuesInTdz r c' s :
  match c' with
  | Fixed b => f_tdz b = true -> exists us, f_optUpdaters b = Some us
  | _ => True
  end ->
  queuesInTdz s -> queuesInTdz (setCell r c' s).
Proof.
  intros Hc H r0 b0 H0 Ht. simpl in H0.
  destruct (decide (r = r0)) as [<-|Hne].
  - destruct (decide (r < length (cells s))) as [Hlt|Hge].
    + rewrite list_lookup_insert_eq in H0 by assumption.
      inversion H0; subst. now apply Hc.
    + rewrite list_insert_ge in H0 by lia. exact (H _ _ H0 Ht).
  - rewrite list_lookup_insert_ne in H0 by assumption. exact (H _ _ H0 Ht).
Qed.

Lemma alloc_queuesInTdz c s :
  match c with
  | Fixed b => exists us, f_optUpdaters b = Some us
  | _ => True
  end ->
  queuesInTdz s -> queuesInTdz (snd (alloc c s)).
Proof.
  intros Hc H r b0 H0 Ht. simpl in H0.
  destruct (decide (r < length (cells s))) as [Hlt|Hge].
  - rewrite lookup_app_l in H0 by assumption. exact (H _ _ H0 Ht).
  - rewrite lookup_app_r in H0 by lia.
    destruct (r - length (cells s)) as [|k]; simpl in H0; [|discriminate].
    inversion H0; subst c. exact Hc.
Qed.

Lemma runOp_queuesInTdz fuel op s :
  queuesInTdz s -> queuesInTdz (runOp fuel op s).
Proof.
  intros H. destruct op as [n|e n|v|r v|r v|r v|r v|r u|r u|r u]; simpl.
  - apply alloc_queuesInTdz; [now exists [] | assumption].
  - apply alloc_queuesInTdz; [exact I | assumption].
  - apply alloc_queuesInTdz; [exact I | assumption].
  - name_outcome. eapply evolves_queuesInTdz; eassumption.
  - name_outcome. eapply evolves_queuesInTdz; eassumption.
  - unfold set, live_set.
    destruct (cells s !! r) as [[b|b|b]|] eqn:Hr; simpl; try assumption.
    destruct (l_tdz b) eqn:Ht; simpl; [assumption|].
    name_outcome. eapply evolves_queuesInTdz; [eassumption|].
    apply setCell_queuesInTdz; [exact I | assumption].
  - unfold plain_set.
    destruct (cells s !! r) as [[b|b|b]|] eqn:Hr; simpl; try assumption.
    name_outcome. eapply evolves_queuesInTdz; [eassumption|].
    apply setCell_queuesInTdz; [exact I | assumption].
  - unfold notifyFixed, fixed_notify.
    destruct (decide (u = UInit r)) as [Hu|Hu]; [assumption|].
    destruct (cells s !! r) as [[b|b|b]|] eqn:Hr; simpl; try assumption.
    destruct (f_tdz b) eqn:Ht.
    + destruct (f_optUpdaters b) as [us|] eqn:Hus; simpl; [|assumption].
      apply setCell_queuesInTdz; [|assumption]. simpl. eauto.
    + name_outcome. eapply evolves_queuesInTdz; eassumption.
  - unfold notifyLive, live_notify.
    destruct (decide (u = UUpdate r)) as [Hu|Hu]; [assumption|].
    destruct (cells s !! r) as [[b|b|b]|] eqn:Hr; simpl; try assumption.
    assert (K : queuesInTdz
                  (setCell r (Live {| l_exportName := l_exportName b;
                                      l_localName := l_localName b;
                                      l_value := l_value b; l_tdz := l_tdz b;
                                      l_updaters := l_updaters b ++ [u] |}) s))
      by (apply setCell_queuesInTdz; [exact I | assumption]).
    destruct (l_tdz b); simpl; [assumption|].
    name_outcome. eapply evolves_queuesInTdz; eassumption.
  - unfold notifyPlain, plain_notify.
    destruct (cells s !! r) as [[b|b|b]|] eqn:Hr; simpl; try assumption.
    name_outcome. eapply evolves_queuesInTdz; [eassumption|].
    apply setCell_queuesInTdz; [exact I | assumption].
Qed.

(** Whatever has been done to the bindings since their creation. *)
Lemma runOps_queuesInTdz fuel ops s :
  queuesInTdz s -> queuesInTdz (runOps fuel ops s).
Proof.
  revert s. induction ops as [|op ops IH]; intros s H; simpl; [assumption|].
  apply IH. now apply runOp_queuesInTdz.
Qed.

Lemma emptyStore_queuesInTdz : queuesInTdz emptyStore.
Proof. intros r b H. simpl in H. rewrite lookup_nil in H. discriminate. Qed.

(** *** An initialized fixed binding never changes again *)

Lemma lookup_setCell_ne r r' c s :
  r <> r' -> cells (setCell r' c s) !! r = cells s !! r.
Proof. intros H. simpl. apply list_lookup_insert_ne. congruence. Qed.

Lemma runOp_fixed_initialized fuel op s r b :
  cells s !! r = Some (Fixed b) -> f_tdz b = false ->
  cells (runOp fuel op s) !! r = Some (Fixed b).
Proof.
  intros Hr Ht.
  assert (Hlt : r < length (cells s)) by (eapply lookup_lt_Some; eassumption).
  assert (Hother : forall r' c, (forall b', cells s !! r' <> Some (Fixed b')) ->
                     cells (setCell r' c s) !! r = Some (Fixed b)).
  { intros r' c Hkind. rewrite lookup_setCell_ne; [assumption|].
    intros ->. exact (Hkind b Hr). }
  destruct op as [n|e n|v|r' v|r' v|r' v|r' v|r' u|r' u|r' u]; simpl;
    try (rewrite lookup_app_l by assumption; assumption).
  - name_outcome. eapply evolves_fixed_initialized; eassumption.
  - name_outcome. eapply evolves_fixed_initialized; eassumption.
  - unfold set, live_set.
    destruct (cells s !! r') as [[b'|b'|b']|] eqn:Hr'; simpl; try assumption.
    destruct (l_tdz b') eqn:Ht'; simpl; [assumption|].
    name_outcome. eapply evolves_fixed_initialized; [eassumption | | assumption].
    apply Hother. intros b0. congruence.
  - unfold plain_set.
    destruct (cells s !! r') as [[b'|b'|b']|] eqn:Hr'; simpl; try assumption.
    name_outcome. eapply evolves_fixed_initialized; [eassumption | | assumption].
    apply Hother. intros b0. congruence.
  - unfold notifyFixed, fixed_notify.
    destruct (decide (u = UInit r')) as [Hu|Hu]; [assumption|].
    destruct (cells s !! r') as [[b'|b'|b']|] eqn:Hr'; simpl; try assumption.
    destruct (f_tdz b') eqn:Ht'.
    + destruct (f_optUpdaters b') as [us|] eqn:Hus; simpl; [|assumption].
      rewrite list_lookup_insert_ne; [assumption|].
      intros ->. congruence.
    + name_outcome. eapply evolves_fixed_initialized; eassumption.
  - unfold notifyLive, live_notify.
    destruct (decide (u = UUpdate r')) as [Hu|Hu]; [assumption|].
    destruct (cells s !! r') as [[b'|b'|b']|] eqn:Hr'; simpl; try assumption.
    assert (K : cells (setCell r' (Live {| l_exportName := l_exportName b';
                                           l_localName := l_localName b';
                                           l_value := l_value b'; l_tdz := l_tdz b';
                                           l_updaters := l_updaters b' ++ [u] |}) s)
                  !! r = Some (Fixed b))
      by (apply Hother; intros b0; congruence).
    destruct (l_tdz b'); simpl; [exact K|].
    name_outcome. eapply evolves_fixed_initialized; eassumption.
  - unfold notifyPlain, plain_notify.
    destruct (cells s !! r') as [[b'|b'|b']|] eqn:Hr'; simpl; try assumption.
    name_outcome. eapply evolves_fixed_initialized; [eassumption | | assumption].
    apply Hother. intros b0. congruence.
Qed.

Lemma fixed_initialized_never_changes fuel ops :
  forall s r b,
    cells s !! r = Some (Fixed b) -> f_tdz b = false ->
    cells (runOps fuel ops s) !! r = Some (Fixed b).
Proof.
  induction ops as [|op ops IH]; intros s r b Hr Ht; simpl; [assumption|].
  apply IH; [|assumption]. now apply runOp_fixed_initialized.
Qed.

(** With the guard, passing own sinks to [notify] is harmless: as long as
    the other updaters are assignment closures, they stay the only ones, and
    every [update] returns. *)
Lemma written_onlyAssignments v c c' :
  written v c c' ->
  match c with
  | Fixed b => forall us, f_optUpdaters b = Some us -> forallb isAssign us = true
  | Live b => forallb isAssign (l_updaters b) = true
  | Plain b => forallb isAssign (p_updaters b) = true
  end ->
  match c' with
  | Fixed b => forall us, f_optUpdaters b = Some us -> forallb isAssign us = true
  | Live b => forallb isAssign (l_updaters b) = true
  | Plain b => forallb isAssign (p_updaters b) = true
  end.
Proof.
  intros [c0|b Hb|b]; simpl; [tauto | discriminate | tauto].
Qed.

Lemma evolves_onlyAssignments v s s' :
  evolves v s s' -> onlyAssignments s -> onlyAssignments s'.
Proof.
  intros E H r c' Hc'.
  assert (Hlt : r < length (cells s))
    by (rewrite <- (ev_length _ _ _ E); eapply lookup_lt_Some; eassumption).
  destruct (lookup_lt_is_Some_2 _ _ Hlt) as [c Hc].
  destruct (ev_cells _ _ _ E r c Hc) as [c'' [Hc'' Hw]].
  assert (c'' = c') by congruence. subst c''.
  eapply written_onlyAssignments; [eassumption | exact (H r c Hc)].
Qed.

Lemma setCell_onlyAssignments r c' s :
  match c' with
  | Fixed b => forall us, f_optUpdaters b = Some us -> forallb isAssign us = true
  | Live b => forallb isAssign (l_updaters b) = true
  | Plain b => forallb isAssign (p_updaters b) = true
  end ->
  onlyAssignments s -> onlyAssignments (setCell r c' s).
Proof.
  intros Hc H r0 c0 H0. simpl in H0.
  destruct (decide (r = r0)) as [<-|Hne].
  - destruct (decide (r < length (cells s))) as [Hlt|Hge].
    + rewrite list_lookup_insert_eq in H0 by assumption. now inversion H0; subst.
    + rewrite list_insert_ge in H0 by lia. exact (H _ _ H0).
  - rewrite list_lookup_insert_ne in H0 by assumption. exact (H _ _ H0).
Qed.

Lemma alloc_onlyAssignments c s :
  match c with
  | Fixed b => f_optUpdaters b = Some [] \/ f_optUpdaters b = None
  | Live b => l_updaters b = []
  | Plain b => p_updaters b = []
  end ->
  onlyAssignments s -> onlyAssignments (snd (alloc c s)).
Proof.
  intros Hc H r c0 H0. simpl in H0.
  destruct (decide (r < length (cells s))) as [Hlt|Hge].
  - rewrite lookup_app_l in H0 by assumption. exact (H _ _ H0).
  - rewrite lookup_app_r in H0 by lia.
    destruct (r - length (cells s)) as [|k]; simpl in H0; [|discriminate].
    inversion H0; subst c0. destruct c as [b|b|b].
    + intros us Hus. destruct Hc as [Hc|Hc]; rewrite Hc in Hus; [|discriminate].
      now inversion Hus.
    + now rewrite Hc.
    + now rewrite Hc.
Qed.

Lemma forallb_isAssign_snoc us u :
  forallb isAssign us = true -> isAssign u = true ->
  forallb isAssign (us ++ [u]) = true.
Proof. intros H1 H2. rewrite forallb_app, H1. simpl. now rewrite H2. Qed.

Lemma runOp_onlyAssignments fuel op s :
  assignOrOwnSink op = true ->
  onlyAssignments s -> onlyAssignments (runOp fuel op s).
Proof.
  intros Hop H.
  destruct op as [n|e n|v|r v|r v|r v|r v|r u|r u|r u]; simpl in *.
  - apply alloc_onlyAssignments; [now left | assumption].
  - apply alloc_onlyAssignments; [reflexivity | assumption].
  - apply alloc_onlyAssignments; [reflexivity | assumption].
  - name_outcome. eapply evolves_onlyAssignments; eassumption.
  - name_outcome. eapply evolves_onlyAssignments; eassumption.
  - unfold set, live_set.
    destruct (cells s !! r) as [[b|b|b]|] eqn:Hr; simpl; try assumption.
    destruct (l_tdz b) eqn:Ht; simpl; [assumption|].
    name_outcome. eapply evolves_onlyAssignments; [eassumption|].
    apply setCell_onlyAssignments; [exact (H r _ Hr) | assumption].
  - unfold plain_set.
    destruct (cells s !! r) as [[b|b|b]|] eqn:Hr; simpl; try assumption.
    name_outcome. eapply evolves_onlyAssignments; [eassumption|].
    apply setCell_onlyAssignments; [exact (H r _ Hr) | assumption].
  - unfold notifyFixed, fixed_notify.
    destruct (decide (u = UInit r)) as [Hu|Hu]; [assumption|].
    rewrite bool_decide_eq_false_2 in Hop by assumption.
    rewrite orb_false_r in Hop.
    destruct (cells s !! r) as [[b|b|b]|] eqn:Hr; simpl; try assumption.
    destruct (f_tdz b) eqn:Ht.
    + destruct (f_optUpdaters b) as [us|] eqn:Hus; simpl; [|assumption].
      apply setCell_onlyAssignments; [|assumption].
      simpl. intros us' Hus'. inversion Hus'; subst.
      apply forallb_isAssign_snoc; [exact (H r _ Hr us Hus) | assumption].
    + name_outcome. eapply evolves_onlyAssignments; eassumption.
  - unfold notifyLive, live_notify.
    destruct (decide (u = UUpdate r)) as [Hu|Hu]; [assumption|].
    rewrite bool_decide_eq_false_2 in Hop by assumption.
    rewrite orb_false_r in Hop.
    destruct (cells s !! r) as [[b|b|b]|] eqn:Hr; simpl; try assumption.
    assert (K : onlyAssignments
                  (setCell r (Live {| l_exportName := l_exportName b;
                                      l_localName := l_localName b;
                                      l_value := l_value b; l_tdz := l_tdz b;
                                      l_updaters := l_updaters b ++ [u] |}) s)).
    { apply setCell_onlyAssignments; [|assumption]. simpl.
      apply forallb_isAssign_snoc; [exact (H r _ Hr) | assumption]. }
    destruct (l_tdz b); simpl; [assumption|].
    name_outcome. eapply evolves_onlyAssignments; eassumption.
  - unfold notifyPlain, plain_notify.
    destruct (cells s !! r) as [[b|b|b]|] eqn:Hr; simpl; try assumption.
    name_outcome. eapply evolves_onlyAssignments; [eassumption|].
    apply setCell_onlyAssignments; [|assumption]. simpl.
    apply forallb_isAssign_snoc; [exact (H r _ Hr) | assumption].
Qed.

Lemma runOps_onlyAssignments fuel ops s :
  forallb assignOrOwnSink ops = true ->
  onlyAssignments s -> onlyAssignments (runOps fuel ops s).
Proof.
  revert s. induction ops as [|op ops IH]; intros s Hops H; simpl; [assumption|].
  simpl in Hops. apply andb_true_iff in Hops as [Hop Hops].
  apply IH; [assumption | now apply runOp_onlyAssignments].
Qed.

Lemma emptyStore_onlyAssignments : onlyAssignments emptyStore.
Proof. intros r c H. simpl in H. rewrite lookup_nil in H. discriminate. Qed.

Lemma update_returns_onlyAssignments fuel s r b v :
  0 < fuel -> onlyAssignments s -> cells s !! r = Some (Live b) ->
  fst (update fuel r v s) = Normal tt.
Proof.
  intros Hf H Hr.
  destruct (update_leaves_tdz fuel s r b v Hr) as (res & s' & E & _ & _ & Htot).
  rewrite E. simpl. now apply Htot; [exact (H r _ Hr) | assumption].
Qed.

(** *** The statements of the design document *)

(** C4.  For a binding record created by [makeModuleInstance]: while its
    [tdz] flag is true, the getter (fixed and live bindings) and the setter
    (live bindings) throw a ReferenceError and change nothing.  Calling the
    [init] of a fixed binding that is in its tdz, or the [update] of a live
    binding, clears [tdz], stores the new value, and calls every updater
    queued or registered so far on that value, in order: when the call
    returns, the calls made consist of one stretch per updater; and it does
    return, having made exactly those calls, when the updaters are the
    assignment closures of importers.  (A fixed binding in its tdz always
    has its queue, see [runOps_queuesInTdz].) *)
Theorem binding_tdz_invariant (fuel : nat) (s : Store) (r : Ref) :
  (forall b us,
     cells s !! r = Some (Fixed b) -> f_tdz b = true ->
     f_optUpdaters b = Some us ->
     (exists msg, fixed_get r s = (Throw (JErr ReferenceError msg), s)) /\
     forall v, exists res s',
       init fuel r v s = (res, s') /\
       cells s' !! r = Some (Fixed {| f_localName := f_localName b;
                                      f_value := v; f_tdz := false;
                                      f_optUpdaters := None |}) /\
       (res = Normal v ->
          exists evs, calls s' = calls s ++ evs /\ invokedInOrder us v evs) /\
       (forallb isAssign us = true -> 0 < fuel ->
          res = Normal v /\ calls s' = calls s ++ map (fun u => (u, v)) us))
  /\
  (forall b,
     cells s !! r = Some (Live b) ->
     (l_tdz b = true ->
        (exists msg, live_get r s = (Throw (JErr ReferenceError msg), s)) /\
        (forall v, exists msg,
           set fuel r v s = (Throw (JErr ReferenceError msg), s))) /\
     forall v, exists res s',
       update fuel r v s = (res, s') /\
       cells s' !! r = Some (Live {| l_exportName := l_exportName b;
                                     l_localName := l_localName b;
                                     l_value := v; l_tdz := false;
                                     l_updaters := l_updaters b |}) /\
       (res = Normal tt ->
          exists evs, calls s' = calls s ++ evs /\
                      invokedInOrder (l_updaters b) v evs) /\
       (forallb isAssign (l_updaters b) = true -> 0 < fuel ->
          res = Normal tt /\
          calls s' = calls s ++ map (fun u => (u, v)) (l_updaters b))).
Proof.
  split.
  - intros b us Hr Ht Hus. split.
    + eexists. apply (fixed_get_tdz s r b); assumption.
    + intros v. now apply init_leaves_tdz.
  - intros b Hr. split.
    + intros Ht. split.
      * eexists. apply (live_get_tdz s r b); assumption.
      * intros v. eexists. apply (live_set_tdz fuel s r b); assumption.
    + intros v. now apply update_leaves_tdz.
Qed.

(** C10.  Passing a binding's own [init] (fixed binding) or own [update]
    (live binding) to its [notify] is a no-op: [notify] returns and the
    store is as before, so that updater is neither queued nor called.  As a
    consequence no sequence of operations on bindings ever leaves a binding
    with its own sink among its updaters; and when bindings are subscribed
    to themselves, next to the assignment closures of importers, every
    [update] still returns, where it would recurse without end had the
    binding's own [update] been registered
    (cf. [self_subscribed_update_diverges]). *)
Theorem notify_own_sink_is_noop (fuel : nat) (r : Ref) (s : Store) :
  notifyFixed fuel r (UInit r) s = (Normal tt, s) /\
  notifyLive fuel r (UUpdate r) s = (Normal tt, s) /\
  (forall ops, noSelfSubscription (runOps fuel ops emptyStore)) /\
  (forall ops b v,
     0 < fuel -> forallb assignOrOwnSink ops = true ->
     cells (runOps fuel ops emptyStore) !! r = Some (Live b) ->
     fst (update fuel r v (runOps fuel ops emptyStore)) = Normal tt).
Proof.
  split; [apply notifyFixed_own_init|].
  split; [apply notifyLive_own_update|].
  split.
  - intros ops. apply runOps_noSelf, emptyStore_noSelf.
  - intros ops b v Hf Hops Hr.
    apply (update_returns_onlyAssignments fuel _ r b v Hf); [|exact Hr].
    apply runOps_onlyAssignments; [exact Hops | apply emptyStore_onlyAssignments].
Qed.

(** Updaters registered with a live binding that is still in its tdz are
    called by the first [update] in the order of their registration. *)
Lemma notifyLive_tdz_all fuel r us :
  ~ In (UUpdate r) us ->
  forall s b,
    cells s !! r = Some (Live b) -> l_tdz b = true ->
    let s' := runOps fuel (map (OpNotifyLive r) us) s in
    calls s' = calls s /\
    cells s' !! r = Some (Live {| l_exportName := l_exportName b;
                                  l_localName := l_localName b;
                                  l_value := l_value b; l_tdz := true;
                                  l_updaters := l_updaters b ++ us |}).
Proof.
  induction us as [|u us IH]; intros Hnot s b Hr Ht; simpl.
  - rewrite app_nil_r. split; [reflexivity|]. rewrite Hr. destruct b; simpl in *; congruence.
  - assert (Hu : u <> UUpdate r) by (intros ->; apply Hnot; now left).
    destruct (notifyLive_registers fuel s r b u Hu Hr) as (res & s1 & E & Hc & Htdz & _).
    destruct (Htdz Ht) as [-> Hcalls]. rewrite E. simpl.
    rewrite Ht in Hc.
    destruct (IH (fun H => Hnot (or_intror H)) s1 _ Hc eq_refl) as [IH1 IH2].
    cbn [l_exportName l_localName l_value l_updaters] in IH2.
    fold (runOps fuel (map (OpNotifyLive r) us) s1).
    split; [congruence|]. rewrite <- app_assoc in IH2. exact IH2.
Qed.

Lemma registration_order fuel r us v s b :
  0 < fuel -> forallb isAssign us = true ->
  cells s !! r = Some (Live b) -> l_tdz b = true -> l_updaters b = [] ->
  exists s',
    update fuel r v (runOps fuel (map (OpNotifyLive r) us) s) = (Normal tt, s') /\
    calls s' = calls s ++ map (fun u => (u, v)) us.
Proof.
  intros Hf Ha Hr Ht Hnil.
  assert (Hnot : ~ In (UUpdate r) us).
  { intros Hin. rewrite forallb_forall in Ha. specialize (Ha _ Hin). discriminate. }
  destruct (notifyLive_tdz_all fuel r us Hnot s b Hr Ht) as [Hc Hcell].
  rewrite Hnil in Hcell. simpl in Hcell.
  destruct (update_leaves_tdz fuel _ r _ v Hcell) as (res & s' & E & _ & _ & Htot).
  destruct (Htot Ha Hf) as [-> Hcalls]. exists s'. split; [exact E|].
  simpl in Hcalls. congruence.
Qed.

(** C5, as amended.  For every updater other than the binding's own [init]
    or [update]: [notify] of a fixed binding in its tdz queues the updater
    without calling it, and once the binding is initialized calls it at
    once on the current value; [notify] of a live binding registers the
    updater at the end of the list, without calling it while the binding is
    in its tdz and calling it at once on the current value afterwards;
    [notify] of a third-party binding registers and calls at once.  Each
    initialization ([init], [update]) and reassignment ([set]) calls the
    updaters in the order of the list, that of their registration.  (An
    initialized fixed binding does not register the updater: it has no
    subsequent changes.) *)
Theorem notify_subscribes (fuel : nat) (s : Store) (r : Ref) (u : Updater) :
  (forall b, cells s !! r = Some (Fixed b) -> u <> UInit r ->
     (forall us, f_tdz b = true -> f_optUpdaters b = Some us ->
        exists s',
          notifyFixed fuel r u s = (Normal tt, s') /\ calls s' = calls s /\
          cells s' !! r = Some (Fixed {| f_localName := f_localName b;
                                         f_value := f_value b; f_tdz := true;
                                         f_optUpdaters := Some (us ++ [u]) |})) /\
     (f_tdz b = false -> 0 < fuel ->
        (exists res s' rest,
           notifyFixed fuel r u s = (res, s') /\
           calls s' = calls s ++ (u, f_value b) :: rest) /\
        forall ops, cells (runOps fuel ops s) !! r = Some (Fixed b)))
  /\
  (forall b, cells s !! r = Some (Live b) -> u <> UUpdate r ->
     exists res s',
       notifyLive fuel r u s = (res, s') /\
       cells s' !! r = Some (Live {| l_exportName := l_exportName b;
                                     l_localName := l_localName b;
                                     l_value := l_value b; l_tdz := l_tdz b;
                                     l_updaters := l_updaters b ++ [u] |}) /\
       (l_tdz b = true -> res = Normal tt /\ calls s' = calls s) /\
       (l_tdz b = false -> 0 < fuel ->
          exists rest, calls s' = calls s ++ (u, l_value b) :: rest))
  /\
  (forall b, cells s !! r = Some (Plain b) ->
     exists res s',
       notifyPlain fuel r u s = (res, s') /\
       cells s' !! r = Some (Plain {| p_value := p_value b;
                                      p_updaters := p_updaters b ++ [u] |}) /\
       (0 < fuel -> exists rest, calls s' = calls s ++ (u, p_value b) :: rest))
  /\
  (forall v,
     (forall b us s',
        cells s !! r = Some (Fixed b) -> f_tdz b = true ->
        f_optUpdaters b = Some us ->
        init fuel r v s = (Normal v, s') ->
        exists evs, calls s' = calls s ++ evs /\ invokedInOrder us v evs) /\
     (forall b s',
        cells s !! r = Some (Live b) ->
        update fuel r v s = (Normal tt, s') ->
        exists evs, calls s' = calls s ++ evs /\
                    invokedInOrder (l_updaters b) v evs) /\
     (forall b s',
        cells s !! r = Some (Live b) -> l_tdz b = false ->
        set fuel r v s = (Normal tt, s') ->
        exists evs, calls s' = calls s ++ evs /\
                    invokedInOrder (l_updaters b) v evs) /\
     (forall b us,
        0 < fuel -> forallb isAssign us = true ->
        cells s !! r = Some (Live b) -> l_tdz b = true -> l_updaters b = [] ->
        exists s',
          update fuel r v (runOps fuel (map (OpNotifyLive r) us) s)
            = (Normal tt, s') /\
          calls s' = calls s ++ map (fun u => (u, v)) us)).
Proof.
  split; [|split; [|split]].
  - intros b Hr Hu. split.
    + intros us Ht Hus. rewrite (notifyFixed_tdz fuel s r b us u Hu Hr Ht Hus).
      eexists. split; [reflexivity|]. split; [reflexivity|]. simpl.
      apply list_lookup_insert_eq. eapply lookup_lt_Some; eassumption.
    + intros Ht Hf. split; [now apply notifyFixed_initialized|].
      intros ops. now apply fixed_initialized_never_changes.
  - intros b Hr Hu. now apply notifyLive_registers.
  - intros b Hr. now apply notifyPlain_registers.
  - intros v. split; [|split; [|split]].
    + intros b us s' Hr Ht Hus E.
      destruct (init_leaves_tdz fuel s r b us v Hr Ht Hus) as (res & s1 & E1 & _ & Hn & _).
      rewrite E in E1. inversion E1; subst. now apply Hn.
    + intros b s' Hr E.
      destruct (update_leaves_tdz fuel s r b v Hr) as (res & s1 & E1 & _ & Hn & _).
      rewrite E in E1. inversion E1; subst. now apply Hn.
    + intros b s' Hr Ht E.
      destruct (set_fans_out fuel s r b v Hr Ht) as (res & s1 & E1 & _ & Hn & _).
      rewrite E in E1. inversion E1; subst. now apply Hn.
    + intros b us Hf Ha Hr Ht Hnil. now apply (registration_order fuel r us v s b).
Qed.

End BindingFacts.
(** * Properties of module instances *)

Section InstanceFacts.

Import Binding Instance.

Context {X : Type}.

(** *** What [makeModuleInstance] makes *)

Lemma addFixedExport_other name acc entry :
  name <> fst entry ->
  obj_get name (notifiers (fst (addFixedExport acc entry)))
    = obj_get name (notifiers (fst acc)) /\
  obj_get name (exportsProps (fst (addFixedExport acc entry)))
    = obj_get name (exportsProps (fst acc)).
Proof.
  destruct acc as [t s], entry as [fixedExportName localName]. simpl. intros Hne.
  destruct (obj_get localName (localGetNotify t)) as [gn|]; simpl;
    now rewrite !obj_get_set_ne by assumption.
Qed.

Lemma addLiveExport_other name acc entry :
  name <> fst entry ->
  obj_get name (notifiers (fst (addLiveExport acc entry)))
    = obj_get name (notifiers (fst acc)) /\
  obj_get name (exportsProps (fst (addLiveExport acc entry)))
    = obj_get name (exportsProps (fst acc)).
Proof.
  destruct acc as [t s], entry as [liveExportName [localName setProxyTrap]].
  simpl. intros Hne.
  destruct (obj_get localName (localGetNotify t)) as [gn|]; simpl;
    now rewrite !obj_get_set_ne by assumption.
Qed.

Lemma fold_addFixedExport_other name entries :
  ~ In name (obj_keys entries) ->
  forall acc,
    obj_get name (notifiers (fst (fold_left addFixedExport entries acc)))
      = obj_get name (notifiers (fst acc)) /\
    obj_get name (exportsProps (fst (fold_left addFixedExport entries acc)))
      = obj_get name (exportsProps (fst acc)).
Proof.
  induction entries as [|entry entries IH]; intros Hnot acc; simpl; [auto|].
  simpl in Hnot.
  destruct (IH (fun H => Hnot (or_intror H)) (addFixedExport acc entry)) as [H1 H2].
  destruct (addFixedExport_other name acc entry (fun H => Hnot (or_introl (eq_sym H))))
    as [H3 H4].
  split; congruence.
Qed.

Lemma fold_addLiveExport_other name entries :
  ~ In name (obj_keys entries) ->
  forall acc,
    obj_get name (notifiers (fst (fold_left addLiveExport entries acc)))
      = obj_get name (notifiers (fst acc)) /\
    obj_get name (exportsProps (fst (fold_left addLiveExport entries acc)))
      = obj_get name (exportsProps (fst acc)).
Proof.
  induction entries as [|entry entries IH]; intros Hnot acc; simpl; [auto|].
  simpl in Hnot.
  destruct (IH (fun H => Hnot (or_intror H)) (addLiveExport acc entry)) as [H1 H2].
  destruct (addLiveExport_other name acc entry (fun H => Hnot (or_introl (eq_sym H))))
    as [H3 H4].
  split; congruence.
Qed.

(** A name that is neither a fixed nor a live export of the module is not
    an export of the instance [makeModuleInstance] returns, which has yet
    to run its functor. *)
Lemma makeModuleInstance_notExported deferred smr (functor : Functor X) s name :
  ~ In name (obj_keys (fixedExportMap smr)) ->
  ~ In name (obj_keys (liveExportMap smr)) ->
  name <> "*" ->
  let st := fst (makeModuleInstance deferred smr functor s) in
  notExported name st /\
  optFunctor st = Some functor /\ didThrow st = false /\ functorCalls st = 0.
Proof.
  intros Hf Hl Hstar. unfold makeModuleInstance.
  destruct (fold_left addFixedExport (fixedExportMap smr) (emptyTables, s))
    as [t1 s1] eqn:E1.
  destruct (fold_left addLiveExport (liveExportMap smr) (t1, s1))
    as [t2 s2] eqn:E2.
  destruct (fold_addFixedExport_other name _ Hf (emptyTables, s)) as [F1 F2].
  destruct (fold_addLiveExport_other name _ Hl (t1, s1)) as [L1 L2].
  rewrite E1 in F1, F2. rewrite E2 in L1, L2. simpl in *.
  repeat split; try reflexivity; simpl.
  - rewrite obj_get_set_ne by assumption. congruence.
  - congruence.
Qed.

(** *** [execute] of a parsed instance runs the functor once and is sticky *)

Lemma sameExec_refl (st : InstanceState X) : sameExec st st.
Proof. repeat split. Qed.

Lemma sameExec_trans (st1 st2 st3 : InstanceState X) :
  sameExec st1 st2 -> sameExec st2 st3 -> sameExec st1 st3.
Proof. unfold sameExec. intuition congruence. Qed.

Lemma forwardCandidates_sameExec deferred fuel candidates
    (st : InstanceState X) w res st' w' :
  forwardCandidates deferred fuel candidates (st, w) = (res, (st', w')) ->
  sameExec st st'.
Proof.
  revert st w. induction candidates as [|[importName notify] rest IH];
    intros st w H; simpl in H.
  - inversion H; subst. apply sameExec_refl.
  - destruct (obj_get importName (notifiers (tables st))) as [n0|];
      [now apply IH in H|].
    destruct notify as [notify|]; [|now apply IH in H].
    destruct (onStore _ w) as [[[]|e|f] w1].
    + apply IH in H. eapply sameExec_trans; [|exact H]. repeat split.
    + inversion H; subst. repeat split.
    + inversion H; subst. repeat split.
Qed.

Lemma imports_sameExec deferred smr importedInstances fuel record
    (st : InstanceState X) w res st' w' :
  imports deferred smr importedInstances fuel record (st, w) = (res, (st', w')) ->
  sameExec st st'.
Proof.
  unfold imports. intros H.
  destruct (importsLoop _ _ _ _ _ w) as [[candidateAll|e|f] w1];
    try (inversion H; subst; apply sameExec_refl).
  destruct (forwardCandidates deferred fuel candidateAll (st, w1))
    as [[[]|e|f] [st2 w2]] eqn:E;
    try (inversion H; subst; eapply forwardCandidates_sameExec; exact E).
  apply forwardCandidates_sameExec in E.
  destruct (installExports _ _ _) as [[[]|e|f] n]; inversion H; subst;
    (eapply sameExec_trans; [exact E | repeat split]).
Qed.

Lemma callFunctor_sameExec deferred smr importedInstances fuel functor
    (st : InstanceState X) w res st' w' :
  callFunctor deferred smr importedInstances fuel functor (st, w)
    = (res, (st', w')) ->
  sameExec st st'.
Proof.
  unfold callFunctor, bind. intros H.
  destruct (imports deferred smr importedInstances fuel (updateRecord functor) (st, w))
    as [[[]|e|f] [st1 w1]] eqn:E;
    try (inversion H; subst; eapply imports_sameExec; exact E).
  destruct (body functor w1) as [res1 w2]. inversion H; subst.
  eapply imports_sameExec; exact E.
Qed.

(** Once the functor field is cleared, [execute] changes nothing and
    reports the cached failure, if any.  This is also what a re-entrant call
    made while the functor runs finds: no failure is cached yet, and the
    call returns. *)
Lemma execute_consumed deferred smr importedInstances fuel
    (st : InstanceState X) (w : World X) :
  optFunctor st = None ->
  execute deferred smr importedInstances fuel (st, w) =
    (if didThrow st then Throw (thrownError st) else Normal tt, (st, w)).
Proof. intros H. unfold execute. rewrite H. now destruct (didThrow st). Qed.

(** The first call: the functor is called once, the field is cleared, and a
    throw of the functor is cached and rethrown. *)
Lemma execute_first deferred smr importedInstances fuel
    (st : InstanceState X) (w : World X) functor :
  optFunctor st = Some functor -> didThrow st = false ->
  exists res st' w',
    callFunctor deferred smr importedInstances fuel functor
      ({| tables := tables st; namespace := namespace st; optFunctor := None;
          didThrow := false; thrownError := thrownError st;
          functorCalls := S (functorCalls st) |}, w) = (res, (st', w')) /\
    match res with
    | Normal _ =>
        execute deferred smr importedInstances fuel (st, w) = (Normal tt, (st', w')) /\
        optFunctor st' = None /\ didThrow st' = false /\
        functorCalls st' = S (functorCalls st)
    | Throw e =>
        exists st'',
          execute deferred smr importedInstances fuel (st, w) = (Throw e, (st'', w')) /\
          optFunctor st'' = None /\ didThrow st'' = true /\ thrownError st'' = e /\
          functorCalls st'' = S (functorCalls st)
    | Abort f =>
        execute deferred smr importedInstances fuel (st, w) = (Abort f, (st', w'))
    end.
Proof.
  intros Hf Hd. unfold execute. rewrite Hf, Hd.
  destruct (callFunctor _ _ _ _ _ _) as [res [st' w']] eqn:E.
  exists res, st', w'. split; [reflexivity|].
  destruct (callFunctor_sameExec _ _ _ _ _ _ _ _ _ _ E) as (H1 & H2 & H3 & H4).
  simpl in H1, H2, H3, H4.
  destruct res as [[]|e|f].
  - rewrite H2. auto.
  - eexists. split; [reflexivity|]. simpl. auto.
  - reflexivity.
Qed.

Lemma Forall_map_const {A B} (P : B -> Prop) (c : B) (l : list A) :
  P c -> Forall P (map (fun _ => c) l).
Proof. intros H. induction l; simpl; constructor; auto. Qed.

Lemma executeAll_consumed deferred smr importedInstances fuel between :
  forall (st : InstanceState X) (w : World X),
    optFunctor st = None ->
    exists w',
      executeAll deferred smr importedInstances fuel between st w =
        (map (fun _ => if didThrow st then Throw (thrownError st) else Normal tt)
             between,
         (st, w')).
Proof.
  induction between as [|g rest IH]; intros st w H; cbn [executeAll map].
  - now exists w.
  - rewrite execute_consumed by assumption.
    destruct (IH st (g w) H) as [w' ->]. now exists w'.
Qed.

(** From the state [makeModuleInstance] returns, no run of [execute] calls
    calls the functor more than once. *)
Lemma parsed_execute_at_most_once deferred smr importedInstances fuel between
    (st : InstanceState X) (w : World X) functor :
  optFunctor st = Some functor -> didThrow st = false -> functorCalls st = 0 ->
  functorCalls
    (fst (snd (executeAll deferred smr importedInstances fuel between st w))) <= 1.
Proof.
  intros Hf Hd Hc. destruct between as [|g rest]; cbn [executeAll]; [simpl; lia|].
  destruct (execute_first deferred smr importedInstances fuel st (g w) functor Hf Hd)
    as (res & st' & w' & E & Hres).
  destruct res as [[]|e|f].
  - destruct Hres as (-> & Hn & _ & Hcalls).
    destruct (executeAll_consumed deferred smr importedInstances fuel rest st' w' Hn)
      as [w2 ->]. simpl. lia.
  - destruct Hres as (st2 & -> & Hn & _ & _ & Hcalls).
    destruct (executeAll_consumed deferred smr importedInstances fuel rest st2 w' Hn)
      as [w2 ->]. simpl. lia.
  - rewrite Hres.
    destruct (callFunctor_sameExec _ _ _ _ _ _ _ _ _ _ E) as (H1 & _ & _ & H4).
    simpl in H1, H4.
    destruct (executeAll_consumed deferred smr importedInstances fuel rest st' w' H1)
      as [w2 ->]. simpl. lia.
Qed.

(** If the call that ran the functor threw [e], every later call throws [e]. *)
Lemma parsed_execute_sticky deferred smr importedInstances fuel g rest
    (st : InstanceState X) (w : World X) functor e ress final :
  optFunctor st = Some functor -> didThrow st = false ->
  executeAll deferred smr importedInstances fuel (g :: rest) st w
    = (Throw e :: ress, final) ->
  Forall (fun res => res = Throw e) ress.
Proof.
  intros Hf Hd H. cbn [executeAll] in H.
  destruct (execute_first deferred smr importedInstances fuel st (g w) functor Hf Hd)
    as (res & st' & w' & E & Hres).
  destruct res as [[]|e'|f].
  - destruct Hres as (Hex & _). rewrite Hex in H.
    destruct (executeAll _ _ _ _ rest st' w') as [r1 f1]. inversion H.
  - destruct Hres as (st2 & Hex & Hn & Hd2 & He & _). rewrite Hex in H.
    destruct (executeAll_consumed deferred smr importedInstances fuel rest st2 w' Hn)
      as [w2 Hall]. rewrite Hall in H. inversion H; subst.
    rewrite Hd2. now apply Forall_map_const.
  - rewrite Hres in H.
    destruct (executeAll _ _ _ _ rest st' w') as [r1 f1]. inversion H.
Qed.

(** *** [execute] of a third-party instance *)

Lemma executeThirdParty_activated (record : ThirdPartyRecord X) st w :
  activated st = true ->
  executeThirdParty record (st, w) = (Normal tt, (st, w)).
Proof. intros H. unfold executeThirdParty. now rewrite H. Qed.

Lemma executeThirdParty_first (record : ThirdPartyRecord X) st w :
  activated st = false ->
  exists st',
    executeThirdParty record (st, w)
      = (fst (tp_execute record w), (st', snd (tp_execute record w))) /\
    activated st' = true /\ tp_active st' = true /\
    executeCalls st' = S (executeCalls st).
Proof.
  intros H. unfold executeThirdParty. rewrite H. simpl.
  destruct (tp_execute record w) as [res w']. eexists. split; [reflexivity|].
  simpl. auto.
Qed.

Lemma executeAllThirdParty_activated (record : ThirdPartyRecord X) between :
  forall st w,
    activated st = true ->
    exists w',
      executeAllThirdParty record between st w
        = (map (fun _ => Normal tt) between, (st, w')).
Proof.
  induction between as [|g rest IH]; intros st w H; cbn [executeAllThirdParty map].
  - now exists w.
  - rewrite executeThirdParty_activated by assumption.
    destruct (IH st (g w) H) as [w' ->]. now exists w'.
Qed.

(** No run of [execute] calls calls the record's [execute] more than once. *)
Lemma third_party_execute_at_most_once (record : ThirdPartyRecord X) between st w :
  activated st = false -> executeCalls st = 0 ->
  executeCalls (fst (snd (executeAllThirdParty record between st w))) <= 1.
Proof.
  intros Ha Hc. destruct between as [|g rest]; cbn [executeAllThirdParty]; [simpl; lia|].
  destruct (executeThirdParty_first record st (g w) Ha) as (st' & -> & Ha' & _ & Hc').
  destruct (executeAllThirdParty_activated record rest st'
              (snd (tp_execute record (g w))) Ha') as [w2 ->].
  simpl. lia.
Qed.

(** Whatever the first call did, also if it threw, the calls after it
    return normally. *)
Lemma third_party_later_calls_return (record : ThirdPartyRecord X) g rest st w
    res ress final :
  activated st = false ->
  executeAllThirdParty record (g :: rest) st w = (res :: ress, final) ->
  res = fst (tp_execute record (g w)) /\
  Forall (fun r => r = Normal tt) ress.
Proof.
  intros Ha H. cbn [executeAllThirdParty] in H.
  destruct (executeThirdParty_first record st (g w) Ha) as (st' & E & Ha' & _).
  rewrite E in H.
  destruct (executeAllThirdParty_activated record rest st'
              (snd (tp_execute record (g w))) Ha') as [w2 Hall].
  rewrite Hall in H. inversion H; subst. split; [reflexivity|].
  now apply Forall_map_const.
Qed.

(** *** Validation of a third-party record's [exports] *)

Lemma typeof_string v : String.eqb (typeof v) "string" = isString v.
Proof. destruct v; reflexivity. Qed.

Lemma rejected_iff_not_array_of_strings v :
  negb (isArray v) || some (fun name => negb (String.eqb (typeof name) "string")) v
  = negb (isArrayOfStrings v).
Proof.
  destruct v; try reflexivity. simpl.
  induction xs as [|x xs IH]; simpl; [reflexivity|].
  rewrite typeof_string, IH. now destruct (isString x).
Qed.

(** An absent or otherwise falsy [exports] is not validated: the instance
    is made, without exports. *)
Lemma falsy_exports_accepted moduleSpecifier (record : ThirdPartyRecord X) s :
  truthy (tp_exports record) = false ->
  makeThirdPartyModuleInstance moduleSpecifier record s =
    (Normal {| tp_notifiers := []; tp_properties := []; tp_active := false;
               activated := false; executeCalls := 0 |}, s).
Proof. intros H. unfold makeThirdPartyModuleInstance. now rewrite H. Qed.

(** C9, as amended.  When a third-party module instance is constructed from
    a static module record whose [exports] property is truthy and is not an
    array of strings, [makeThirdPartyModuleInstance] throws a TypeError, and
    the message ends with the module specifier; nothing has been created. *)
Theorem third_party_exports_validated moduleSpecifier
    (record : ThirdPartyRecord X) (s : Store) :
  truthy (tp_exports record) = true ->
  isArrayOfStrings (tp_exports record) = false ->
  makeThirdPartyModuleInstance moduleSpecifier record s =
    (Throw (JErr TypeError
              ("SES third-party static module record " +:+ q "exports" +:+
               " property must be an array of strings for module " +:+
               moduleSpecifier)), s).
Proof.
  intros Ht Ha. unfold makeThirdPartyModuleInstance.
  rewrite Ht, rejected_iff_not_array_of_strings, Ha. reflexivity.
Qed.

(** *** [export *]: candidates, ambiguity and [default] *)

Lemma addCandidates_false name es (candidateAll : CandidateAll) :
  obj_get name candidateAll = Some None ->
  obj_get name (addCandidates es candidateAll) = Some None.
Proof.
  revert candidateAll. induction es as [|[k n] es IH]; intros c H; simpl;
    [assumption|].
  apply IH. destruct (String.eqb_spec name k) as [->|Hne].
  - rewrite H. apply obj_get_set_eq.
  - destruct (obj_get k c); now rewrite obj_get_set_ne.
Qed.

Lemma addCandidates_defined name es (candidateAll : CandidateAll) x :
  obj_get name candidateAll = Some x ->
  exists y, obj_get name (addCandidates es candidateAll) = Some y.
Proof.
  revert candidateAll x. induction es as [|[k n] es IH]; intros c x H; simpl;
    [now exists x|].
  destruct (String.eqb_spec name k) as [->|Hne].
  - rewrite H. eapply IH. apply obj_get_set_eq.
  - eapply (IH _ x). destruct (obj_get k c); now rewrite obj_get_set_ne.
Qed.

(** A source that provides [name] makes it a candidate, or ambiguous when it
    already was one. *)
Lemma addCandidates_provided name es (candidateAll : CandidateAll) :
  obj_has name es = true ->
  exists y,
    obj_get name (addCandidates es candidateAll) = Some y /\
    (obj_get name candidateAll <> None -> y = None).
Proof.
  unfold obj_has. revert candidateAll.
  induction es as [|[k n] es IH]; intros c H; simpl in H; [discriminate|].
  cbn [addCandidates].
  destruct (String.eqb_spec name k) as [->|Hne].
  - destruct (obj_get k c) as [x|] eqn:E.
    + exists None. split; [|reflexivity].
      apply addCandidates_false, obj_get_set_eq.
    + destruct (addCandidates_defined k es (obj_set k (Some n) c) (Some n)
                  (obj_get_set_eq _ _ _)) as [y Hy].
      exists y. split; [exact Hy | congruence].
  - destruct (IH (match obj_get k c with
                  | Some _ => obj_set k None c
                  | None => obj_set k (Some n) c
                  end) H) as [y [Hy Hamb]].
    exists y. split; [exact Hy|]. intros Hc. apply Hamb.
    destruct (obj_get k c); now rewrite obj_get_set_ne.
Qed.

Lemma addCandidates_NoDup es (candidateAll : CandidateAll) :
  NoDup (obj_keys candidateAll) -> NoDup (obj_keys (addCandidates es candidateAll)).
Proof.
  revert candidateAll. induction es as [|[k n] es IH]; intros c H; simpl;
    [assumption|].
  apply IH. destruct (obj_get k c); now apply obj_set_NoDup.
Qed.

Lemma mergeAll_false name entries (candidateAll : CandidateAll) :
  obj_get name candidateAll = Some None ->
  obj_get name (mergeAll entries candidateAll) = Some None.
Proof.
  revert candidateAll. induction entries as [|es entries IH]; intros c H; simpl;
    [assumption|].
  apply IH. now apply addCandidates_false.
Qed.

Lemma mergeAll_NoDup entries (candidateAll : CandidateAll) :
  NoDup (obj_keys candidateAll) -> NoDup (obj_keys (mergeAll entries candidateAll)).
Proof.
  revert candidateAll. induction entries as [|es entries IH]; intros c H; simpl;
    [assumption|].
  apply IH. now apply addCandidates_NoDup.
Qed.

Lemma mergeAll_ambiguous name entries (candidateAll : CandidateAll) :
  (2 <= providers name entries \/
   (1 <= providers name entries /\ obj_get name candidateAll <> None)) ->
  obj_get name (mergeAll entries candidateAll) = Some None.
Proof.
  unfold providers. revert candidateAll.
  induction entries as [|es entries IH]; intros c H; simpl in H.
  - destruct H as [H|[H _]]; lia.
  - cbn [mergeAll fold_left]. fold (mergeAll entries (addCandidates es c)).
    destruct (obj_has name es) eqn:Ehas; simpl in H.
    + destruct (addCandidates_provided name es c Ehas) as [y [Hy Hamb]].
      destruct H as [H|[_ H]].
      * apply IH. right. split; [lia | congruence].
      * apply mergeAll_false. rewrite Hy. f_equal. now apply Hamb.
    + apply IH. destruct H as [H|[H Hc]]; [now left|]. right. split; [exact H|].
      destruct (obj_get name c) as [x|] eqn:E; [|contradiction].
      destruct (addCandidates_defined name es c x E) as [y Hy]. congruence.
Qed.

(** The candidates the first loop ends with are those of the [export *]
    sources it enumerated. *)
Lemma importsLoop_mergeAll smr importedInstances fuel record :
  forall (candidateAll : CandidateAll) (w : World X) final w',
    importsLoop smr importedInstances fuel record candidateAll w
      = (Normal final, w') ->
    final = mergeAll (starEntries smr importedInstances fuel record w) candidateAll.
Proof.
  induction record as [|[specifier importUpdaters] rest IH];
    intros c w final w' H; cbn [importsLoop starEntries] in *.
  - inversion H; subst. reflexivity.
  - unfold bind in H.
    destruct (visit importedInstances fuel specifier importUpdaters w)
      as [[instance|e|f] w1]; try discriminate.
    apply IH in H. rewrite H. unfold mergeAll. rewrite fold_left_app.
    now destruct (includes specifier (reexports smr)).
Qed.

(** The second loop only touches the names that are candidates. *)
Lemma forwardCandidates_other deferred fuel candidates name :
  (forall n, ~ In (name, Some n) candidates) ->
  forall (st : InstanceState X) w res st' w',
    forwardCandidates deferred fuel candidates (st, w) = (res, (st', w')) ->
    obj_get name (notifiers (tables st')) = obj_get name (notifiers (tables st)) /\
    obj_get name (exportsProps (tables st'))
      = obj_get name (exportsProps (tables st)) /\
    namespace st' = namespace st.
Proof.
  induction candidates as [|[importName notify] rest IH];
    intros Hnot st w res st' w' H; cbn [forwardCandidates] in H.
  - inversion H; subst. auto.
  - assert (Hrest : forall n, ~ In (name, Some n) rest)
      by (intros n Hin; apply (Hnot n); now right).
    destruct (obj_get importName (notifiers (tables st))) as [n0|] eqn:E0;
      [now apply (IH Hrest) in H|].
    destruct notify as [notify|]; [|now apply (IH Hrest) in H].
    assert (Hne : name <> importName)
      by (intros ->; apply (Hnot notify); now left).
    destruct (onStore _ w) as [[[]|e|f] w1].
    + apply (IH Hrest) in H. destruct H as (H1 & H2 & H3).
      simpl in H1, H2, H3. rewrite H1, H2, H3.
      now rewrite !obj_get_set_ne by assumption.
    + inversion H; subst. simpl. now rewrite obj_get_set_ne by assumption.
    + inversion H; subst. simpl. now rewrite obj_get_set_ne by assumption.
Qed.

(** Installing the exports only defines properties that are exports. *)
Lemma installExports_other exports name ks :
  obj_get name exports = None ->
  forall n res n',
    installExports exports ks n = (res, n') ->
    obj_get name (properties n') = obj_get name (properties n).
Proof.
  intros Hname. induction ks as [|k ks IH]; intros n res n' H;
    cbn [installExports] in H.
  - inversion H; subst. reflexivity.
  - destruct (obj_get k exports) as [g|] eqn:Ek; [|now apply IH in H].
    assert (Hne : name <> k) by congruence.
    unfold bind in H. unfold defineProperty in H.
    destruct (obj_get k (properties n)) as [g'|].
    + destruct (decide (g = g')); [now apply IH in H | now inversion H].
    + destruct (frozen n); [now inversion H|].
      apply IH in H. rewrite H. simpl. now apply obj_get_app_ne.
Qed.

(** A name that no longer is a candidate when the first loop ends is not
    made an export by [imports]. *)
Lemma imports_not_forwarded deferred smr importedInstances fuel record name
    (st st' : InstanceState X) w w' res :
  imports deferred smr importedInstances fuel record (st, w) = (res, (st', w')) ->
  obj_get name
    (mergeAll (starEntries smr importedInstances fuel record w) [("default", None)])
    = Some None ->
  obj_get name (notifiers (tables st')) = obj_get name (notifiers (tables st)) /\
  obj_get name (exportsProps (tables st'))
    = obj_get name (exportsProps (tables st)) /\
  (notExported name st -> notExported name st').
Proof.
  intros H Hamb. unfold imports in H.
  destruct (importsLoop smr importedInstances fuel record [("default", None)] w)
    as [[candidateAll|e|f] w1] eqn:E1;
    try (inversion H; subst; now auto).
  pose proof (importsLoop_mergeAll _ _ _ _ _ _ _ _ E1) as Hc.
  assert (Hnd : NoDup (obj_keys candidateAll)).
  { rewrite Hc. apply mergeAll_NoDup. simpl. apply NoDup_singleton. }
  assert (Hnot : forall n, ~ In (name, Some n) candidateAll).
  { intros n Hin. apply (obj_get_In _ _ _ Hnd) in Hin. congruence. }
  destruct (forwardCandidates deferred fuel candidateAll (st, w1))
    as [res2 [st2 w2]] eqn:E2.
  destruct (forwardCandidates_other _ _ _ _ Hnot _ _ _ _ _ E2) as (F1 & F2 & F3).
  assert (Hkeep : forall st3 : InstanceState X,
            tables st3 = tables st2 ->
            (obj_get name (exportsProps (tables st)) = None ->
             obj_get name (properties (namespace st)) = None ->
             obj_get name (properties (namespace st3)) = None) ->
            obj_get name (notifiers (tables st3)) = obj_get name (notifiers (tables st)) /\
            obj_get name (exportsProps (tables st3))
              = obj_get name (exportsProps (tables st)) /\
            (notExported name st -> notExported name st3)).
  { intros st3 Ht Hn. rewrite Ht. split; [exact F1|]. split; [exact F2|].
    intros (N1 & N2 & N3). unfold notExported. rewrite Ht, F1, F2. auto. }
  destruct res2 as [[]|e|f]; try (inversion H; subst; apply Hkeep;
    [reflexivity | intros _ Hp; now rewrite F3]).
  destruct (installExports (exportsProps (tables st2)) _ (namespace st2))
    as [res3 n3] eqn:E3.
  assert (Hprops : obj_get name (exportsProps (tables st)) = None ->
                   obj_get name (properties (namespace st)) = None ->
                   obj_get name (properties n3) = None).
  { intros Hx Hp. rewrite <- F2 in Hx.
    rewrite (installExports_other _ _ _ Hx _ _ _ E3). now rewrite F3. }
  destruct res3 as [[]|e|f]; inversion H; subst;
    (apply Hkeep; [reflexivity | exact Hprops]).
Qed.

(** X25.  In the imports step of a parsed module instance: a name for
    which two or more [export *] sources (the specifiers listed in
    [reexports]) hold a notifier at the moment [imports] runs through their
    notifiers (in an import cycle, a source that is still running holds
    only what it had when it started), and that the module itself does not
    define, is absent from the exports and notifiers of the instance; and
    [default] is never forwarded from an [export *] source: its notifier
    and export descriptor are as the module itself defined them, or
    absent. *)
Theorem ambiguous_star_exports_absent deferred smr importedInstances fuel record
    (st st' : InstanceState X) (w w' : World X) res :
  imports deferred smr importedInstances fuel record (st, w) = (res, (st', w')) ->
  (forall name,
     2 <= providers name (starEntries smr importedInstances fuel record w) ->
     notExported name st -> notExported name st') /\
  obj_get "default" (notifiers (tables st'))
    = obj_get "default" (notifiers (tables st)) /\
  obj_get "default" (exportsProps (tables st'))
    = obj_get "default" (exportsProps (tables st)) /\
  (notExported "default" st -> notExported "default" st').
Proof.
  intros H. split.
  - intros name H2.
    apply (imports_not_forwarded _ _ _ _ _ name _ _ _ _ _ H).
    apply mergeAll_ambiguous. now left.
  - apply (imports_not_forwarded _ _ _ _ _ "default" _ _ _ _ _ H).
    apply mergeAll_false. reflexivity.
Qed.

(** *** A missing export is a SyntaxError raised from [execute] *)

Lemma subscribe_app fuel (instance : ModuleInstance X) specifier ups1 ups2 w :
  subscribe fuel instance specifier (ups1 ++ ups2) w =
    match subscribe fuel instance specifier ups1 w with
    | (Normal _, w1) => subscribe fuel instance specifier ups2 w1
    | other => other
    end.
Proof.
  revert w. induction ups1 as [|[importName updaters] ups1 IH]; intros w;
    cbn [subscribe app]; [reflexivity|].
  destruct (obj_get importName (mi_notifiers instance w)) as [n|]; [|reflexivity].
  unfold bind.
  destruct (subscribeEach fuel n updaters w) as [[[]|e|f] w1];
    [apply IH | reflexivity | reflexivity].
Qed.

Lemma importsLoop_app smr importedInstances fuel pre post :
  forall (candidateAll : CandidateAll) (w : World X),
    importsLoop smr importedInstances fuel (pre ++ post) candidateAll w =
      match importsLoop smr importedInstances fuel pre candidateAll w with
      | (Normal c1, w1) => importsLoop smr importedInstances fuel post c1 w1
      | other => other
      end.
Proof.
  induction pre as [|[specifier importUpdaters] pre IH]; intros c w;
    cbn [importsLoop app]; [reflexivity|].
  unfold bind.
  destruct (visit importedInstances fuel specifier importUpdaters w)
    as [[instance|e|f] w1]; [apply IH | reflexivity | reflexivity].
Qed.

(** [imports] throws at the first requested name that the requested
    instance has no notifier for. *)
Lemma imports_missing_export deferred smr importedInstances fuel
    (st : InstanceState X) (w : World X)
    pre specifier importUpdaters post upre importName updaters upost
    instance candidateAll w1 w2 w3 :
  importUpdaters = upre ++ (importName, updaters) :: upost ->
  importedInstances specifier = Some instance ->
  importsLoop smr importedInstances fuel pre [("default", None)] w
    = (Normal candidateAll, w1) ->
  mi_execute instance w1 = (Normal tt, w2) ->
  subscribe fuel instance specifier upre w2 = (Normal tt, w3) ->
  obj_get importName (mi_notifiers instance w3) = None ->
  imports deferred smr importedInstances fuel
    (pre ++ (specifier, importUpdaters) :: post) (st, w)
  = (Throw (missingExport specifier importName), (st, w3)).
Proof.
  intros -> Hinst Hpre Hexec Hsub Hmiss. unfold imports.
  rewrite importsLoop_app, Hpre. cbn [importsLoop].
  unfold visit. rewrite Hinst. unfold bind. cbv beta. rewrite Hexec.
  rewrite subscribe_app, Hsub. cbn [subscribe].
  now rewrite Hmiss.
Qed.

(** C3, as amended.  During [execute] of a parsed module instance, when
    [imports] reaches a requested import name for which the dependency
    instance of the requested specifier has no notifier, that is when the
    [execute] of that and of the earlier dependencies and the subscriptions
    made before have returned, a SyntaxError is thrown from [execute], with
    the message ['The requested module X does not provide an export named
    Y'] for the specifier X and the import name Y; the failure is cached and
    every later [execute] throws it again. *)
Theorem missing_export_syntax_error deferred smr importedInstances fuel
    (st : InstanceState X) (w : World X) functor
    pre specifier importUpdaters post upre importName updaters upost
    instance candidateAll w1 w2 w3 :
  optFunctor st = Some functor -> didThrow st = false ->
  updateRecord functor = pre ++ (specifier, importUpdaters) :: post ->
  importUpdaters = upre ++ (importName, updaters) :: upost ->
  importedInstances specifier = Some instance ->
  importsLoop smr importedInstances fuel pre [("default", None)] w
    = (Normal candidateAll, w1) ->
  mi_execute instance w1 = (Normal tt, w2) ->
  subscribe fuel instance specifier upre w2 = (Normal tt, w3) ->
  obj_get importName (mi_notifiers instance w3) = None ->
  let error :=
    JErr SyntaxError
      ("The requested module '" +:+ specifier +:+
       "' does not provide an export named '" +:+ importName +:+ "'") in
  exists st',
    execute deferred smr importedInstances fuel (st, w) = (Throw error, (st', w3)) /\
    forall w4,
      execute deferred smr importedInstances fuel (st', w4)
        = (Throw error, (st', w4)).
Proof.
  intros Hf Hd Hrec Hups Hinst Hpre Hexec Hsub Hmiss error.
  pose (st1 := {| tables := tables st; namespace := namespace st;
                  optFunctor := @None (Functor X); didThrow := didThrow st;
                  thrownError := thrownError st;
                  functorCalls := S (functorCalls st) |}).
  assert (Himp :
    callFunctor deferred smr importedInstances fuel functor (st1, w)
      = (Throw error, (st1, w3))).
  { unfold callFunctor, bind. rewrite Hrec.
    rewrite (imports_missing_export deferred smr importedInstances fuel st1 w
               pre specifier importUpdaters post upre importName updaters upost
               instance candidateAll w1 w2 w3 Hups Hinst Hpre Hexec Hsub Hmiss).
    reflexivity. }
  eexists. split.
  - unfold execute. rewrite Hf. fold st1. rewrite Himp. reflexivity.
  - intros w4. rewrite execute_consumed by reflexivity. reflexivity.
Qed.

End InstanceFacts.
(** * Properties of compartments *)

Section CompartmentFacts.

Import Compartment.

(** *** Validation of the module map *)

Lemma string_not_recognized r v :
  String.eqb (typeof v) "string" = true -> recognized r v = false.
Proof. destruct v; simpl; try discriminate. reflexivity. Qed.

Lemma validateModuleMap_normal q r entries :
  validateModuleMap q r entries = Normal tt <->
  forallb (fun e => recognized r (snd e)) entries = true.
Proof.
  induction entries as [|[specifier v] entries IH]; simpl; [tauto|].
  unfold recognized at 1.
  destruct (String.eqb (typeof v) "string") eqn:Es.
    pose proof (string_not_recognized r v Es) as Hr. unfold recognized in Hr.
    destruct (aliasOf r v); [discriminate|]. simpl. split; discriminate.
  - destruct (aliasOf r v); simpl; [exact IH | split; discriminate].
Qed.

(** Validation stops at the first entry that is not recognized, with a
    TypeError for a string and a ReferenceError otherwise. *)
Lemma validateModuleMap_first q r pre specifier v post :
  forallb (fun e => recognized r (snd e)) pre = true ->
  recognized r v = false ->
  validateModuleMap q r (pre ++ (specifier, v) :: post) =
    Throw (if isString v
           then cannotMapString q specifier (Instance.stringOf v)
           else cannotMapUnknown q specifier).
Proof.
  intros Hpre Hv. induction pre as [|[s0 v0] pre IH]; simpl.
  - rewrite typeof_string. unfold recognized in Hv.
    destruct (isString v); [reflexivity|].
    destruct (aliasOf r v); [discriminate | reflexivity].
  - simpl in Hpre. apply andb_true_iff in Hpre as [H0 Hpre].
    destruct (String.eqb (typeof v0) "string") eqn:Es.
    + rewrite (string_not_recognized r v0 Es) in H0. discriminate.
    + unfold recognized in H0. destruct (aliasOf r v0); [now apply IH | discriminate].
Qed.

(** C6, as amended.  For every module map passed to the Compartment
    constructor (called with [new]), construction fails synchronously at the
    first entry, in the order of [entries], whose value is not a recognized
    exports proxy: with a TypeError if that value is a string, with a
    ReferenceError if it is another value that is not registered in the
    module-aliases registry; nothing is recorded for the compartment.  A
    compartment is only constructed when every value of the module map is a
    recognized exports proxy.  The same holds for the constructor of the
    earlier module shim, once its global object is built. *)
Theorem moduleMap_validation isValidIdentifierName quote globalSetup
    (this : nat) (entries : list (string * JsVal)) (o : Options) (r : Realm) :
  (forall pre specifier v post,
     entries = pre ++ (specifier, v) :: post ->
     forallb (fun e => recognized r (snd e)) pre = true ->
     recognized r v = false ->
     (exists msg,
        Compartment isValidIdentifierName quote globalSetup this true entries o r
          = (Throw (JErr (if isString v then TypeError else ReferenceError) msg), r)) /\
     (globalSetup = Normal tt ->
      exists msg,
        CompartmentModuleShim isValidIdentifierName globalSetup this entries o r
          = (Throw (JErr (if isString v then TypeError else ReferenceError) msg), r)))
  /\
  (forall r',
     Compartment isValidIdentifierName quote globalSetup this true entries o r
       = (Normal tt, r') \/
     CompartmentModuleShim isValidIdentifierName globalSetup this entries o r
       = (Normal tt, r') ->
     forallb (fun e => recognized r (snd e)) entries = true).
Proof.
  split.
  - intros pre specifier v post -> Hpre Hv. split.
    + unfold Compartment. simpl.
      rewrite (validateModuleMap_first quote r pre specifier v post Hpre Hv).
      destruct (isString v); eexists; reflexivity.
    + intros ->. unfold CompartmentModuleShim.
      rewrite (validateModuleMap_first q r pre specifier v post Hpre Hv).
      destruct (isString v); eexists; reflexivity.
  - intros r' [H|H].
    + unfold Compartment in H. simpl in H.
      destruct (validateModuleMap quote r entries) as [[]|e|f] eqn:E;
        try discriminate.
      now apply validateModuleMap_normal in E.
    + unfold CompartmentModuleShim in H.
      destruct globalSetup as [[]|e|f]; try discriminate.
      destruct (validateModuleMap q r entries) as [[]|e|f] eqn:E;
        try discriminate.
      now apply validateModuleMap_normal in E.
Qed.

(** *** Validation of the names of [globalLexicals] *)

Lemma invalidNamesOf_In isValidIdentifierName lexicals name :
  In name (obj_keys lexicals) -> isValidIdentifierName name = false ->
  In name (invalidNamesOf isValidIdentifierName lexicals).
Proof.
  intros Hin Hbad. unfold invalidNamesOf. apply filter_In. split; [assumption|].
  now rewrite Hbad.
Qed.

(** C7, as amended.  If an own property name of the [globalLexicals] option
    is not a valid identifier name, and the validation of the module map
    before it has passed, the Compartment constructor (called with [new])
    fails synchronously with an Error whose message lists the invalid names,
    that name among them, joined by [", "]; nothing is recorded for the
    compartment.  The same holds for the constructor of the earlier module
    shim and for the constructor without module system, which does not look
    at the module map, once their global object is built. *)
Theorem invalid_lexical_names_rejected isValidIdentifierName quote globalSetup
    (this : nat) (entries : list (string * JsVal)) (o : Options) (r : Realm)
    (name : string) :
  In name (obj_keys (opt_globalLexicals o)) ->
  isValidIdentifierName name = false ->
  let invalidNames := invalidNamesOf isValidIdentifierName (opt_globalLexicals o) in
  let error :=
    JErr Error
      ("Cannot create compartment with invalid names for global lexicals: " +:+
       String.concat ", " invalidNames +:+
       "; these names would not be lexically mentionable") in
  In name invalidNames /\
  (validateModuleMap quote r entries = Normal tt ->
   Compartment isValidIdentifierName quote globalSetup this true entries o r
     = (Throw error, r)) /\
  (globalSetup = Normal tt ->
   validateModuleMap q r entries = Normal tt ->
   CompartmentModuleShim isValidIdentifierName globalSetup this entries o r
     = (Throw error, r)) /\
  (globalSetup = Normal tt ->
   CompartmentNoModules isValidIdentifierName globalSetup this entries o r
     = (Throw error, r)).
Proof.
  intros Hin Hbad invalidNames error.
  assert (Hn : In name invalidNames) by now apply invalidNamesOf_In.
  assert (Hlen : negb (Nat.eqb (length invalidNames) 0) = true).
  { destruct invalidNames; [destruct Hn | reflexivity]. }
  split; [exact Hn|]. split; [|split].
  - intros Hv. unfold Compartment. simpl. rewrite Hv.
    fold invalidNames. rewrite Hlen. reflexivity.
  - intros -> Hv. unfold CompartmentModuleShim. rewrite Hv.
    fold invalidNames. rewrite Hlen. reflexivity.
  - intros ->. unfold CompartmentNoModules. fold invalidNames.
    rewrite Hlen. reflexivity.
Qed.

(** *** [import] is [load], then [importNow] *)

Section Methods.

Context {W : Type}.
Variable load : nat -> string -> SM (Realm * W) unit.
Variable link : nat -> string -> SM (Realm * W) (Linked W).
Variable otherJobs : Realm * W -> Realm * W.

Lemma assertModuleHooks_state this (st : Realm * W) :
  snd (assertModuleHooks W this st) = st.
Proof.
  unfold assertModuleHooks. destruct (privateFields (fst st) !! this) as [f|];
    [|reflexivity].
  now destruct (negb _ || negb _).
Qed.

(** C8.  For every string specifier [S], [import(S)] is [load] for [S]
    followed by [importNow(S)]: it settles as the promise of [load(S)]
    chained with a reaction that calls [importNow(S)] and boxes the result.
    When the hooks are there: if [load] rejects, [import] rejects with the
    same reason; if [load] is fulfilled and [importNow(S)] then returns an
    exports proxy, [import] is fulfilled with [{ namespace }] holding
    exactly that proxy; and the proxy [importNow] returns is that of the
    linked root instance, after its [execute]. *)
Theorem import_is_load_then_importNow (this : nat) (S : string)
    (st : Realm * W) :
  import W load link otherJobs this (JStr S) st
    = import_spec W load link otherJobs this (JStr S) st /\
  (assertModuleHooks W this st = (Normal tt, st) ->
   (forall e st1,
      load this S st = (Throw e, st1) ->
      import W load link otherJobs this (JStr S) st = (Throw e, st1)) /\
   (forall st1 proxy st2,
      load this S st = (Normal tt, st1) ->
      importNow W link this (JStr S) (otherJobs st1) = (Normal proxy, st2) ->
      import W load link otherJobs this (JStr S) st
        = (Normal {| namespace := proxy |}, st2))) /\
  (forall st1 instance st2 st3,
     assertModuleHooks W this st1 = (Normal tt, st1) ->
     link this S st1 = (Normal instance, st2) ->
     execute instance st2 = (Normal tt, st3) ->
     importNow W link this (JStr S) st1 = (Normal (exportsProxy instance), st3)).
Proof.
  split; [|split].
  - unfold import, import_spec, loadMethod, andThen. simpl. unfold bind.
    destruct (assertModuleHooks W this st) as [[[]|e|f] st0]; try reflexivity.
  - intros Hh. split.
    + intros e st1 Hl. unfold import, andThen. simpl. unfold bind.
      now rewrite Hh, Hl.
    + intros st1 proxy st2 Hl Hn. unfold import, andThen. simpl.
      unfold bind at 1. rewrite Hh. unfold bind at 1. rewrite Hl.
      unfold bind at 1. rewrite Hn. reflexivity.
  - intros st1 instance st2 st3 Hh Hl He. unfold importNow. simpl.
    unfold bind. now rewrite Hh, Hl, He.
Qed.

End Methods.

End CompartmentFacts.
(** * The statements on the example programs *)

Section Examples.

Import Binding Instance Scenario.

Example bindings_cells :
  cells bindings = [Fixed xBinding; Live yBinding; Live zBinding] /\
  calls bindings = [].
Proof. split; reflexivity. Qed.

(** C4 on the example: [x] and [y] are in their tdz, reading [x] throws a
    ReferenceError, [init] of [x] with 7 calls the two queued updaters on 7,
    and [update] of [y] with 8 calls its updater on 8. *)
Lemma binding_tdz_invariant_witness :
  (exists msg, fixed_get 0 bindings = (Throw (JErr ReferenceError msg), bindings)) /\
  (exists s',
     init 1 0 (JNum 7) bindings = (Normal (JNum 7), s') /\
     calls s' = [(UAssign (ImportVar 1), JNum 7); (UAssign (ImportVar 2), JNum 7)]) /\
  (exists msg, set 1 1 (JNum 8) bindings = (Throw (JErr ReferenceError msg), bindings)) /\
  (exists s',
     update 1 1 (JNum 8) bindings = (Normal tt, s') /\
     calls s' = [(UAssign (ImportVar 3), JNum 8)]).
Proof.
  destruct (binding_tdz_invariant 1 bindings 0) as [HF _].
  destruct (HF xBinding _ eq_refl eq_refl eq_refl) as [Hget Hinit].
  destruct (Hinit (JNum 7)) as (res & s' & E & _ & _ & Htot).
  destruct (Htot eq_refl (le_n 1)) as [-> Hcalls].
  destruct (binding_tdz_invariant 1 bindings 1) as [_ HL].
  destruct (HL yBinding eq_refl) as [Htdz Hupd].
  destruct (Htdz eq_refl) as [_ Hset].
  destruct (Hupd (JNum 8)) as (res2 & s2 & E2 & _ & _ & Htot2).
  destruct (Htot2 eq_refl (le_n 1)) as [-> Hcalls2].
  split; [exact Hget|]. split; [exists s'; split; [exact E | exact Hcalls]|].
  split; [exact (Hset (JNum 8))|]. exists s2. split; [exact E2 | exact Hcalls2].
Defined.

(** C5, the claim as stated, fails on the example: [z] is initialized, yet
    [notify] called with the [update] of [z] returns with the store as it
    was, so that updater has not been called on the current value 1 and is
    not among the updaters of [z]. *)
Lemma notify_own_update_counterexample :
  cells bindings !! 2 = Some (Live zBinding) /\
  l_tdz zBinding = false /\
  notifyLive 1 2 (UUpdate 2) bindings = (Normal tt, bindings) /\
  ~ In (UUpdate 2, l_value zBinding) (calls bindings) /\
  ~ In (UUpdate 2) (l_updaters zBinding).
Proof.
  split; [reflexivity|]. split; [reflexivity|]. split; [reflexivity|].
  split; intros [].
Qed.

(** C5, as amended, on the example: another updater is queued by [x]
    without a call, and is registered and called at once on 1 by [z]. *)
Lemma notify_subscribes_witness :
  (exists s',
     notifyFixed 1 0 (UAssign (ImportVar 9)) bindings = (Normal tt, s') /\
     calls s' = [] /\
     cells s' !! 0 =
       Some (Fixed {| f_localName := "x"; f_value := JUndefined; f_tdz := true;
                      f_optUpdaters :=
                        Some [UAssign (ImportVar 1); UAssign (ImportVar 2);
                              UAssign (ImportVar 9)] |})) /\
  (exists res s' rest,
     notifyLive 1 2 (UAssign (ImportVar 9)) bindings = (res, s') /\
     cells s' !! 2 =
       Some (Live {| l_exportName := "z"; l_localName := "z"; l_value := JNum 1;
                     l_tdz := false; l_updaters := [UAssign (ImportVar 9)] |}) /\
     calls s' = (UAssign (ImportVar 9), JNum 1) :: rest).
Proof.
  destruct (notify_subscribes 1 bindings 0 (UAssign (ImportVar 9))) as [HF _].
  destruct (HF xBinding eq_refl ltac:(discriminate)) as [Htdz _].
  destruct (Htdz _ eq_refl eq_refl) as [s1 H1].
  destruct (notify_subscribes 1 bindings 2 (UAssign (ImportVar 9))) as (_ & HL & _).
  destruct (HL zBinding eq_refl ltac:(discriminate)) as (res & s2 & E & Hcell & _ & Hcall).
  destruct (Hcall eq_refl (le_n 1)) as [rest Hrest].
  split; [exists s1; exact H1|].
  exists res, s2, rest. split; [exact E|]. split; [exact Hcell | exact Hrest].
Defined.

(** C10 on the example: the module that re-exports [x] from itself has only
    the importer among the updaters of [x], and [update] of [x] returns. *)
Lemma notify_own_sink_is_noop_witness :
  let s := runOps 1 selfReexportOps emptyStore in
  notifyLive 1 0 (UUpdate 0) s = (Normal tt, s) /\
  noSelfSubscription s /\
  fst (update 1 0 (JNum 5) s) = Normal tt.
Proof.
  intros s.
  destruct (notify_own_sink_is_noop 1 0 s) as (_ & Hlive & Hinv & Hret).
  split; [exact Hlive|]. split; [exact (Hinv selfReexportOps)|].
  exact (Hret selfReexportOps
           {| l_exportName := "x"; l_localName := "x"; l_value := JUndefined;
              l_tdz := true; l_updaters := [UAssign (ImportVar 1)] |}
           (JNum 5) (le_n 1) eq_refl eq_refl).
Defined.

(** Executing ./main.js executes ./leaf.js first, bottom up: [entity] is
    initialized with 42, and the importer's updater, subscribed afterwards,
    is called at once on 42; the namespace of ./leaf.js has the property
    [entity] and is frozen and active. *)
Example main_imports_leaf :
  let '(res, (st, w)) :=
    execute mainDeferred importingRecord mainLinked 1 (mainInstance, leafWorld) in
  res = Normal tt /\
  functorCalls st = 1 /\
  calls (store w) = [(UAssign (ImportVar 0), JNum 42)] /\
  fixed_get 0 (store w) = (Normal (JNum 42), store w) /\
  namespace (fst (others w))
    = {| properties := [("entity", GetFixed 0)]; frozen := true; active := true |} /\
  functorCalls (fst (others w)) = 1.
Proof. vm_compute. repeat split. Qed.

(** C1 on a third-party instance whose record's [execute] throws: the
    first [execute] throws that error, the record's [execute] has been
    called once, and the second [execute] returns normally instead of
    throwing the error again. *)
Theorem third_party_execute_not_sticky :
  exists st1,
    executeThirdParty throwingRecord (throwingInstance, world0)
      = (Throw boom, (st1, world0)) /\
    executeCalls st1 = 1 /\
    executeThirdParty throwingRecord (st1, world0) = (Normal tt, (st1, world0)).
Proof. eexists. repeat split. Qed.

(** On the same input a parsed instance is sticky: when the module body
    throws, every [execute] throws that error. *)
Example parsed_execute_sticky_example :
  let functor := {| updateRecord := []; body := throw boom |} in
  let st := fst (makeModuleInstance mainDeferred importingRecord functor
                   (store world0)) in
  fst (executeAll mainDeferred importingRecord (linked instanceB) 1
         [id; id; id] st world0)
  = [Throw boom; Throw boom; Throw boom].
Proof. reflexivity. Qed.

(** X25 on the example: ./a.js and ./b.js both provide [x], so [x] is not
    exported; neither is the [default] of ./b.js; [y] is forwarded from
    ./a.js. *)
Lemma ambiguous_star_exports_absent_witness :
  let st' :=
    fst (snd (imports mainDeferred starRecord (linked instanceB) 1
                (updateRecord starFunctor) (starInstance, world0))) in
  notExported "x" st' /\ notExported "default" st' /\
  obj_get "y" (notifiers (tables st')) = Some (NotifyPlain 1) /\
  obj_keys (properties (namespace st')) = ["y"].
Proof.
  intros st'.
  pose proof (ambiguous_star_exports_absent mainDeferred starRecord
                (linked instanceB) 1 (updateRecord starFunctor)
                starInstance st' world0 _ _ eq_refl) as (Hamb & _ & _ & Hdef).
  split; [|split; [|split; reflexivity]].
  - apply (Hamb "x"); [exact (le_n 2) | repeat split].
  - apply Hdef. repeat split.
Defined.

(** C3, the claim as stated, fails on the example: ./b.js has no notifier
    for the requested name [missing], and its module body throws; [execute]
    of the importing instance throws that error, which is no SyntaxError. *)
Lemma missing_export_counterexample :
  (forall w, obj_get "missing" (mi_notifiers instanceBThrowing w) = None) /\
  fst (execute mainDeferred importingRecord (linked instanceBThrowing) 1
         (importingInstance, world0)) = Throw (JErr Error "boom") /\
  errorClassOf (JErr Error "boom") <> Some SyntaxError.
Proof. split; [reflexivity|]. split; [reflexivity | discriminate]. Qed.

(** C3, as amended, on the example: the body of ./b.js returns, and
    [execute] of the importing instance throws the SyntaxError. *)
Lemma missing_export_syntax_error_witness :
  exists st',
    execute mainDeferred importingRecord (linked instanceB) 1
      (importingInstance, world0)
    = (Throw (JErr SyntaxError
                "The requested module './b.js' does not provide an export named 'missing'"),
       (st', world0)) /\
    forall w4,
      execute mainDeferred importingRecord (linked instanceB) 1 (st', w4)
      = (Throw (JErr SyntaxError
                  "The requested module './b.js' does not provide an export named 'missing'"),
         (st', w4)).
Proof.
  exact (missing_export_syntax_error mainDeferred importingRecord
           (linked instanceB) 1 importingInstance world0 importingFunctor
           [] "./b.js" [("missing", [UAssign (ImportVar 0)])] []
           [] "missing" [UAssign (ImportVar 0)] []
           instanceB [("default", None)] world0 world0 world0
           eq_refl eq_refl eq_refl eq_refl eq_refl eq_refl eq_refl eq_refl eq_refl).
Defined.

(** C9, the claim as stated, fails on the example: [null], [false], [0] and
    the empty string are not arrays of strings, yet the instance is made. *)
Lemma falsy_exports_counterexample :
  Forall
    (fun exports =>
       isArrayOfStrings exports = false /\
       makeThirdPartyModuleInstance "./native.js" (recordWithExports exports)
         emptyStore
       = (Normal freshThirdParty, emptyStore))
    [JNull; JBool false; JNum 0; JStr ""].
Proof. repeat constructor. Qed.

(** C9, as amended, on the example: a string and an array holding a number
    are rejected. *)
Lemma third_party_exports_validated_witness :
  Forall
    (fun exports =>
       exists prefix,
         makeThirdPartyModuleInstance "./native.js" (recordWithExports exports)
           emptyStore
         = (Throw (JErr TypeError (prefix +:+ "./native.js")), emptyStore))
    [JStr "value"; JArray [JStr "value"; JNum 1]].
Proof.
  constructor; [|constructor; [|constructor]];
    exists ("SES third-party static module record " +:+ q "exports" +:+
            " property must be an array of strings for module ").
  - exact (third_party_exports_validated "./native.js"
             (recordWithExports (JStr "value")) emptyStore eq_refl eq_refl).
  - exact (third_party_exports_validated "./native.js"
             (recordWithExports (JArray [JStr "value"; JNum 1])) emptyStore
             eq_refl eq_refl).
Defined.

(** C6, the claim as stated, fails on the example: the value of the second
    entry is a string, yet construction fails with a ReferenceError, that
    of the first entry, whose value is an object that is not registered. *)
Lemma moduleMap_validation_counterexample :
  let moduleMap := [("a", JObject 7); ("b", JStr "./b.js")] in
  exists msg,
    Compartment.Compartment Compartment.matchesIdentifierPattern q (Normal tt)
      2 true moduleMap (someOptions []) realm0
    = (Throw (JErr ReferenceError msg), realm0) /\
    isString (JStr "./b.js") = true.
Proof. eexists. split; reflexivity. Qed.

(** C6, as amended, on the example: the first entry is recognized, the
    second is a string: TypeError; with an unregistered object in its place:
    ReferenceError. *)
Lemma moduleMap_validation_witness :
  (exists msg,
     Compartment.Compartment Compartment.matchesIdentifierPattern q (Normal tt)
       2 true [("ok", JObject 5); ("bad", JStr "./b.js")] (someOptions []) realm0
     = (Throw (JErr TypeError msg), realm0)) /\
  (exists msg,
     Compartment.CompartmentModuleShim Compartment.matchesIdentifierPattern
       (Normal tt) 2 [("ok", JObject 5); ("bad", JObject 7)] (someOptions []) realm0
     = (Throw (JErr ReferenceError msg), realm0)).
Proof.
  split.
  - destruct (moduleMap_validation Compartment.matchesIdentifierPattern q
                (Normal tt) 2 [("ok", JObject 5); ("bad", JStr "./b.js")]
                (someOptions []) realm0) as [H _].
    destruct (H [("ok", JObject 5)] "bad" (JStr "./b.js") [] eq_refl eq_refl eq_refl)
      as [H1 _].
    exact H1.
  - destruct (moduleMap_validation Compartment.matchesIdentifierPattern q
                (Normal tt) 2 [("ok", JObject 5); ("bad", JObject 7)]
                (someOptions []) realm0) as [H _].
    destruct (H [("ok", JObject 5)] "bad" (JObject 7) [] eq_refl eq_refl eq_refl)
      as [_ H2].
    exact (H2 eq_refl).
Defined.

(** C7, the claim as stated, fails on the example: [a-b] is not a valid
    identifier name, but the module map maps to a string, and construction
    fails with the TypeError of the module map, whose message does not list
    [a-b]; and when the module map is valid, what is thrown is an Error, not
    a TypeError. *)
Lemma invalid_lexical_names_counterexample :
  Compartment.matchesIdentifierPattern "a-b" = false /\
  (let thrown :=
     fst (Compartment.Compartment Compartment.matchesIdentifierPattern q
            (Normal tt) 2 true [("m", JStr "./m.js")]
            (someOptions [("a-b", JNum 1)]) realm0) in
   thrown = Throw (Compartment.cannotMapString q "m" "./m.js") /\
   String.index 0 "a-b" (messageOf (Compartment.cannotMapString q "m" "./m.js"))
     = None) /\
  (exists msg,
     Compartment.Compartment Compartment.matchesIdentifierPattern q (Normal tt)
       2 true [] (someOptions [("a-b", JNum 1)]) realm0
     = (Throw (JErr Error msg), realm0)).
Proof.
  split; [reflexivity|]. split; [split; reflexivity|]. eexists. reflexivity.
Qed.

(** C7, as amended, on the example: with a valid module map the invalid
    names [a-b] and [1x] are listed in the message of the Error. *)
Lemma invalid_lexical_names_rejected_witness :
  Compartment.Compartment Compartment.matchesIdentifierPattern q (Normal tt)
    2 true [("ok", JObject 5)]
    (someOptions [("a-b", JNum 1); ("fine", JNum 2); ("1x", JNum 3)]) realm0
  = (Throw (JErr Error
              "Cannot create compartment with invalid names for global lexicals: a-b, 1x; these names would not be lexically mentionable"),
     realm0).
Proof.
  destruct (invalid_lexical_names_rejected Compartment.matchesIdentifierPattern q
              (Normal tt) 2 [("ok", JObject 5)]
              (someOptions [("a-b", JNum 1); ("fine", JNum 2); ("1x", JNum 3)])
              realm0 "1x" (or_intror (or_intror (or_introl eq_refl))) eq_refl)
    as (_ & H & _).
  exact (H eq_refl).
Defined.

(** The constructor without module system does not look at its module map:
    it constructs whatever the map holds. *)
Example compartment_without_modules_ignores_moduleMap :
  fst (Compartment.CompartmentNoModules Compartment.matchesIdentifierPattern
         (Normal tt) 2 [("a", JObject 7); ("b", JStr "./b.js")]
         (someOptions []) realm0)
  = Normal tt.
Proof. reflexivity. Qed.

(** C8 on the example: compartment 1 has its hooks, [load] is fulfilled,
    [link] returns the root instance, whose exports proxy is the object 5:
    [import] is fulfilled with [{ namespace: 5 }]. *)
Lemma import_is_load_then_importNow_witness :
  let load := fun (_ : nat) (_ : string) => ret tt in
  let link := fun (_ : nat) (_ : string) => ret rootInstance in
  Compartment.import unit load link id 1 (JStr "./main.js") (realm0, tt)
  = (Normal {| Compartment.namespace := 5 |}, (realm0, tt)).
Proof.
  intros load link.
  destruct (import_is_load_then_importNow load link id 1 "./main.js" (realm0, tt))
    as (_ & H & Hnow).
  destruct (H eq_refl) as [_ Hok].
  apply (Hok (realm0, tt) 5 (realm0, tt) eq_refl).
  exact (Hnow (realm0, tt) rootInstance (realm0, tt) (realm0, tt)
           eq_refl eq_refl eq_refl).
Defined.

End Examples.
(** * Properties of AltWeakMap and AltWeakSet *)

Section AltWeakMapFacts.

Import AltWeakMapSet.

Lemma entries_held c o v h :
  entries (writeValue c o (Held v) h) = <[(c, o) := v]> (entries h).
Proof. unfold entries, writeValue. simpl. now apply omap_insert_Some. Qed.

Lemma entries_pumpkin c o h :
  entries (writeValue c o PUMPKIN h) = base.delete (c, o) (entries h).
Proof. unfold entries, writeValue. simpl. now apply omap_insert_None. Qed.

Lemma entries_lookup c o h :
  entries h !! (c, o) =
    match privateValue h !! (c, o) with
    | Some (Held v) => Some v
    | _ => None
    end.
Proof.
  unfold entries. rewrite lookup_omap.
  destruct (privateValue h !! (c, o)) as [[v|]|]; reflexivity.
Qed.

Lemma is_Some_bool {A} (x : option A) :
  bool_decide (is_Some x) = match x with Some _ => true | None => false end.
Proof.
  destruct x.
  - apply bool_decide_eq_true_2. eauto.
  - apply bool_decide_eq_false_2. intros [? ?]. discriminate.
Qed.

Lemma set_object this o v h :
  AltWeakMap.set this (KObject o) v h
    = (Normal this, writeValue this o (Held v) h).
Proof.
  unfold AltWeakMap.set, HiddenClass.set, bind. simpl.
  destruct (privateValue h !! (this, o)); reflexivity.
Qed.

(** X1.  On object keys an AltWeakMap behaves as the map of its entries:
    [set] returns the map and inserts, also over a deleted entry; [get]
    looks up, with [undefined] for an absent key; [has] tells whether the
    key is present, also when the value held is [undefined]; [delete] tells
    whether the key was present and removes it.  The entries of other maps
    and other keys are those of before. *)
Theorem altWeakMap_is_a_map (this o : nat) (v : JsVal) (h : Heap) :
  (AltWeakMap.set this (KObject o) v h
     = (Normal this, snd (AltWeakMap.set this (KObject o) v h)) /\
   entries (snd (AltWeakMap.set this (KObject o) v h))
     = <[(this, o) := v]> (entries h)) /\
  AltWeakMap.get this (KObject o) h = default JUndefined (entries h !! (this, o)) /\
  AltWeakMap.has this (KObject o) h = bool_decide (is_Some (entries h !! (this, o))) /\
  (fst (AltWeakMap.delete this (KObject o) h)
     = bool_decide (is_Some (entries h !! (this, o))) /\
   entries (snd (AltWeakMap.delete this (KObject o) h))
     = base.delete (this, o) (entries h)).
Proof.
  split; [|split; [|split]].
  - rewrite set_object. simpl. split; [reflexivity | apply entries_held].
  - unfold AltWeakMap.get, HiddenClass.get. simpl. rewrite entries_lookup.
    destruct (privateValue h !! (this, o)) as [[x|]|]; reflexivity.
  - unfold AltWeakMap.has, HiddenClass.has. simpl.
    rewrite is_Some_bool, entries_lookup.
    destruct (privateValue h !! (this, o)) as [[x|]|]; reflexivity.
  - unfold AltWeakMap.delete, HiddenClass.delete. simpl.
    rewrite is_Some_bool, entries_lookup.
    destruct (privateValue h !! (this, o)) as [[x|]|] eqn:Hp; simpl.
    + split; [reflexivity | apply entries_pumpkin].
    + split; [reflexivity|]. symmetry. apply delete_id.
      now rewrite entries_lookup, Hp.
    + split; [reflexivity|]. symmetry. apply delete_id.
      now rewrite entries_lookup, Hp.
Qed.

(** X2.  A primitive (undefined, null, a boolean, a safe integer, a bigint,
    a string or a symbol) is never a key: [set] throws a TypeError whose
    message ends with [String(key)] and leaves everything as it was;
    [has], [get] and [delete] do not throw: they answer [false],
    [undefined] and [false], and [delete] changes nothing. *)
Theorem altWeakMap_primitive_key (this : nat) (p : Primitive) (v : JsVal) (h : Heap) :
  AltWeakMap.set this (KPrimitive p) v h
    = (Throw (JErr TypeError ("Invalid value used as weak map key " +:+ toString p)), h) /\
  AltWeakMap.has this (KPrimitive p) h = false /\
  AltWeakMap.get this (KPrimitive p) h = JUndefined /\
  AltWeakMap.delete this (KPrimitive p) h = (false, h) /\
  AltWeakSet.add this (KPrimitive p) h
    = (Throw (JErr TypeError ("Invalid value used as weak map key " +:+ toString p)), h).
Proof. repeat split. Qed.

(** *** New maps *)

Lemma writeValue_wellFormed c o slot h :
  c < nextClass h -> wellFormed h -> wellFormed (writeValue c o slot h).
Proof.
  intros Hc H c' o' Hc'. simpl in *.
  rewrite lookup_insert_ne by (intros E; inversion E; lia). now apply H.
Qed.

Lemma setAll_objects this (pairs : list (nat * JsVal)) :
  forall h,
    AltWeakMap.setAll this (map (fun p => (KObject (fst p), snd p)) pairs) h
      = (Normal tt,
         fold_left (fun h p => writeValue this (fst p) (Held (snd p)) h) pairs h).
Proof.
  induction pairs as [|[o v] pairs IH]; intros h; simpl; [reflexivity|].
  unfold bind at 1. rewrite set_object. apply IH.
Qed.

Lemma setAll_primitive this (pairs : list (nat * JsVal)) p v rest :
  forall h,
    AltWeakMap.setAll this
      (map (fun p => (KObject (fst p), snd p)) pairs ++ (KPrimitive p, v) :: rest) h
      = (Throw (invalidKey p),
         fold_left (fun h p => writeValue this (fst p) (Held (snd p)) h) pairs h).
Proof.
  induction pairs as [|[o x] pairs IH]; intros h; simpl; [reflexivity|].
  unfold bind at 1. rewrite set_object. apply IH.
Qed.

Lemma fold_writeValue_entries this (pairs : list (nat * JsVal)) :
  forall h,
    entries (fold_left (fun h p => writeValue this (fst p) (Held (snd p)) h) pairs h)
      = fold_left (fun g p => <[(this, fst p) := snd p]> g) pairs (entries h) /\
    nextClass (fold_left (fun h p => writeValue this (fst p) (Held (snd p)) h) pairs h)
      = nextClass h.
Proof.
  induction pairs as [|[o v] pairs IH]; intros h; simpl; [auto|].
  destruct (IH (writeValue this o (Held v) h)) as [E N].
  rewrite E, N, entries_held. auto.
Qed.

Lemma fold_writeValue_wellFormed this (pairs : list (nat * JsVal)) :
  forall h, this < nextClass h -> wellFormed h ->
    wellFormed (fold_left (fun h p => writeValue this (fst p) (Held (snd p)) h) pairs h).
Proof.
  induction pairs as [|[o v] pairs IH]; intros h Hc H; simpl; [assumption|].
  apply IH; [assumption | now apply writeValue_wellFormed].
Qed.

(** X3.  In a heap where no object holds a field of a HiddenClass that is
    yet to be made: a new AltWeakMap without iterable is empty and the
    entries of the existing maps are those of before; with an iterable of
    pairs with object keys it holds those pairs, a later pair for a key
    overriding an earlier one; and its construction throws the TypeError of
    the first primitive key of the iterable. *)
Theorem altWeakMap_construct (h : Heap) :
  wellFormed h ->
  let this := nextClass h in
  (exists h',
     AltWeakMap.construct None h = (Normal this, h') /\
     entries h' = entries h /\
     (forall key, AltWeakMap.has this key h' = false /\
                  AltWeakMap.get this key h' = JUndefined) /\
     wellFormed h') /\
  (forall pairs : list (nat * JsVal),
     exists h',
       AltWeakMap.construct
         (Some (map (fun p => (KObject (fst p), snd p)) pairs)) h
         = (Normal this, h') /\
       entries h'
         = fold_left (fun g p => <[(this, fst p) := snd p]> g) pairs (entries h) /\
       (forall o v,
          AltWeakMap.get this (KObject o)
            (snd (AltWeakMap.construct
                    (Some (map (fun p => (KObject (fst p), snd p))
                             (pairs ++ [(o, v)]))) h)) = v) /\
       wellFormed h') /\
  (forall (pairs : list (nat * JsVal)) p v rest,
     fst (AltWeakMap.construct
            (Some (map (fun p => (KObject (fst p), snd p)) pairs
                   ++ (KPrimitive p, v) :: rest)) h)
     = Throw (JErr TypeError ("Invalid value used as weak map key " +:+ toString p))).
Proof.
  intros Hwf this.
  assert (Hwf1 : wellFormed {| privateValue := privateValue h;
                               nextClass := S (nextClass h) |}).
  { intros c o Hc. simpl in *. apply Hwf. lia. }
  split; [|split].
  - eexists. split; [reflexivity|]. split; [reflexivity|]. split; [|exact Hwf1].
    intros key. unfold AltWeakMap.has, AltWeakMap.get, HiddenClass.has,
      HiddenClass.get, readValue.
    destruct key as [o|p]; [|auto]. simpl.
    rewrite (Hwf this o) by (unfold this; lia). auto.
  - intros pairs. unfold AltWeakMap.construct, bind.
    rewrite setAll_objects.
    destruct (fold_writeValue_entries this pairs
                {| privateValue := privateValue h; nextClass := S (nextClass h) |})
      as [E N].
    eexists. split; [reflexivity|]. split; [exact E|]. split.
    + intros o v. rewrite setAll_objects. simpl.
      rewrite fold_left_app. simpl.
      unfold AltWeakMap.get, HiddenClass.get, readValue. simpl.
      now rewrite lookup_insert_eq.
    + apply fold_writeValue_wellFormed; [simpl; unfold this; lia | exact Hwf1].
  - intros pairs p v rest. unfold AltWeakMap.construct, bind.
    now rewrite setAll_primitive.
Qed.

(** X4.  An AltWeakSet is the set of the objects added and not deleted
    since: after [add] the object is a member, [delete] tells whether the
    object was a member and removes it, and the membership of the other
    objects, and in the other sets, stays as it was. *)
Theorem altWeakSet_is_a_set (this o : nat) (h : Heap) :
  (exists h',
     AltWeakSet.add this (KObject o) h = (Normal this, h') /\
     AltWeakSet.has this (KObject o) h' = true /\
     forall this' o', (this', o') <> (this, o) ->
       AltWeakSet.has this' (KObject o') h' = AltWeakSet.has this' (KObject o') h) /\
  (let (was, h') := AltWeakSet.delete this (KObject o) h in
   was = AltWeakSet.has this (KObject o) h /\
   AltWeakSet.has this (KObject o) h' = false /\
   forall this' o', (this', o') <> (this, o) ->
     AltWeakSet.has this' (KObject o') h' = AltWeakSet.has this' (KObject o') h).
Proof.
  split.
  - unfold AltWeakSet.add, bind. rewrite set_object.
    eexists. split; [reflexivity|].
    unfold AltWeakSet.has, AltWeakMap.has, HiddenClass.has, readValue. simpl.
    split; [now rewrite lookup_insert_eq|].
    intros this' o' Hne. now rewrite lookup_insert_ne by congruence.
  - unfold AltWeakSet.delete, AltWeakMap.delete, HiddenClass.delete,
      AltWeakSet.has, AltWeakMap.has, HiddenClass.has, readValue.
    destruct (privateValue h !! (this, o)) as [[x|]|] eqn:E; simpl.
    + split; [reflexivity|].
      split; [now rewrite lookup_insert_eq|].
      intros this' o' Hne. now rewrite lookup_insert_ne by congruence.
    + rewrite E. auto.
    + rewrite E. auto.
Qed.

Lemma emptyHeap_wellFormed : wellFormed emptyHeap.
Proof. intros c o _. reflexivity. Qed.

Lemma set_wellFormed this key v h :
  this < nextClass h -> wellFormed h ->
  wellFormed (snd (AltWeakMap.set this key v h)) /\
  nextClass (snd (AltWeakMap.set this key v h)) = nextClass h.
Proof.
  intros Hc Hwf. destruct key as [o|p]; [|split; [exact Hwf | reflexivity]].
  rewrite set_object. simpl. split; [now apply writeValue_wellFormed | reflexivity].
Qed.

Lemma setAll_wellFormed this pairs :
  forall h, this < nextClass h -> wellFormed h ->
    wellFormed (snd (AltWeakMap.setAll this pairs h)) /\
    nextClass (snd (AltWeakMap.setAll this pairs h)) = nextClass h.
Proof.
  induction pairs as [|[k v] pairs IH]; intros h Hc Hwf; simpl; [auto|].
  destruct (set_wellFormed this k v h Hc Hwf) as [Hwf1 Hn1].
  unfold bind.
  destruct (AltWeakMap.set this k v h) as [[x|e|f] h1]; simpl in *; auto.
  destruct (IH h1) as [Hwf2 Hn2]; [rewrite Hn1; exact Hc | assumption |].
  split; [assumption | now rewrite Hn2].
Qed.

(** Every operation on a map that has been made keeps the heap well
    formed, so every heap the operations build from the empty one is. *)
Lemma runOp_wellFormed op h :
  onExisting h op -> wellFormed h ->
  wellFormed (runOp op h) /\ nextClass h <= nextClass (runOp op h).
Proof.
  intros Hop Hwf. destruct op as [it|this key v|this key]; simpl in *.
  - assert (Hwf1 : wellFormed {| privateValue := privateValue h;
                                 nextClass := S (nextClass h) |}).
    { intros c o Hc. simpl in *. apply Hwf. lia. }
    unfold AltWeakMap.construct. destruct it as [pairs|]; simpl; [|split; [exact Hwf1 | lia]].
    unfold bind.
    destruct (setAll_wellFormed (nextClass h) pairs
                {| privateValue := privateValue h; nextClass := S (nextClass h) |}
                (le_n _) Hwf1) as [Hwf2 Hn2].
    destruct (AltWeakMap.setAll (nextClass h) pairs _) as [[x|e|f] h1];
      simpl in *; (split; [assumption | rewrite Hn2; auto]).
  - destruct (set_wellFormed this key v h Hop Hwf) as [H1 H2]. split; [assumption | lia].
  - unfold AltWeakMap.delete, HiddenClass.delete.
    destruct key as [o|p]; simpl; [|auto].
    destruct (privateValue h !! (this, o)) as [[x|]|]; simpl; auto.
    split; [now apply writeValue_wellFormed | reflexivity].
Qed.

(** X2 on examples: the message for the number -5, for a symbol and for
    [null]. *)
Lemma altWeakMap_primitive_key_witness :
  fst (AltWeakMap.set 0 (KPrimitive (PNumber (-5) eq_refl)) JUndefined emptyHeap)
    = Throw (JErr TypeError "Invalid value used as weak map key -5") /\
  fst (AltWeakMap.set 0 (KPrimitive (PSymbol (Some "tag"))) JUndefined emptyHeap)
    = Throw (JErr TypeError "Invalid value used as weak map key Symbol(tag)") /\
  fst (AltWeakSet.add 0 (KPrimitive PNull) emptyHeap)
    = Throw (JErr TypeError "Invalid value used as weak map key null").
Proof.
  destruct (altWeakMap_primitive_key 0 (PNumber (-5) eq_refl) JUndefined emptyHeap)
    as (H1 & _).
  destruct (altWeakMap_primitive_key 0 (PSymbol (Some "tag")) JUndefined emptyHeap)
    as (H2 & _).
  destruct (altWeakMap_primitive_key 0 PNull JUndefined emptyHeap)
    as (_ & _ & _ & _ & H3).
  rewrite H1, H2, H3. repeat split.
Defined.

(** X3 on an example: a new map in the empty heap is the map 0 and is
    empty; made from two pairs for the object 7 it holds the second value;
    made from a pair for the object 7 and a pair for the number 5 it throws
    the TypeError for 5. *)
Lemma altWeakMap_construct_witness :
  (exists h',
     AltWeakMap.construct None emptyHeap = (Normal 0, h') /\
     entries h' = entries emptyHeap) /\
  AltWeakMap.get 0 (KObject 7)
    (snd (AltWeakMap.construct
            (Some [(KObject 7, JNum 1); (KObject 7, JNum 2)]) emptyHeap))
    = JNum 2 /\
  fst (AltWeakMap.construct
         (Some [(KObject 7, JNum 1); (KPrimitive (PNumber 5 eq_refl), JNum 2)])
         emptyHeap)
    = Throw (JErr TypeError "Invalid value used as weak map key 5").
Proof.
  destruct (altWeakMap_construct emptyHeap emptyHeap_wellFormed)
    as [[h' [H1 [H2 _]]] [Hpairs Hthrow]].
  split; [exists h'; split; assumption|]. split.
  - destruct (Hpairs [(7, JNum 1)]) as (h2 & _ & _ & Hlast & _).
    exact (Hlast 7 (JNum 2)).
  - exact (Hthrow [(7, JNum 1)] (PNumber 5 eq_refl) (JNum 2) []).
Defined.

End AltWeakMapFacts.

(** * More on bindings: once-only [init], third-party exports, re-exports *)

Section BindingMore.

Import Binding.

(** X5.  The [init] of a fixed binding works once.  From a store in which
    the binding has been initialized, and after any further operations on
    bindings, [init] throws the Error "Internal: binding ... already
    initialized", naming the local name, calls no updater and changes
    nothing, and the getter still returns the value of the initialization. *)
Theorem fixed_init_once (fuel : nat) (s : Store) (r : Ref) (b : FixedBinding)
    (ops : list Op) (v : JsVal) :
  cells s !! r = Some (Fixed b) -> f_tdz b = false ->
  let s1 := runOps fuel ops s in
  init fuel r v s1
    = (Throw (JErr Error ("Internal: binding " +:+ q (f_localName b) +:+
                          " already initialized")), s1) /\
  fixed_get r s1 = (Normal (f_value b), s1).
Proof.
  intros Hr Ht s1.
  assert (H1 : cells s1 !! r = Some (Fixed b))
    by now apply fixed_initialized_never_changes.
  unfold init, fixed_init, fixed_get. rewrite H1, Ht. split; reflexivity.
Qed.

(** X6.  The binding of a third-party export has no tdz: its getter returns
    the current value from the start.  Its setter stores the new value and
    calls the updaters registered so far on it, in the order of their
    registration: when the call returns, the calls made consist of one
    stretch per updater; it does return, having made exactly those calls,
    when the updaters are assignment closures; and the getter then returns
    the new value. *)
Theorem third_party_binding_set (fuel : nat) (s : Store) (r : Ref)
    (b : PlainBinding) (v : JsVal) :
  cells s !! r = Some (Plain b) ->
  plain_get r s = (Normal (p_value b), s) /\
  exists res s',
    plain_set (callUpdater fuel) r v s = (res, s') /\
    cells s' !! r = Some (Plain {| p_value := v; p_updaters := p_updaters b |}) /\
    plain_get r s' = (Normal v, s') /\
    (res = Normal tt ->
       exists evs, calls s' = calls s ++ evs /\
                   invokedInOrder (p_updaters b) v evs) /\
    (forallb isAssign (p_updaters b) = true -> 0 < fuel ->
       res = Normal tt /\
       calls s' = calls s ++ map (fun u => (u, v)) (p_updaters b)).
Proof.
  intros Hr. split; [unfold plain_get; now rewrite Hr|].
  unfold plain_set. rewrite Hr.
  set (c1 := Plain {| p_value := v; p_updaters := p_updaters b |}).
  set (s1 := setCell r c1 s).
  assert (H1 : cells s1 !! r = Some c1) by (eapply lookup_setCell_eq; eassumption).
  destruct (forUpdaters (callUpdater fuel) (p_updaters b) v s1) as [res s'] eqn:E.
  assert (Ev : evolves v s1 s')
    by (eapply forUpdaters_evolves; [apply callUpdater_evolves | eassumption]).
  assert (Hcell : cells s' !! r = Some c1).
  { destruct (ev_cells _ _ _ Ev r _ H1) as [c' [Hc' Hw]].
    inversion Hw; subst. assumption. }
  exists res, s'. split; [reflexivity|]. split; [exact Hcell|]. split; [|split].
  - unfold plain_get. now rewrite Hcell.
  - intros ->. apply forUpdaters_invokedInOrder in E. exact E.
  - intros Ha Hf. rewrite (forUpdaters_assign _ _ _ _ Ha Hf) in E.
    inversion E; subst. split; reflexivity.
Qed.

Lemma callUpdater_update n r v s :
  callUpdater (S n) (UUpdate r) v s
    = live_update (callUpdater n) r v (logCall (UUpdate r) v s).
Proof. reflexivity. Qed.

Lemma live_update_assign fuel s r b v :
  0 < fuel -> cells s !! r = Some (Live b) ->
  forallb isAssign (l_updaters b) = true ->
  live_update (callUpdater fuel) r v s
    = (Normal tt,
       {| cells := <[r := Live {| l_exportName := l_exportName b;
                                  l_localName := l_localName b;
                                  l_value := v; l_tdz := false;
                                  l_updaters := l_updaters b |}]> (cells s);
          calls := calls s ++ map (fun u => (u, v)) (l_updaters b) |}).
Proof.
  intros Hf Hr Ha. unfold live_update. rewrite Hr.
  now rewrite forUpdaters_assign by assumption.
Qed.

(** X7.  A live export that another module re-exports: the [update] of the
    re-exporting binding [r'] is among the updaters of the source binding
    [r], next to assignment closures, and the updaters of [r'] are
    assignment closures.  Then [update] of [r] returns, both bindings hold
    the new value and are out of their tdz, and the importers of the
    re-export are called in the place of the re-export: after the updaters
    registered with [r] before it and before those registered after it. *)
Theorem live_reexport_propagates (fuel : nat) (s : Store) (r r' : Ref)
    (b b' : LiveBinding) (before after : list Updater) (v : JsVal) :
  1 < fuel -> r <> r' ->
  cells s !! r = Some (Live b) -> cells s !! r' = Some (Live b') ->
  l_updaters b = before ++ UUpdate r' :: after ->
  forallb isAssign before = true -> forallb isAssign after = true ->
  forallb isAssign (l_updaters b') = true ->
  exists s',
    update fuel r v s = (Normal tt, s') /\
    cells s' !! r = Some (Live {| l_exportName := l_exportName b;
                                  l_localName := l_localName b;
                                  l_value := v; l_tdz := false;
                                  l_updaters := l_updaters b |}) /\
    cells s' !! r' = Some (Live {| l_exportName := l_exportName b';
                                   l_localName := l_localName b';
                                   l_value := v; l_tdz := false;
                                   l_updaters := l_updaters b' |}) /\
    calls s' = calls s ++ map (fun u => (u, v)) before
                 ++ (UUpdate r', v) :: map (fun u => (u, v)) (l_updaters b')
                 ++ map (fun u => (u, v)) after.
Proof.
  intros Hf Hne Hr Hr' Hus Hb Ha Hb'.
  destruct fuel as [|[|n]]; try lia.
  unfold update, live_update. rewrite Hr, Hus.
  rewrite forUpdaters_app.
  rewrite forUpdaters_assign by (assumption || lia).
  cbn [forUpdaters]. unfold bind.
  rewrite callUpdater_update.
  rewrite (live_update_assign (S n) _ r' b' v);
    [| lia
     | cbn [logCall cells calls setCell];
       rewrite list_lookup_insert_ne by congruence; exact Hr'
     | assumption].
  rewrite forUpdaters_assign by (assumption || lia).
  eexists. split; [reflexivity|]. cbn [cells calls setCell logCall].
  assert (Hlt : r < length (cells s)) by (eapply lookup_lt_Some; eassumption).
  assert (Hlt' : r' < length (cells s)) by (eapply lookup_lt_Some; eassumption).
  split; [|split].
  - rewrite list_lookup_insert_ne by congruence.
    now apply list_lookup_insert_eq.
  - apply list_lookup_insert_eq. now rewrite length_insert.
  - rewrite <- !app_assoc. simpl. now rewrite <- ?app_assoc.
Qed.

End BindingMore.

(** * More on module instances *)

Section InstanceMore.

Import Names Binding Instance InstanceNotions.

Context {X : Type}.

(** *** [execute] runs the functor once and keeps its outcome *)

Lemma makeModuleInstance_fresh deferred smr (functor : Functor X) s :
  let st := fst (makeModuleInstance deferred smr functor s) in
  optFunctor st = Some functor /\ didThrow st = false /\ functorCalls st = 0 /\
  namespace st = emptyNamespace.
Proof.
  unfold makeModuleInstance.
  destruct (fold_left addFixedExport _ _) as [t1 s1].
  destruct (fold_left addLiveExport _ _) as [t2 s2]. simpl. auto.
Qed.

(** X8.  On the instance [makeModuleInstance] returns, whatever happens
    between the calls: no run of [execute] calls calls the functor more than
    once; if the first call returned, every later call returns; and if the
    first call threw, every later call throws that same error, which is the
    one kept in [thrownError]. *)
Theorem parsed_execute_runs_once deferred smr importedInstances fuel
    (functor : Functor X) (s : Store) (between : list (World X -> World X))
    (w : World X) :
  let st := fst (makeModuleInstance deferred smr functor s) in
  let run := executeAll deferred smr importedInstances fuel between st w in
  functorCalls (fst (snd run)) <= 1 /\
  match fst run with
  | Normal _ :: later => Forall (fun res => res = Normal tt) later
  | Throw e :: later =>
      Forall (fun res => res = Throw e) later /\
      didThrow (fst (snd run)) = true /\ thrownError (fst (snd run)) = e
  | _ => True
  end.
Proof.
  intros st run.
  destruct (makeModuleInstance_fresh deferred smr functor s) as (Hf & Hd & Hc & _).
  fold st in Hf, Hd, Hc. subst run.
  destruct between as [|g rest]; cbn [executeAll]; [simpl; split; [lia | exact I]|].
  destruct (execute_first deferred smr importedInstances fuel st (g w) functor Hf Hd)
    as (res & st' & w' & E & Hres).
  destruct res as [[]|e|f].
  - destruct Hres as (-> & Hn & Hd' & Hcalls).
    destruct (executeAll_consumed deferred smr importedInstances fuel rest st' w' Hn)
      as [w2 ->]. simpl. split; [lia|].
    rewrite Hd'. now apply Forall_map_const.
  - destruct Hres as (st2 & -> & Hn & Hd2 & He & Hcalls).
    destruct (executeAll_consumed deferred smr importedInstances fuel rest st2 w' Hn)
      as [w2 ->]. simpl. split; [lia|]. split; [|auto].
    rewrite Hd2, He. now apply Forall_map_const.
  - rewrite Hres.
    destruct (callFunctor_sameExec _ _ _ _ _ _ _ _ _ _ E) as (H1 & _ & _ & H4).
    simpl in H1, H4.
    destruct (executeAll_consumed deferred smr importedInstances fuel rest st' w' H1)
      as [w2 ->]. simpl. split; [lia | exact I].
Qed.

(** *** The bindings [makeModuleInstance] makes *)

Lemma localBinding_grow t s from l gn t' c :
  localBinding t s from l gn ->
  (obj_get l (onceVar t') = obj_get l (onceVar t)) ->
  (obj_get l (liveVar t') = obj_get l (liveVar t)) ->
  localBinding t' {| cells := cells s ++ [c]; calls := calls s |} from l gn.
Proof.
  intros (r & Hr & H) Ho Hl. exists r. split; [exact Hr|]. simpl.
  destruct H as [(Hg & Hc & Hv)|(e & Hg & Hc & Hv)].
  - left. split; [exact Hg|]. split; [|congruence].
    rewrite lookup_app_l; [exact Hc | eapply lookup_lt_Some; exact Hc].
  - right. exists e. split; [exact Hg|]. split; [|congruence].
    rewrite lookup_app_l; [exact Hc | eapply lookup_lt_Some; exact Hc].
Qed.

Lemma localBinding_tables t s from l gn t' :
  localBinding t s from l gn ->
  onceVar t' = onceVar t -> liveVar t' = liveVar t ->
  localBinding t' s from l gn.
Proof.
  intros (r & Hr & H) Ho Hl. exists r. split; [exact Hr|].
  rewrite Ho, Hl. exact H.
Qed.

Lemma addFixedExport_round from acc e l0 :
  roundOk from acc (addFixedExport acc (e, l0)) e l0.
Proof.
  destruct acc as [t s]. unfold roundOk. cbn [fst snd addFixedExport].
  intros Hfrom Hinv.
  destruct (obj_get l0 (localGetNotify t)) as [gn|] eqn:E; cbn [fst snd].
  - split; [exact Hfrom|]. split.
    { intros l gn' H. eapply localBinding_tables; [apply Hinv; exact H | |]; reflexivity. }
    split; [auto|]. split.
    { exists gn. simpl. rewrite !obj_get_set_eq. auto. }
    split.
    { intros e' Hne. simpl. now rewrite !obj_get_set_ne by assumption. }
    split; [exists []; now rewrite app_nil_r|]. split; [reflexivity|].
    simpl. apply obj_set_NoDup.
  - simpl. split; [rewrite length_app; lia|]. split.
    { intros l gn' H. destruct (String.eqb_spec l l0) as [->|Hne].
      - rewrite obj_get_set_eq in H. inversion H; subst.
        exists (length (cells s)). split; [exact Hfrom|]. left.
        split; [reflexivity|]. split; [|apply obj_get_set_eq].
        cbn [cells]. rewrite lookup_app_r by lia. now rewrite Nat.sub_diag.
      - rewrite obj_get_set_ne in H by assumption.
        apply (localBinding_grow t s from l gn'); [now apply Hinv | |]; simpl;
          [now rewrite obj_get_set_ne by assumption | reflexivity]. }
    split.
    { intros l gn' H. rewrite obj_get_set_ne; [exact H | congruence]. }
    split.
    { eexists. rewrite !obj_get_set_eq. simpl. auto. }
    split.
    { intros e' Hne. now rewrite !obj_get_set_ne by assumption. }
    split; [eexists; reflexivity|]. split; [reflexivity|].
    apply obj_set_NoDup.
Qed.

Lemma addLiveExport_round from acc e l0 trap :
  roundOk from acc (addLiveExport acc (e, (l0, trap))) e l0.
Proof.
  destruct acc as [t s]. unfold roundOk. cbn [fst snd addLiveExport].
  intros Hfrom Hinv.
  destruct (obj_get l0 (localGetNotify t)) as [gn|] eqn:E; cbn [fst snd].
  - split; [exact Hfrom|]. split.
    { intros l gn' H. eapply localBinding_tables; [apply Hinv; exact H | |]; reflexivity. }
    split; [auto|]. split.
    { exists gn. simpl. rewrite !obj_get_set_eq. auto. }
    split.
    { intros e' Hne. simpl. now rewrite !obj_get_set_ne by assumption. }
    split; [exists []; now rewrite app_nil_r|]. split; [reflexivity|].
    simpl. apply obj_set_NoDup.
  - simpl. split; [rewrite length_app; lia|]. split.
    { intros l gn' H. destruct (String.eqb_spec l l0) as [->|Hne].
      - rewrite obj_get_set_eq in H. inversion H; subst.
        exists (length (cells s)). split; [exact Hfrom|]. right. exists e.
        split; [reflexivity|]. split; [|apply obj_get_set_eq].
        cbn [cells]. rewrite lookup_app_r by lia. now rewrite Nat.sub_diag.
      - rewrite obj_get_set_ne in H by assumption.
        apply (localBinding_grow t s from l gn'); [now apply Hinv | |]; simpl;
          [reflexivity | now rewrite obj_get_set_ne by assumption]. }
    split.
    { intros l gn' H. rewrite obj_get_set_ne; [exact H | congruence]. }
    split.
    { eexists. rewrite !obj_get_set_eq. simpl. auto. }
    split.
    { intros e' Hne. now rewrite !obj_get_set_ne by assumption. }
    split; [eexists; reflexivity|]. split; [reflexivity|].
    apply obj_set_NoDup.
Qed.

(** The loops: every entry gets its binding, and keeps it as long as no
    later entry has its export name. *)
Lemma fold_rounds {E : Type} (step : Tables * Store -> E -> Tables * Store)
    (names : E -> string * string) from :
  (forall acc entry,
     roundOk from acc (step acc entry) (fst (names entry)) (snd (names entry))) ->
  forall entries acc,
    NoDup (map (fun entry => fst (names entry)) entries) ->
    from <= length (cells (snd acc)) ->
    (forall l gn, obj_get l (localGetNotify (fst acc)) = Some gn ->
                  localBinding (fst acc) (snd acc) from l gn) ->
    let acc' := fold_left step entries acc in
    from <= length (cells (snd acc')) /\
    (forall l gn, obj_get l (localGetNotify (fst acc')) = Some gn ->
                  localBinding (fst acc') (snd acc') from l gn) /\
    (forall l gn, obj_get l (localGetNotify (fst acc)) = Some gn ->
                  obj_get l (localGetNotify (fst acc')) = Some gn) /\
    (forall entry, In entry entries ->
       exists gn,
         obj_get (snd (names entry)) (localGetNotify (fst acc')) = Some gn /\
         obj_get (fst (names entry)) (notifiers (fst acc')) = Some (gn_notify gn) /\
         obj_get (fst (names entry)) (exportsProps (fst acc')) = Some (gn_get gn)) /\
    (forall e', ~ In e' (map (fun entry => fst (names entry)) entries) ->
       obj_get e' (notifiers (fst acc')) = obj_get e' (notifiers (fst acc)) /\
       obj_get e' (exportsProps (fst acc')) = obj_get e' (exportsProps (fst acc))) /\
    (exists new, cells (snd acc') = cells (snd acc) ++ new) /\
    calls (snd acc') = calls (snd acc) /\
    (NoDup (obj_keys (exportsProps (fst acc))) ->
     NoDup (obj_keys (exportsProps (fst acc')))).
Proof.
  intros Hstep. induction entries as [|entry entries IH];
    intros acc Hnd Hfrom Hinv; cbn [fold_left].
  - split; [exact Hfrom|]. split; [exact Hinv|]. split; [auto|].
    split; [intros entry []|]. split; [auto|].
    split; [exists []; now rewrite app_nil_r|]. auto.
  - cbn [map] in Hnd. apply NoDup_cons in Hnd as [Hnot Hnd].
    destruct (Hstep acc entry Hfrom Hinv)
      as (S1 & S2 & S3 & (gn & S4 & S5 & S6) & S7 & (new1 & S8) & S9 & S10).
    destruct (IH (step acc entry) Hnd S1 S2)
      as (I1 & I2 & I3 & I4 & I5 & (new2 & I6) & I7 & I8).
    split; [exact I1|]. split; [exact I2|]. split; [auto|]. split.
    { intros entry' [<-|Hin]; [|now apply I4].
      exists gn. split; [now apply I3|].
      assert (Hn : ~ In (fst (names entry))
                     (map (fun entry => fst (names entry)) entries)).
      { intros Hin. apply Hnot. now apply list_elem_of_In. }
      destruct (I5 _ Hn) as [J1 J2]. rewrite J1, J2. auto. }
    split.
    { intros e' Hn. cbn [map] in Hn.
      destruct (I5 e' (fun H => Hn (or_intror H))) as [J1 J2].
      destruct (S7 e' (fun H => Hn (or_introl (eq_sym H)))) as [K1 K2].
      split; congruence. }
    split; [exists (new1 ++ new2); rewrite I6, S8; now rewrite app_assoc|].
    split; [congruence | auto].
Qed.

(** X9.  [makeModuleInstance], for a static module record whose export
    names are distinct: every export, fixed or live, has the getter and the
    notifier of the binding of its local name, so that two exports of one
    local name share one binding; the binding is new, in its tdz and
    without updaters, and it is the one the functor initializes through
    [onceVar] or [liveVar].  The bindings that existed are as before and no
    updater is called; [notifiers] has [notifyStar] under [*]; nothing is
    defined on [proxiedExports] yet. *)
Theorem makeModuleInstance_bindings deferred smr (functor : Functor X) (s : Store) :
  NoDup (obj_keys (exportedLocals smr)) ->
  let st := fst (makeModuleInstance deferred smr functor s) in
  let s' := snd (makeModuleInstance deferred smr functor s) in
  (forall e l, In (e, l) (exportedLocals smr) -> e <> "*" ->
     bindingOf (tables st) s' (length (cells s)) e l) /\
  (exists new, cells s' = cells s ++ new) /\
  calls s' = calls s /\
  obj_get "*" (notifiers (tables st)) = Some (NotifyStar (proxiedExports deferred)) /\
  namespace st = emptyNamespace /\
  NoDup (obj_keys (exportsProps (tables st))).
Proof.
  intros Hnd. unfold exportedLocals, obj_keys in Hnd.
  rewrite map_app, map_map in Hnd.
  apply NoDup_app in Hnd as (Hnd1 & Hdisj & Hnd2).
  pose proof (fold_rounds addFixedExport (fun entry => entry) (length (cells s))
                (fun acc entry =>
                   match entry with
                   | (e, l) => addFixedExport_round (length (cells s)) acc e l
                   end)
                (fixedExportMap smr) (emptyTables, s) Hnd1 (le_n _)) as F.
  cbn [fst snd] in F.
  destruct F as (F1 & F2 & F3 & F4 & F5 & (new1 & F6) & F7 & F8);
    [intros l gn H; discriminate|].
  pose proof (fold_rounds addLiveExport (fun entry => (fst entry, fst (snd entry)))
                (length (cells s))
                (fun acc entry =>
                   match entry with
                   | (e, (l, trap)) =>
                       addLiveExport_round (length (cells s)) acc e l trap
                   end)
                (liveExportMap smr)
                (fold_left addFixedExport (fixedExportMap smr) (emptyTables, s))
                Hnd2 F1 F2) as L.
  cbn [fst snd] in L.
  destruct L as (L1 & L2 & L3 & L4 & L5 & (new2 & L6) & L7 & L8).
  unfold makeModuleInstance.
  destruct (fold_left addFixedExport (fixedExportMap smr) (emptyTables, s))
    as [t1 s1] eqn:E1.
  destruct (fold_left addLiveExport (liveExportMap smr) (t1, s1))
    as [t2 s2] eqn:E2.
  cbn [fst snd tables namespace] in *.
  split; [|split; [|split; [|split; [|split]]]].
  - intros e l Hin Hstar.
    assert (Hgn : exists gn,
              obj_get l (localGetNotify t2) = Some gn /\
              obj_get e (notifiers t2) = Some (gn_notify gn) /\
              obj_get e (exportsProps t2) = Some (gn_get gn)).
    { apply in_app_or in Hin as [Hin|Hin].
      - destruct (F4 _ Hin) as (gn & G1 & G2 & G3). cbn [fst snd] in G1, G2, G3.
        exists gn. split; [now apply L3|].
        assert (Hn : ~ In e (map (fun entry : string * (string * bool) => fst entry)
                               (liveExportMap smr))).
        { intros Hin2. apply (Hdisj e).
          - apply list_elem_of_In. apply in_map_iff. now exists (e, l).
          - now apply list_elem_of_In. }
        destruct (L5 e Hn) as [J1 J2]. split; congruence.
      - apply in_map_iff in Hin as (entry & Heq & Hin). inversion Heq; subst.
        exact (L4 entry Hin). }
    destruct Hgn as (gn & G1 & G2 & G3).
    exists gn. cbn [localGetNotify notifiers exportsProps withNotifiers].
    split; [exact G1|]. split; [now rewrite obj_get_set_ne by assumption|].
    split; [exact G3|].
    eapply localBinding_tables; [exact (L2 l gn G1) | reflexivity | reflexivity].
  - exists (new1 ++ new2). rewrite L6, F6. now rewrite app_assoc.
  - congruence.
  - cbn [notifiers withNotifiers]. apply obj_get_set_eq.
  - reflexivity.
  - cbn [exportsProps withNotifiers]. apply L8, F8. constructor.
Qed.

(** *** What [imports] makes of the exports *)

Lemma forwardCandidates_keeps deferred fuel candidates name n :
  forall (st : InstanceState X) w res st' w',
    obj_get name (notifiers (tables st)) = Some n ->
    forwardCandidates deferred fuel candidates (st, w) = (res, (st', w')) ->
    obj_get name (notifiers (tables st')) = Some n /\
    obj_get name (exportsProps (tables st'))
      = obj_get name (exportsProps (tables st)) /\
    namespace st' = namespace st.
Proof.
  induction candidates as [|[importName notify] rest IH];
    intros st w res st' w' Hn H; cbn [forwardCandidates] in H.
  - inversion H; subst. auto.
  - destruct (obj_get importName (notifiers (tables st))) as [n0|] eqn:E0;
      [now apply (IH _ _ _ _ _ Hn) in H|].
    destruct notify as [notify|]; [|now apply (IH _ _ _ _ _ Hn) in H].
    assert (Hne : name <> importName) by congruence.
    destruct (onStore _ w) as [[[]|e|f] w1].
    + apply IH in H; [|simpl; now rewrite obj_get_set_ne by assumption].
      destruct H as (H1 & H2 & H3). simpl in H2, H3. rewrite H1, H2, H3.
      now rewrite obj_get_set_ne by assumption.
    + inversion H; subst. simpl. now rewrite obj_get_set_ne by assumption.
    + inversion H; subst. simpl. now rewrite obj_get_set_ne by assumption.
Qed.

Lemma installExports_namespace exports ks :
  forall n res n',
    installExports exports ks n = (res, n') ->
    frozen n' = frozen n /\ active n' = active n /\
    forall k g, obj_get k (properties n) = Some g ->
                obj_get k (properties n') = Some g.
Proof.
  induction ks as [|k ks IH]; intros n res n' H; cbn [installExports] in H.
  - inversion H; subst. auto.
  - destruct (obj_get k exports) as [g|] eqn:Ek; [|now apply IH in H].
    unfold bind, defineProperty in H.
    destruct (obj_get k (properties n)) as [g'|] eqn:Ep.
    + destruct (decide (g = g')); [now apply IH in H | inversion H; subst; auto].
    + destruct (frozen n) eqn:Ef; [inversion H; subst; auto|].
      apply IH in H. destruct H as (H1 & H2 & H3). simpl in H1, H2, H3.
      split; [congruence|]. split; [exact H2|].
      intros k0 g0 H0. apply H3.
      rewrite obj_get_app_ne; [exact H0 | congruence].
Qed.

Lemma obj_get_snoc_eq {V} (k : string) (v : V) o :
  obj_get k o = None -> obj_get k (o ++ [(k, v)]) = Some v.
Proof.
  induction o as [|[k0 v0] o IH]; simpl.
  - now rewrite String.eqb_refl.
  - destruct (String.eqb_spec k k0); [discriminate | exact IH].
Qed.

(** When all the properties could be defined, every export among [ks] is
    a property, with its getter. *)
Lemma installExports_defines exports ks :
  forall n n',
    installExports exports ks n = (Normal tt, n') ->
    forall k g, In k ks -> obj_get k exports = Some g ->
                obj_get k (properties n') = Some g.
Proof.
  induction ks as [|k ks IH]; intros n n' H k0 g0 Hin Hg; [destruct Hin|].
  cbn [installExports] in H.
  destruct (String.eqb_spec k0 k) as [->|Hne].
  - rewrite Hg in H. unfold bind, defineProperty in H.
    destruct (obj_get k (properties n)) as [g'|] eqn:Ep.
    + destruct (decide (g0 = g')) as [->|]; [|discriminate].
      destruct (installExports_namespace _ _ _ _ _ H) as (_ & _ & K). now apply K.
    + destruct (frozen n); [discriminate|].
      destruct (installExports_namespace _ _ _ _ _ H) as (_ & _ & K). apply K.
      simpl. now apply obj_get_snoc_eq.
  - destruct Hin as [Heq|Hin]; [congruence|].
    destruct (obj_get k exports) as [g|] eqn:Ek; [|now apply (IH _ _ H)].
    unfold bind in H.
    destruct (defineProperty k g n) as [[[]|e|f] n1]; try discriminate.
    now apply (IH _ _ H).
Qed.

Lemma imports_normal_inv deferred smr importedInstances fuel record
    (st st' : InstanceState X) w w' :
  imports deferred smr importedInstances fuel record (st, w)
    = (Normal tt, (st', w')) ->
  exists w1 st2 n,
    let candidateAll :=
      mergeAll (starEntries smr importedInstances fuel record w)
        [("default", None)] in
    importsLoop smr importedInstances fuel record [("default", None)] w
      = (Normal candidateAll, w1) /\
    NoDup (obj_keys candidateAll) /\
    forwardCandidates deferred fuel candidateAll (st, w1)
      = (Normal tt, (st2, w')) /\
    installExports (exportsProps (tables st2))
      (sort (obj_keys (exportsProps (tables st2)))) (namespace st2)
      = (Normal tt, n) /\
    st' = withNamespace st2 (activate (freeze n)).
Proof.
  unfold imports. intros H.
  destruct (importsLoop smr importedInstances fuel record [("default", None)] w)
    as [[candidateAll|e|f] w1] eqn:E1; try discriminate.
  pose proof (importsLoop_mergeAll _ _ _ _ _ _ _ _ E1) as Hc. subst candidateAll.
  destruct (forwardCandidates deferred fuel _ (st, w1))
    as [[[]|e|f] [st2 w2]] eqn:E2; try discriminate.
  destruct (installExports (exportsProps (tables st2)) _ (namespace st2))
    as [[[]|e|f] n] eqn:E3; try discriminate.
  inversion H; subst. exists w1, st2, n. cbv zeta.
  split; [reflexivity|]. split; [|auto].
  apply mergeAll_NoDup. simpl. apply NoDup_singleton.
Qed.

(** X10.  The exports of the module itself win over [export *]: a name
    that has a notifier when [imports] starts (a fixed or live export, or
    [*]) keeps that notifier and its export descriptor, whatever the
    [export *] sources provide and however [imports] ends. *)
Theorem local_exports_win deferred smr importedInstances fuel record
    (st st' : InstanceState X) (w w' : World X) res name n :
  imports deferred smr importedInstances fuel record (st, w) = (res, (st', w')) ->
  obj_get name (notifiers (tables st)) = Some n ->
  obj_get name (notifiers (tables st')) = Some n /\
  obj_get name (exportsProps (tables st'))
    = obj_get name (exportsProps (tables st)).
Proof.
  intros H Hn. unfold imports in H.
  destruct (importsLoop smr importedInstances fuel record [("default", None)] w)
    as [[candidateAll|e|f] w1]; try (inversion H; subst; now auto).
  destruct (forwardCandidates deferred fuel candidateAll (st, w1))
    as [res2 [st2 w2]] eqn:E2.
  destruct (forwardCandidates_keeps _ _ _ _ _ _ _ _ _ _ Hn E2) as (F1 & F2 & _).
  destruct res2 as [[]|e|f]; try (inversion H; subst; now auto).
  destruct (installExports _ _ _) as [[[]|e|f] n3]; inversion H; subst; auto.
Qed.

(** *** A name that one [export *] source provides *)

Lemma addCandidates_absent name es (candidateAll : CandidateAll) :
  obj_get name es = None ->
  obj_get name (addCandidates es candidateAll) = obj_get name candidateAll.
Proof.
  revert candidateAll. induction es as [|[k n] es IH]; intros c H; simpl in *;
    [reflexivity|].
  destruct (String.eqb_spec name k) as [->|Hne]; [discriminate|].
  rewrite (IH _ H). destruct (obj_get k c); now rewrite obj_get_set_ne.
Qed.

Lemma addCandidates_unique name es notify (candidateAll : CandidateAll) :
  NoDup (obj_keys es) ->
  obj_get name es = Some notify ->
  obj_get name candidateAll = None ->
  obj_get name (addCandidates es candidateAll) = Some (Some notify).
Proof.
  revert candidateAll. induction es as [|[k n] es IH]; intros c Hnd H Hc;
    simpl in *; [discriminate|].
  apply NoDup_cons in Hnd as [Hnot Hnd].
  destruct (String.eqb_spec name k) as [->|Hne].
  - inversion H; subst. rewrite Hc.
    rewrite addCandidates_absent; [apply obj_get_set_eq|].
    apply obj_get_None_keys. intros Hin. apply Hnot. now apply list_elem_of_In.
  - apply IH; [assumption | assumption |].
    destruct (obj_get k c); now rewrite obj_get_set_ne.
Qed.

Lemma mergeAll_absent name entries :
  forall candidateAll : CandidateAll,
    providers name entries = 0 ->
    obj_get name (mergeAll entries candidateAll) = obj_get name candidateAll.
Proof.
  unfold providers. induction entries as [|es entries IH]; intros c H; simpl in *;
    [reflexivity|].
  fold (mergeAll entries (addCandidates es c)).
  unfold obj_has in H. destruct (obj_get name es) eqn:E; simpl in H; [lia|].
  rewrite (IH _ H). now apply addCandidates_absent.
Qed.

Lemma mergeAll_unique name entries :
  forall candidateAll : CandidateAll,
    Forall (fun es => NoDup (obj_keys es)) entries ->
    providers name entries = 1 ->
    obj_get name candidateAll = None ->
    exists es notify,
      In es entries /\ obj_get name es = Some notify /\
      obj_get name (mergeAll entries candidateAll) = Some (Some notify).
Proof.
  induction entries as [|es entries IH]; intros c Hall H Hc;
    [discriminate|].
  apply Forall_cons in Hall as [Hes Hall].
  unfold providers in H. cbn [List.filter] in H.
  cbn [mergeAll fold_left]. fold (mergeAll entries (addCandidates es c)).
  unfold obj_has in H. destruct (obj_get name es) as [notify|] eqn:E.
  - exists es, notify. split; [now left|]. split; [exact E|].
    rewrite mergeAll_absent; [now apply addCandidates_unique|].
    unfold providers, obj_has. simpl in H. lia.
  - destruct (IH (addCandidates es c) Hall H) as (es' & notify & H1 & H2 & H3).
    + now rewrite addCandidates_absent.
    + exists es', notify. split; [now right | auto].
Qed.

Lemma obj_get_Some_In {V} (k : string) (v : V) o :
  obj_get k o = Some v -> In (k, v) o.
Proof.
  induction o as [|[k0 v0] o IH]; simpl; [discriminate|].
  destruct (String.eqb_spec k k0) as [->|Hne].
  - intros H. inversion H; subst. now left.
  - intros H. right. now apply IH.
Qed.

Lemma forwardCandidates_forwards deferred fuel candidates name notify :
  NoDup (obj_keys candidates) ->
  In (name, Some notify) candidates ->
  forall (st : InstanceState X) w st' w',
    obj_get name (notifiers (tables st)) = None ->
    forwardCandidates deferred fuel candidates (st, w) = (Normal tt, (st', w')) ->
    obj_get name (notifiers (tables st')) = Some notify /\
    obj_get name (exportsProps (tables st'))
      = Some (GetForward (ForwardVar (exportsProxy deferred) name)).
Proof.
  induction candidates as [|[importName cand] rest IH];
    intros Hnd Hin st w st' w' Hn H; [destruct Hin|].
  cbn [obj_keys map fst] in Hnd. apply NoDup_cons in Hnd as [Hnot Hnd].
  cbn [forwardCandidates] in H.
  destruct Hin as [Heq|Hin].
  - inversion Heq; subst. rewrite Hn in H.
    destruct (onStore _ w) as [[[]|e|f] w1]; try discriminate.
    assert (Hrest : forall n, ~ In (name, Some n) rest).
    { intros n Hin. apply Hnot. apply list_elem_of_In.
      change name with (fst (name, Some n)). now apply in_map. }
    destruct (forwardCandidates_other _ _ _ _ Hrest _ _ _ _ _ H) as (F1 & F2 & _).
    simpl in F1, F2. rewrite F1, F2, !obj_get_set_eq. auto.
  - assert (Hne : name <> importName).
    { intros ->. apply Hnot. apply list_elem_of_In.
      change importName with (fst (importName, Some notify)). now apply in_map. }
    destruct (obj_get importName (notifiers (tables st))) as [n0|] eqn:E0;
      [now apply (IH Hnd Hin _ _ _ _ Hn) in H|].
    destruct cand as [cand|]; [|now apply (IH Hnd Hin _ _ _ _ Hn) in H].
    destruct (onStore _ w) as [[[]|e|f] w1]; try discriminate.
    apply (IH Hnd Hin) in H; [exact H|].
    simpl. now rewrite obj_get_set_ne by assumption.
Qed.

Lemma insertSorted_In x y l : In x (insertSorted y l) <-> x = y \/ In x l.
Proof.
  induction l as [|z l IH]; simpl; [intuition congruence|].
  destruct (String.leb y z); simpl; [intuition congruence|].
  rewrite IH. intuition congruence.
Qed.

Lemma sort_In x l : In x (sort l) <-> In x l.
Proof.
  induction l as [|y l IH]; simpl; [tauto|].
  unfold sort in *. simpl. rewrite insertSorted_In, IH. intuition congruence.
Qed.

(** X11.  A name for which exactly one [export *] source holds a notifier
    at the moment [imports] runs through the notifiers of the sources (in
    an import cycle, a source that is still running holds only what it had
    when it started), that is not [default] and that the module does not
    export itself, is an export of the instance once [imports] has
    returned: its notifier is that of the source, its export descriptor is
    a forwarding getter, and it is a property of [proxiedExports] with that
    getter. *)
Theorem unique_star_export_forwarded deferred smr importedInstances fuel record
    (st st' : InstanceState X) (w w' : World X) name :
  imports deferred smr importedInstances fuel record (st, w)
    = (Normal tt, (st', w')) ->
  Forall (fun es => NoDup (obj_keys es))
    (starEntries smr importedInstances fuel record w) ->
  providers name (starEntries smr importedInstances fuel record w) = 1 ->
  name <> "default" ->
  obj_get name (notifiers (tables st)) = None ->
  exists es notify,
    In es (starEntries smr importedInstances fuel record w) /\
    obj_get name es = Some notify /\
    obj_get name (notifiers (tables st')) = Some notify /\
    obj_get name (exportsProps (tables st'))
      = Some (GetForward (ForwardVar (exportsProxy deferred) name)) /\
    obj_get name (properties (namespace st'))
      = Some (GetForward (ForwardVar (exportsProxy deferred) name)).
Proof.
  intros H Hall Hone Hdef Hn.
  destruct (imports_normal_inv _ _ _ _ _ _ _ _ _ H)
    as (w1 & st2 & n & _ & Hnd & E2 & E3 & ->).
  destruct (mergeAll_unique name _ [("default", None)] Hall Hone)
    as (es & notify & H1 & H2 & H3).
  { simpl. destruct (String.eqb_spec name "default"); [contradiction | reflexivity]. }
  exists es, notify. split; [exact H1|]. split; [exact H2|].
  destruct (forwardCandidates_forwards _ _ _ _ _ Hnd (obj_get_Some_In _ _ _ H3)
              _ _ _ _ Hn E2) as [F1 F2].
  split; [exact F1|]. split; [exact F2|]. simpl.
  apply (installExports_defines _ _ _ _ E3); [|exact F2].
  apply sort_In. apply obj_get_Some_In in F2.
  change name with (fst (name, GetForward (ForwardVar (exportsProxy deferred) name))).
  now apply in_map.
Qed.

(** *** The exports namespace after [imports] *)

Lemma forwardCandidates_NoDup deferred fuel candidates :
  forall (st : InstanceState X) w res st' w',
    NoDup (obj_keys (exportsProps (tables st))) ->
    forwardCandidates deferred fuel candidates (st, w) = (res, (st', w')) ->
    NoDup (obj_keys (exportsProps (tables st'))) /\ namespace st' = namespace st.
Proof.
  induction candidates as [|[importName notify] rest IH];
    intros st w res st' w' Hnd H; cbn [forwardCandidates] in H.
  - inversion H; subst. auto.
  - destruct (obj_get importName (notifiers (tables st))) as [n0|];
      [now apply (IH _ _ _ _ _ Hnd) in H|].
    destruct notify as [notify|]; [|now apply (IH _ _ _ _ _ Hnd) in H].
    destruct (onStore _ w) as [[[]|e|f] w1]; try (inversion H; subst; now auto).
    apply IH in H; [exact H|]. simpl. now apply obj_set_NoDup.
Qed.

Lemma installExports_fresh exports ks :
  forall n,
    NoDup ks ->
    (forall k, In k ks -> obj_get k (properties n) = None) ->
    (forall k, In k ks -> exists g, obj_get k exports = Some g) ->
    frozen n = false ->
    exists n',
      installExports exports ks n = (Normal tt, n') /\
      obj_keys (properties n') = obj_keys (properties n) ++ ks.
Proof.
  induction ks as [|k ks IH]; intros n Hnd Hnew Hex Hfr; cbn [installExports].
  - exists n. split; [reflexivity | now rewrite app_nil_r].
  - apply NoDup_cons in Hnd as [Hnot Hnd].
    destruct (Hex k (or_introl eq_refl)) as [g Hg]. rewrite Hg.
    unfold bind, defineProperty. rewrite (Hnew k (or_introl eq_refl)), Hfr.
    destruct (IH {| properties := properties n ++ [(k, g)]; frozen := false;
                    active := active n |} Hnd) as (n' & E & Hk).
    + intros k' Hin. simpl. rewrite obj_get_app_ne; [apply Hnew; now right|].
      intros ->. apply Hnot. now apply list_elem_of_In.
    + intros k' Hin. apply Hex. now right.
    + reflexivity.
    + exists n'. split; [exact E|]. rewrite Hk. simpl.
      unfold obj_keys. rewrite map_app. simpl. now rewrite <- app_assoc.
Qed.

Lemma insertSorted_NoDup x l :
  ~ In x l -> NoDup l -> NoDup (insertSorted x l).
Proof.
  induction l as [|y l IH]; intros Hx Hnd; simpl.
  - apply NoDup_singleton.
  - destruct (String.leb x y).
    + apply NoDup_cons. split; [now rewrite list_elem_of_In | exact Hnd].
    + apply NoDup_cons in Hnd as [Hy Hnd]. apply NoDup_cons. split.
      * rewrite list_elem_of_In, insertSorted_In. rewrite list_elem_of_In in Hy.
        simpl in Hx. intuition congruence.
      * apply IH; [simpl in Hx; tauto | exact Hnd].
Qed.

Lemma sort_NoDup l : NoDup l -> NoDup (sort l).
Proof.
  induction l as [|x l IH]; intros Hnd; [constructor|].
  apply NoDup_cons in Hnd as [Hx Hnd]. unfold sort in *. simpl.
  apply insertSorted_NoDup; [|now apply IH].
  fold (sort l). rewrite sort_In. now rewrite <- list_elem_of_In.
Qed.

Lemma insertSorted_isSorted x l :
  isSorted l = true -> isSorted (insertSorted x l) = true.
Proof.
  induction l as [|y l IH]; intros H; [reflexivity|].
  cbn [insertSorted]. destruct (String.leb x y) eqn:Exy.
  - cbn [isSorted]. now rewrite Exy.
  - assert (Hyx : String.leb y x = true).
    { destruct (String.leb_total x y) as [K|K]; congruence. }
    assert (Hl : isSorted l = true).
    { cbn [isSorted] in H. destruct l; [reflexivity|].
      now apply andb_true_iff in H as [_ H]. }
    specialize (IH Hl). destruct l as [|z l]; [simpl; now rewrite Hyx|].
    cbn [isSorted] in H. apply andb_true_iff in H as [Hyz _].
    cbn [insertSorted] in *. destruct (String.leb x z).
    + change (String.leb y x && isSorted (x :: z :: l) = true).
      now rewrite Hyx.
    + change (String.leb y z && isSorted (z :: insertSorted x l) = true).
      now rewrite Hyz.
Qed.

Lemma sort_isSorted l : isSorted (sort l) = true.
Proof.
  induction l as [|x l IH]; [reflexivity|].
  unfold sort in *. simpl. now apply insertSorted_isSorted.
Qed.

(** X12.  When [imports] returns on an instance whose [proxiedExports] had
    no property yet, as [makeModuleInstance] leaves it: the properties of
    [proxiedExports] are the exports of the instance, each with the getter
    of its export descriptor; the object is frozen, so that no property can
    be defined on it any more, and the deferred exports are activated.
    When the names of the exports are ASCII and none starts with a digit
    (as the names of identifiers do), the properties are enumerated in
    sorted order of their names. *)
Theorem namespace_lists_exports deferred smr importedInstances fuel record
    (st st' : InstanceState X) (w w' : World X) :
  imports deferred smr importedInstances fuel record (st, w)
    = (Normal tt, (st', w')) ->
  namespace st = emptyNamespace ->
  NoDup (obj_keys (exportsProps (tables st))) ->
  (plainNames (obj_keys (exportsProps (tables st'))) = true ->
   obj_keys (properties (namespace st'))
     = sort (obj_keys (exportsProps (tables st'))) /\
   isSorted (obj_keys (properties (namespace st'))) = true) /\
  (forall k, obj_get k (properties (namespace st'))
             = obj_get k (exportsProps (tables st'))) /\
  frozen (namespace st') = true /\ active (namespace st') = true /\
  (forall k g, obj_get k (properties (namespace st')) = None ->
     exists e, defineProperty k g (namespace st') = (Throw (JErr TypeError e), namespace st')).
Proof.
  intros H Hns Hnd.
  destruct (imports_normal_inv _ _ _ _ _ _ _ _ _ H)
    as (w1 & st2 & n & _ & _ & E2 & E3 & ->).
  destruct (forwardCandidates_NoDup _ _ _ _ _ _ _ _ Hnd E2) as [Hnd2 Hns2].
  rewrite Hns in Hns2.
  destruct (installExports_fresh (exportsProps (tables st2))
              (sort (obj_keys (exportsProps (tables st2)))) (namespace st2))
    as (n' & E3' & Hkeys).
  { now apply sort_NoDup. }
  { intros k _. now rewrite Hns2. }
  { intros k Hin. apply (proj1 (sort_In _ _)) in Hin.
    destruct (obj_get k (exportsProps (tables st2))) as [g|] eqn:E; [now exists g|].
    apply obj_get_None_keys in E. exfalso. apply E. exact Hin. }
  { now rewrite Hns2. }
  rewrite E3 in E3'. inversion E3'; subst n'. rewrite Hns2 in Hkeys.
  simpl in Hkeys. cbn [namespace withNamespace tables activate freeze properties
                       frozen active].
  split; [intros _; split; [exact Hkeys | rewrite Hkeys; apply sort_isSorted]|].
  split; [|split; [reflexivity | split; [reflexivity|]]].
  - intros k. destruct (obj_get k (exportsProps (tables st2))) as [g|] eqn:E.
    + apply (installExports_defines _ _ _ _ E3); [|exact E].
      apply sort_In. apply obj_get_Some_In in E.
      change k with (fst (k, g)). now apply in_map.
    + rewrite (installExports_other _ _ _ E _ _ _ E3). now rewrite Hns2.
  - intros k g Hk. unfold defineProperty. simpl. rewrite Hk. eexists. reflexivity.
Qed.

(** *** A dependency that fails *)

(** X23.  [imports] executes a dependency before it subscribes to it.
    When the [execute] of a dependency throws, the [execute] of the
    importing instance throws that same error: the functor has been called
    once, no subscription has been made to that dependency or to a later
    one, the tables of the instance are as before and its [proxiedExports]
    is neither populated, frozen nor activated; the error is cached, and
    every later [execute] throws it again without doing anything. *)
Theorem dependency_failure_propagates deferred smr importedInstances fuel
    (st : InstanceState X) (w : World X) functor
    pre specifier importUpdaters post instance candidateAll w1 w2 e :
  optFunctor st = Some functor -> didThrow st = false ->
  updateRecord functor = pre ++ (specifier, importUpdaters) :: post ->
  importedInstances specifier = Some instance ->
  importsLoop smr importedInstances fuel pre [("default", None)] w
    = (Normal candidateAll, w1) ->
  mi_execute instance w1 = (Throw e, w2) ->
  exists st',
    execute deferred smr importedInstances fuel (st, w) = (Throw e, (st', w2)) /\
    tables st' = tables st /\ namespace st' = namespace st /\
    functorCalls st' = S (functorCalls st) /\
    forall w3,
      execute deferred smr importedInstances fuel (st', w3) = (Throw e, (st', w3)).
Proof.
  intros Hf Hd Hrec Hinst Hpre Hexec.
  pose (st1 := {| tables := tables st; namespace := namespace st;
                  optFunctor := @None (Functor X); didThrow := didThrow st;
                  thrownError := thrownError st;
                  functorCalls := S (functorCalls st) |}).
  assert (Himp :
    callFunctor deferred smr importedInstances fuel functor (st1, w)
      = (Throw e, (st1, w2))).
  { unfold callFunctor, bind, imports. rewrite Hrec.
    rewrite importsLoop_app, Hpre. cbn [importsLoop].
    unfold visit. rewrite Hinst. unfold bind. cbv beta. rewrite Hexec.
    reflexivity. }
  eexists. split; [|split; [|split; [|split]]].
  - unfold execute. rewrite Hf. fold st1. rewrite Himp. reflexivity.
  - reflexivity.
  - reflexivity.
  - reflexivity.
  - intros w3. rewrite execute_consumed by reflexivity. reflexivity.
Qed.

(** *** The bindings [makeThirdPartyModuleInstance] makes *)

Lemma obj_get_app_l {V} (k : string) (v : V) o o' :
  obj_get k o = Some v -> obj_get k (o ++ o') = Some v.
Proof.
  induction o as [|[k0 v0] o IH]; simpl; [discriminate|].
  destruct (String.eqb_spec k k0); [auto | exact IH].
Qed.

Lemma addThirdPartyExports_fresh names :
  forall st s,
    NoDup names ->
    (forall name, In name names -> obj_get name (tp_properties st) = None) ->
    (forall name, In name names -> obj_get name (tp_notifiers st) = None) ->
    exists st' s',
      addThirdPartyExports names (st, s) = (Normal tt, (st', s')) /\
      obj_keys (tp_notifiers st') = obj_keys (tp_notifiers st) ++ names /\
      cells s' = cells s ++ map (fun _ => newPlain JUndefined) names /\
      calls s' = calls s /\
      (forall i name, names !! i = Some name ->
         obj_get name (tp_notifiers st') = Some (NotifyPlain (length (cells s) + i)) /\
         obj_get name (tp_properties st') = Some (length (cells s) + i)) /\
      (forall name, ~ In name names ->
         obj_get name (tp_notifiers st') = obj_get name (tp_notifiers st) /\
         obj_get name (tp_properties st') = obj_get name (tp_properties st)) /\
      activated st' = activated st /\ executeCalls st' = executeCalls st.
Proof.
  induction names as [|name names IH]; intros st s Hnd Hnew Hnon;
    cbn [addThirdPartyExports].
  - exists st, s. split; [reflexivity|]. split; [now rewrite app_nil_r|].
    split; [now rewrite app_nil_r|].
    split; [reflexivity|]. split; [intros i name H; discriminate | auto].
  - apply NoDup_cons in Hnd as [Hnot Hnd].
    rewrite (Hnew name (or_introl eq_refl)). cbn [alloc].
    set (st1 := {| tp_notifiers := obj_set name (NotifyPlain (length (cells s)))
                                     (tp_notifiers st);
                   tp_properties := tp_properties st ++ [(name, length (cells s))];
                   tp_active := tp_active st; activated := activated st;
                   executeCalls := executeCalls st |}).
    set (s1 := {| cells := cells s ++ [newPlain JUndefined]; calls := calls s |}).
    assert (Hne : forall name', In name' names -> name' <> name).
    { intros name' Hin ->. apply Hnot. now apply list_elem_of_In. }
    destruct (IH st1 s1 Hnd) as (st' & s' & E & Hk & Hc & Hl & Hi & Ho & Ha & Hx).
    { intros name' Hin. simpl. rewrite obj_get_app_ne by now apply Hne.
      apply Hnew. now right. }
    { intros name' Hin. simpl. rewrite obj_get_set_ne by now apply Hne.
      apply Hnon. now right. }
    exists st', s'. split; [exact E|]. split.
    { rewrite Hk. simpl. rewrite obj_keys_set. unfold obj_has.
      rewrite (Hnon name (or_introl eq_refl)). now rewrite <- app_assoc. }
    split.
    { rewrite Hc. simpl. now rewrite <- app_assoc. }
    split; [exact Hl|]. split; [|split; [|auto]].
    + intros i name' Hi'. destruct i as [|i]; simpl in Hi'.
      * inversion Hi'; subst name'.
        destruct (Ho name) as [O1 O2].
        { intros Hin. apply Hnot. now apply list_elem_of_In. }
        rewrite O1, O2. simpl. rewrite Nat.add_0_r. split; [apply obj_get_set_eq|].
        apply obj_get_snoc_eq. apply Hnew. now left.
      * destruct (Hi i name' Hi') as [I1 I2]. simpl in I1, I2.
        rewrite length_app in I1, I2. simpl in I1, I2.
        replace (length (cells s) + S i) with (length (cells s) + 1 + i) by lia.
        auto.
    + intros name' Hn. destruct (Ho name') as [O1 O2].
      { intros Hin. apply Hn. now right. }
      rewrite O1, O2. simpl.
      assert (name' <> name) by (intros ->; apply Hn; now left).
      rewrite obj_get_set_ne, obj_get_app_ne by assumption. auto.
Qed.

Lemma addThirdPartyExports_redefine names :
  forall st s,
    (~ NoDup names \/
     exists name, In name names /\ obj_get name (tp_properties st) <> None) ->
    exists name st' s',
      In name names /\
      addThirdPartyExports names (st, s)
        = (Throw (JErr TypeError ("Cannot redefine property: " +:+ name)), (st', s')).
Proof.
  induction names as [|name names IH]; intros st s H.
  - destruct H as [H|(name & [] & _)]. exfalso. apply H. constructor.
  - cbn [addThirdPartyExports alloc].
    destruct (obj_get name (tp_properties st)) as [r0|] eqn:E.
    + exists name. eexists. eexists. split; [now left | reflexivity].
    + match goal with
      | |- context [addThirdPartyExports names (?st1, ?s1)] =>
          destruct (IH st1 s1) as (name' & st' & s' & Hin & Hthrow)
      end.
      * destruct H as [H|(name' & [<-|Hin] & Hp)]; [|contradiction|].
        -- destruct (decide (name ∈ names)) as [Hin|Hnin].
           ++ right. exists name. split; [now apply list_elem_of_In|].
              simpl. rewrite obj_get_snoc_eq by assumption. discriminate.
           ++ left. intros Hnd. apply H. apply NoDup_cons. auto.
        -- right. exists name'. split; [exact Hin|]. simpl.
           destruct (obj_get name' (tp_properties st)) as [r'|] eqn:E';
             [|contradiction].
           rewrite (obj_get_app_l _ _ _ _ E'). discriminate.
      * exists name', st', s'. split; [now right | exact Hthrow].
Qed.

Lemma some_not_string_strings names :
  some (fun name => negb (String.eqb (typeof name) "string"))
    (JArray (map JStr names)) = false.
Proof. simpl. induction names as [|n names IH]; simpl; auto. Qed.

Lemma stringOf_strings names :
  map stringOf (elements (JArray (map JStr names))) = names.
Proof. simpl. induction names as [|n names IH]; simpl; congruence. Qed.

(** X13.  [makeThirdPartyModuleInstance] on a record whose [exports] is an
    array of strings.  When the names are distinct, the instance is made:
    its notifiers are those names (enumerated in the order of the array
    when no name starts with a digit), each name has a binding of its own, new,
    holding [undefined] and without updaters, behind the accessor property
    of that name on [proxiedExports]; the bindings that existed are as
    before, no updater is called and the record's [execute] is not called.
    When a name is repeated, no instance is made: defining the property
    again throws a TypeError. *)
Theorem third_party_exports_bound moduleSpecifier (record : ThirdPartyRecord X)
    (names : list string) (s : Store) :
  tp_exports record = JArray (map JStr names) ->
  (NoDup names ->
   exists st s',
     makeThirdPartyModuleInstance moduleSpecifier record s = (Normal st, s') /\
     (enumeratedAsCreated names = true -> obj_keys (tp_notifiers st) = names) /\
     (forall name, obj_has name (tp_notifiers st) = true <-> In name names) /\
     (forall i name, names !! i = Some name ->
        obj_get name (tp_notifiers st) = Some (NotifyPlain (length (cells s) + i)) /\
        obj_get name (tp_properties st) = Some (length (cells s) + i) /\
        cells s' !! (length (cells s) + i) = Some (newPlain JUndefined)) /\
     (exists new, cells s' = cells s ++ new) /\ calls s' = calls s /\
     activated st = false /\ executeCalls st = 0) /\
  (~ NoDup names ->
   exists name s',
     In name names /\
     makeThirdPartyModuleInstance moduleSpecifier record s
       = (Throw (JErr TypeError ("Cannot redefine property: " +:+ name)), s')).
Proof.
  intros Hex. unfold makeThirdPartyModuleInstance. rewrite Hex.
  rewrite some_not_string_strings, stringOf_strings. cbn [truthy isArray negb orb].
  split.
  - intros Hnd.
    destruct (addThirdPartyExports_fresh names
                {| tp_notifiers := []; tp_properties := []; tp_active := false;
                   activated := false; executeCalls := 0 |} s Hnd)
      as (st' & s' & E & Hk & Hc & Hl & Hi & Ho & Ha & Hx);
      [reflexivity | reflexivity |].
    rewrite E. exists st', s'. split; [reflexivity|]. split; [|split; [|split]].
    + intros _. exact Hk.
    + intros name. unfold obj_has.
      pose proof (obj_get_None_keys name (tp_notifiers st')) as Hn.
      rewrite Hk in Hn.
      destruct (obj_get name (tp_notifiers st')); split; intros Hin;
        try reflexivity; try discriminate.
      * destruct (in_dec string_dec name names) as [Hyes|Hno]; [exact Hyes|].
        apply Hn in Hno. discriminate.
      * exfalso. now apply (proj1 Hn).
    + intros i name Hname. destruct (Hi i name Hname) as [I1 I2].
      split; [exact I1|]. split; [exact I2|]. rewrite Hc.
      rewrite lookup_app_r by lia.
      replace (length (cells s) + i - length (cells s)) with i by lia.
      rewrite list_lookup_fmap. now rewrite Hname.
    + split; [eexists; exact Hc | auto].
  - intros Hnd.
    destruct (addThirdPartyExports_redefine names
                {| tp_notifiers := []; tp_properties := []; tp_active := false;
                   activated := false; executeCalls := 0 |} s (or_introl Hnd))
      as (name & st' & s' & Hin & E).
    rewrite E. exists name, s'. auto.
Qed.

Lemma addThirdPartyExports_activated names :
  forall st s res st' s',
    addThirdPartyExports names (st, s) = (res, (st', s')) ->
    activated st' = activated st /\ executeCalls st' = executeCalls st /\
    tp_active st' = tp_active st.
Proof.
  induction names as [|name names IH]; intros st s res st' s' H;
    cbn [addThirdPartyExports alloc] in H.
  - inversion H; subst. auto.
  - destruct (obj_get name (tp_properties st)); [inversion H; subst; auto|].
    apply IH in H. simpl in H. exact H.
Qed.

Lemma makeThirdPartyModuleInstance_fresh moduleSpecifier
    (record : ThirdPartyRecord X) s st s' :
  makeThirdPartyModuleInstance moduleSpecifier record s = (Normal st, s') ->
  activated st = false /\ executeCalls st = 0 /\ tp_active st = false.
Proof.
  unfold makeThirdPartyModuleInstance. intros H.
  destruct (truthy (tp_exports record)); [|inversion H; subst; auto].
  destruct (negb _ || _); [discriminate|].
  destruct (addThirdPartyExports _ _) as [[[]|e|f] [st1 s1]] eqn:E;
    inversion H; subst.
  apply addThirdPartyExports_activated in E. exact E.
Qed.

(** X14.  The [execute] of the instance [makeThirdPartyModuleInstance]
    returns, whatever happens between the calls: no run of [execute] calls
    calls the record's [execute] more than once; the first call activates
    the deferred exports and ends as the record's [execute] ends, error
    included; every later call returns without calling anything, also when
    the first call threw. *)
Theorem third_party_execute_once moduleSpecifier (record : ThirdPartyRecord X)
    (s s' : Store) (st : ThirdPartyState)
    (between : list (World X -> World X)) (w : World X) :
  makeThirdPartyModuleInstance moduleSpecifier record s = (Normal st, s') ->
  let run := executeAllThirdParty record between st w in
  executeCalls (fst (snd run)) <= 1 /\
  match between, fst run with
  | g :: _, res :: later =>
      res = fst (tp_execute record (g w)) /\
      Forall (fun r => r = Normal tt) later /\
      tp_active (fst (snd run)) = true /\
      executeCalls (fst (snd run)) = 1
  | _, _ => True
  end.
Proof.
  intros Hmk run. subst run.
  destruct (makeThirdPartyModuleInstance_fresh _ _ _ _ _ Hmk) as (Ha & Hc & _).
  destruct between as [|g rest]; cbn [executeAllThirdParty]; [simpl; split; [lia | exact I]|].
  destruct (executeThirdParty_first record st (g w) Ha) as (st' & -> & Ha' & Hact & Hc').
  destruct (executeAllThirdParty_activated record rest st'
              (snd (tp_execute record (g w))) Ha') as [w2 ->].
  simpl. split; [lia|]. split; [reflexivity|].
  split; [now apply Forall_map_const|]. split; [exact Hact | lia].
Qed.

End InstanceMore.

(** * More on compartments *)

Section CompartmentMore.

Import Compartment.

Lemma invalidNamesOf_nil isValidIdentifierName lexicals :
  Nat.eqb (length (invalidNamesOf isValidIdentifierName lexicals)) 0
    = forallb isValidIdentifierName (obj_keys lexicals).
Proof.
  unfold invalidNamesOf. induction (obj_keys lexicals) as [|k ks IH]; simpl;
    [reflexivity|].
  destruct (isValidIdentifierName k); simpl; [exact IH | reflexivity].
Qed.



Section Methods.

Context {W : Type}.
Variable load : nat -> string -> SM (Realm * W) unit.
Variable link : nat -> string -> SM (Realm * W) (Linked W).
Variable otherJobs : Realm * W -> Realm * W.

(** X16.  The guards of [import], [load] and [importNow] come before
    anything else.  With a specifier that is not a string each throws (for
    the async methods: rejects with) a TypeError that names the method, also
    on an object that is no compartment; with a string specifier on a
    compartment that lacks [importHook] or [resolveHook], each throws the
    TypeError of [assertModuleHooks].  In both cases nothing has changed,
    and neither [load] nor [link] has been called: the outcome does not
    depend on them. *)
Theorem module_methods_guarded (this : nat) (specifier : JsVal) (st : Realm * W) :
  (isString specifier = false ->
   import W load link otherJobs this specifier st
     = (Throw (JErr TypeError "first argument of import() must be a string"), st) /\
   loadMethod W load this specifier st
     = (Throw (JErr TypeError "first argument of load() must be a string"), st) /\
   importNow W link this specifier st
     = (Throw (JErr TypeError "first argument of importNow() must be a string"), st)) /\
  (forall fields,
     isString specifier = true ->
     privateFields (fst st) !! this = Some fields ->
     typeof (importHook fields) <> "function" \/
     typeof (resolveHook fields) <> "function" ->
     import W load link otherJobs this specifier st = (Throw hooksMissing, st) /\
     loadMethod W load this specifier st = (Throw hooksMissing, st) /\
     importNow W link this specifier st = (Throw hooksMissing, st)).
Proof.
  split.
  - intros Hs. unfold import, loadMethod, importNow.
    rewrite typeof_string, Hs. simpl. auto.
  - intros fields Hs Hf Hh.
    assert (Ha : assertModuleHooks W this st = (Throw hooksMissing, st)).
    { unfold assertModuleHooks. rewrite Hf.
      destruct (String.eqb_spec (typeof (importHook fields)) "function") as [E1|E1];
        destruct (String.eqb_spec (typeof (resolveHook fields)) "function") as [E2|E2];
        simpl; try reflexivity.
      destruct Hh; contradiction. }
    unfold import, loadMethod, importNow, andThen.
    rewrite typeof_string, Hs. simpl. unfold bind. rewrite Ha. auto.
Qed.

(** X17.  Once the guards have passed, [importNow] links, then executes:
    what [link] throws is thrown and the instance is not executed; what the
    [execute] of the linked instance throws is thrown, and no exports proxy
    is returned.  [import] rejects with whatever the [importNow] it runs
    after [load] throws. *)
Theorem importNow_propagates (this : nat) (S : string) (st : Realm * W) :
  assertModuleHooks W this st = (Normal tt, st) ->
  (forall e st1,
     link this S st = (Throw e, st1) ->
     importNow W link this (JStr S) st = (Throw e, st1)) /\
  (forall instance e st1 st2,
     link this S st = (Normal instance, st1) ->
     execute instance st1 = (Throw e, st2) ->
     importNow W link this (JStr S) st = (Throw e, st2)) /\
  (forall e st1 st2,
     load this S st = (Normal tt, st1) ->
     importNow W link this (JStr S) (otherJobs st1) = (Throw e, st2) ->
     import W load link otherJobs this (JStr S) st = (Throw e, st2)).
Proof.
  intros Hh. split; [|split].
  - intros e st1 Hl. unfold importNow. simpl. unfold bind. now rewrite Hh, Hl.
  - intros instance e st1 st2 Hl He. unfold importNow. simpl. unfold bind.
    now rewrite Hh, Hl, He.
  - intros e st1 st2 Hl Hn. unfold import, andThen. simpl.
    unfold bind at 1. rewrite Hh. unfold bind at 1. rewrite Hl.
    unfold bind at 1. now rewrite Hn.
Qed.

End Methods.

End CompartmentMore.

(** * Properties of the compartment map for node_modules *)

Section NodeModulesFacts.

Import Names NodeModules.

(** *** Assignment to an object made by [{}] *)

Lemma assigned_assign_eq {V} (k : string) (v : V) o :
  assigned k (assign k v o) = Some v.
Proof.
  unfold assigned, assign.
  destruct (String.eqb k "__proto__"); [reflexivity | apply obj_get_set_eq].
Qed.

Lemma assigned_assign_ne {V} (k k' : string) (v : V) o :
  k <> k' -> assigned k (assign k' v o) = assigned k o.
Proof.
  intros Hne. unfold assigned, assign.
  destruct (String.eqb_spec k "__proto__") as [->|Hk];
    destruct (String.eqb_spec k' "__proto__") as [->|Hk']; cbn [own proto];
    try reflexivity; [congruence|].
  now apply obj_get_set_ne.
Qed.

Lemma own_proto_assign {V} (k : string) (v : V) o :
  obj_get "__proto__" (own (assign k v o)) = obj_get "__proto__" (own o).
Proof.
  unfold assign. destruct (String.eqb_spec k "__proto__") as [->|Hk];
    cbn [own]; [reflexivity|].
  apply obj_get_set_ne. congruence.
Qed.

Lemma own_keys_assign {V} (k : string) (v : V) o :
  assigned k o = None ->
  obj_keys (own (assign k v o)) = obj_keys (own o) ++ ownKeys [k].
Proof.
  unfold assigned, assign, ownKeys. cbn [List.filter].
  destruct (String.eqb k "__proto__"); cbn [own negb]; intros H.
  - now rewrite app_nil_r.
  - rewrite obj_keys_set. unfold obj_has. now rewrite H.
Qed.

Lemma ownKeys_plain (keys : list string) :
  ~ In "__proto__" keys -> ownKeys keys = keys.
Proof.
  unfold ownKeys. induction keys as [|k keys IH]; intros Hn; cbn [List.filter];
    [reflexivity|].
  destruct (String.eqb_spec k "__proto__") as [->|Hk]; cbn [negb].
  - exfalso. apply Hn. now left.
  - f_equal. apply IH. intros Hin. apply Hn. now right.
Qed.

(** *** [translateGraph] *)

Lemma addExports_get packageLocation exports :
  NoDup (obj_keys exports) ->
  forall modules name,
    assigned name (addExports packageLocation exports modules) =
      match obj_get name exports with
      | Some module => Some {| compartment := packageLocation; module := module |}
      | None => assigned name modules
      end.
Proof.
  unfold addExports.
  induction exports as [|[k m] exports IH]; intros Hnd modules name;
    cbn [fold_left fst snd]; [reflexivity|].
  cbn [obj_keys map fst] in Hnd. apply NoDup_cons in Hnd as [Hnot Hnd].
  rewrite (IH Hnd). cbn [obj_get].
  destruct (String.eqb_spec name k) as [->|Hne].
  - assert (E : obj_get k exports = None).
    { apply obj_get_None_keys. intros Hin. apply Hnot. now apply list_elem_of_In. }
    rewrite E. apply assigned_assign_eq.
  - destruct (obj_get name exports); [reflexivity|].
    now apply assigned_assign_ne.
Qed.

Lemma addExports_own_proto packageLocation exports :
  forall modules,
    obj_get "__proto__" (own (addExports packageLocation exports modules))
      = obj_get "__proto__" (own modules).
Proof.
  unfold addExports.
  induction exports as [|[k m] exports IH]; intros modules;
    cbn [fold_left fst snd]; [reflexivity|].
  rewrite IH. apply own_proto_assign.
Qed.

Lemma addDependencies_get graph dependencies :
  forall modules,
    (forall dependency, In dependency dependencies ->
       exists node, obj_get dependency graph = Some node /\
                    NoDup (obj_keys (exports node))) ->
    exists modules',
      addDependencies graph dependencies modules = Normal modules' /\
      obj_get "__proto__" (own modules') = obj_get "__proto__" (own modules) /\
      forall name,
        assigned name modules' =
          match provider graph dependencies name with
          | Some found => Some found
          | None => assigned name modules
          end.
Proof.
  induction dependencies as [|dependency rest IH]; intros modules Hok;
    cbn [addDependencies provider].
  - exists modules. repeat split; reflexivity.
  - destruct (Hok dependency (or_introl eq_refl)) as (node & Hnode & Hnd).
    rewrite Hnode.
    destruct (IH (addExports dependency (exports node) modules))
      as (modules' & E & Hproto & Hget).
    { intros d Hin. apply Hok. now right. }
    exists modules'. split; [exact E|]. split.
    { rewrite Hproto. apply addExports_own_proto. }
    intros name. rewrite Hget.
    destruct (provider graph rest name); [reflexivity|].
    rewrite addExports_get by assumption.
    now destruct (obj_get name (exports node)).
Qed.

Lemma addDependencies_missing graph dependencies :
  forall modules,
    (exists dependency, In dependency dependencies /\
                        obj_get dependency graph = None) ->
    addDependencies graph dependencies modules = Throw undefinedNode.
Proof.
  induction dependencies as [|dependency rest IH]; intros modules (d & Hin & Hd);
    [destruct Hin|].
  cbn [addDependencies].
  destruct (obj_get dependency graph) as [node|] eqn:E; [|reflexivity].
  apply IH. exists d. split; [|exact Hd].
  destruct Hin as [->|Hin]; [congruence | exact Hin].
Qed.

Lemma addDependencies_throws graph dependencies :
  forall modules e,
    addDependencies graph dependencies modules = Throw e -> e = undefinedNode.
Proof.
  induction dependencies as [|dependency rest IH]; intros modules e H;
    cbn [addDependencies] in H; [discriminate|].
  destruct (obj_get dependency graph); [now apply IH in H | congruence].
Qed.

Lemma translateEntries_ok graph entries :
  forall compartments,
    NoDup (obj_keys entries) ->
    (forall packageLocation node dependency,
       In (packageLocation, node) entries -> In dependency (dependencies node) ->
       exists node', obj_get dependency graph = Some node' /\
                     NoDup (obj_keys (exports node'))) ->
    (forall packageLocation, In packageLocation (obj_keys entries) ->
       assigned packageLocation compartments = None) ->
    exists compartments',
      translateEntries graph entries compartments = Normal compartments' /\
      obj_keys (own compartments')
        = obj_keys (own compartments) ++ ownKeys (obj_keys entries) /\
      obj_get "__proto__" (own compartments')
        = obj_get "__proto__" (own compartments) /\
      (forall packageLocation node,
         In (packageLocation, node) entries ->
         exists c,
           assigned packageLocation compartments' = Some c /\
           c_label c = label node /\ c_location c = packageLocation /\
           c_parsers c = parsers node /\ c_types c = types node /\
           obj_get "__proto__" (own (c_modules c)) = None /\
           forall exportName,
             assigned exportName (c_modules c)
               = provider graph (dependencies node) exportName) /\
      (forall packageLocation, ~ In packageLocation (obj_keys entries) ->
         assigned packageLocation compartments'
           = assigned packageLocation compartments).
Proof.
  induction entries as [|[packageLocation node] entries IH];
    intros compartments Hnd Hok Hnew; cbn [translateEntries].
  - exists compartments. split; [reflexivity|]. split; [now rewrite app_nil_r|].
    split; [reflexivity|]. split; [intros ? ? []| reflexivity].
  - cbn [obj_keys map fst] in Hnd. apply NoDup_cons in Hnd as [Hnot Hnd].
    destruct (addDependencies_get graph (dependencies node) emptyObject)
      as (modules & Em & Hproto & Hget).
    { intros d Hin. apply (Hok packageLocation node d); [now left | exact Hin]. }
    rewrite Em.
    set (c := {| c_label := label node; c_location := packageLocation;
                 c_modules := modules; c_parsers := parsers node;
                 c_types := types node |}).
    assert (Hne : forall l, In l (obj_keys entries) -> l <> packageLocation).
    { intros l Hin ->. apply Hnot. now apply list_elem_of_In. }
    destruct (IH (assign packageLocation c compartments) Hnd)
      as (compartments' & E & Hkeys & Hp & Hall & Hother).
    { intros l n d Hin. apply (Hok l n d). now right. }
    { intros l Hin. rewrite assigned_assign_ne by now apply Hne.
      apply Hnew. now right. }
    exists compartments'. split; [exact E|]. split; [|split; [|split]].
    + rewrite Hkeys, own_keys_assign by (apply Hnew; now left).
      rewrite <- app_assoc. f_equal. unfold ownKeys.
      cbn [obj_keys map fst List.filter].
      destruct (negb (String.eqb packageLocation "__proto__")); reflexivity.
    + rewrite Hp. apply own_proto_assign.
    + intros l n [Heq|Hin]; [|now apply Hall].
      inversion Heq; subst l n. exists c.
      split.
      { rewrite Hother; [apply assigned_assign_eq|].
        intros Hin. apply Hnot. now apply list_elem_of_In. }
      repeat (split; [reflexivity|]). split; [exact Hproto|].
      intros name. cbn [c_modules c]. rewrite Hget.
      destruct (provider graph (dependencies node) name); [reflexivity|].
      unfold assigned, emptyObject. cbn [own proto obj_get].
      now destruct (String.eqb name "__proto__").
    + intros l Hn. rewrite Hother by (intros Hin; apply Hn; now right).
      apply assigned_assign_ne. intros ->. apply Hn. now left.
Qed.

Lemma translateEntries_missing graph entries :
  forall compartments,
    (exists packageLocation node dependency,
       In (packageLocation, node) entries /\ In dependency (dependencies node) /\
       obj_get dependency graph = None) ->
    translateEntries graph entries compartments = Throw undefinedNode.
Proof.
  induction entries as [|[packageLocation node] entries IH];
    intros compartments (l & n & d & Hin & Hd & Hnone); [destruct Hin|].
  cbn [translateEntries].
  destruct (addDependencies graph (dependencies node) emptyObject)
    as [modules|e|f] eqn:E.
  - apply IH. exists l, n, d. split; [|auto].
    destruct Hin as [Heq|Hin]; [|exact Hin].
    inversion Heq; subst l n.
    rewrite addDependencies_missing in E; [discriminate|]. now exists d.
  - apply addDependencies_throws in E. now subst e.
  - exfalso. revert E. generalize (@emptyObject ModuleDescriptor).
    induction (dependencies node) as [|d0 ds IHd]; intros ms E;
      cbn [addDependencies] in E; [discriminate|].
    destruct (obj_get d0 graph); [now apply IHd in E | discriminate].
Qed.

(** X18.  [translateGraph] on a graph in which every dependency of every
    package is a key, as [graphPackages] builds it: the compartment map has
    the given main location and a compartment for every package; a
    compartment takes its label, parsers and types from the package and is
    located at its key; and for every name, what its [modules] hold for the
    name is what the last dependency that exports the name gives: that
    dependency and its module, and nothing when no dependency exports it.
    [compartments] and [modules] are made by [{}]: what they hold for a
    name is their own property of that name, except for [__proto__], which
    is never an own property and is held as the prototype.  When no key of
    the graph is an array index, the compartments are enumerated in the
    order of the packages, the key [__proto__] left out. *)
Theorem translateGraph_closed (mainPackagePath : string) (graph : Graph) :
  NoDup (obj_keys graph) -> distinctExports graph -> closed graph ->
  exists map,
    translateGraph mainPackagePath graph = Normal map /\
    main map = mainPackagePath /\
    (enumeratedAsCreated (obj_keys graph) = true ->
     obj_keys (own (compartments map)) = ownKeys (obj_keys graph)) /\
    obj_get "__proto__" (own (compartments map)) = None /\
    forall packageLocation node,
      In (packageLocation, node) graph ->
      exists c,
        assigned packageLocation (compartments map) = Some c /\
        c_label c = label node /\ c_location c = packageLocation /\
        c_parsers c = parsers node /\ c_types c = types node /\
        obj_get "__proto__" (own (c_modules c)) = None /\
        forall exportName,
          assigned exportName (c_modules c)
            = provider graph (dependencies node) exportName.
Proof.
  intros Hnd Hex Hclosed. unfold translateGraph.
  destruct (translateEntries_ok graph graph emptyObject Hnd)
    as (compartments' & E & Hkeys & Hproto & Hall & _).
  - intros l n d Hin Hd.
    destruct (obj_get d graph) as [node'|] eqn:Ed.
    + exists node'. split; [reflexivity|].
      apply (Hex d). now apply obj_get_Some_In.
    + exfalso. exact (Hclosed l n d Hin Hd Ed).
  - intros l _. unfold assigned, emptyObject. cbn [own proto obj_get].
    now destruct (String.eqb l "__proto__").
  - rewrite E. eexists. split; [reflexivity|]. cbn [main compartments].
    split; [reflexivity|]. split; [intros _; exact Hkeys|].
    split; [exact Hproto | exact Hall].
Qed.

(** X19.  [translateGraph] on a graph in which a package has a dependency
    that is not a key: it throws the TypeError of destructuring [undefined],
    and returns no compartment map, wherever in the graph that package
    is. *)
Theorem translateGraph_missing_dependency (mainPackagePath : string)
    (graph : Graph) (packageLocation dependency : string) (node : Node) :
  In (packageLocation, node) graph ->
  In dependency (dependencies node) ->
  obj_get dependency graph = None ->
  translateGraph mainPackagePath graph = Throw undefinedNode /\
  errorClassOf undefinedNode = Some TypeError.
Proof.
  intros Hin Hd Hnone. unfold translateGraph.
  rewrite translateEntries_missing; [split; reflexivity|].
  now exists packageLocation, node, dependency.
Qed.

(** *** Descriptors are read once *)

Lemma includes_keys {V} (k : string) (o : list (string * V)) :
  includes k (obj_keys o) = obj_has k o.
Proof.
  unfold obj_has. induction o as [|[k0 v0] o IH]; simpl; [reflexivity|].
  destruct (String.eqb k k0); simpl; [reflexivity | exact IH].
Qed.

Lemma includes_app x l1 l2 : includes x (l1 ++ l2) = includes x l1 || includes x l2.
Proof.
  induction l1 as [|y l1 IH]; simpl; [reflexivity|].
  rewrite IH. now rewrite orb_assoc.
Qed.

Lemma misses_ext known1 known2 requested :
  (forall x, includes x known1 = includes x known2) ->
  misses known1 requested = misses known2 requested.
Proof.
  revert known1 known2.
  induction requested as [|l rest IH]; intros k1 k2 H; simpl; [reflexivity|].
  rewrite <- H. destruct (includes l k1).
  - now apply IH.
  - f_equal. apply IH. intros x. simpl. now rewrite H.
Qed.

Lemma misses_spec requested :
  forall known,
    NoDup (misses known requested) /\
    forall x, In x (misses known requested) -> includes x known = false.
Proof.
  induction requested as [|l rest IH]; intros known; simpl.
  - split; [constructor | intros x []].
  - destruct (includes l known) eqn:E; [apply IH|].
    destruct (IH (l :: known)) as [Hnd Hnot]. split.
    + apply NoDup_cons. split; [|exact Hnd].
      rewrite list_elem_of_In. intros Hin. apply Hnot in Hin. simpl in Hin.
      now rewrite String.eqb_refl in Hin.
    + intros x [<-|Hin]; [exact E|].
      apply Hnot in Hin. simpl in Hin. now apply orb_false_iff in Hin as [_ Hin].
Qed.

Section Descriptors.

Context {Descriptor Bytes Files : Type}.
Variable resolve : string -> string -> string.
Variable read : string -> Files -> option Bytes * Files.
Variable parse : Bytes -> Completion Descriptor.

Lemma readDescriptor_state packageLocation (st : ReadState Descriptor Files) :
  memo (snd (readDescriptor resolve read parse packageLocation st)) = memo st /\
  readLog (snd (readDescriptor resolve read parse packageLocation st))
    = readLog st ++ [resolve "package.json" packageLocation].
Proof.
  unfold readDescriptor.
  destruct (read (resolve "package.json" packageLocation) (files st))
    as [[bytes|] files'].
  - destruct (parse bytes); split; reflexivity.
  - split; reflexivity.
Qed.

Lemma readAll_spec requests :
  forall st : ReadState Descriptor Files,
    let run := readAll resolve read parse requests st in
    readLog (snd run)
      = readLog st ++ map (resolve "package.json")
                        (misses (obj_keys (memo st)) (map fst requests)) /\
    (forall packageLocation promise,
       obj_get packageLocation (memo st) = Some promise ->
       obj_get packageLocation (memo (snd run)) = Some promise) /\
    Forall2 (fun request promise =>
               obj_get (fst request) (memo (snd run)) = Some promise)
      requests (fst run).
Proof.
  induction requests as [|[packageLocation change] rest IH]; intros st;
    cbn [readAll map fst misses].
  - cbv zeta. simpl. split; [now rewrite app_nil_r|]. split; [auto | constructor].
  - cbv zeta. unfold readDescriptorWithMemo. cbn [memo].
    rewrite includes_keys. unfold obj_has.
    destruct (obj_get packageLocation (memo st)) as [promise|] eqn:E.
    + specialize (IH {| memo := memo st; files := change (files st);
                        readLog := readLog st |}).
      cbv zeta in IH. cbn [memo readLog] in IH.
      destruct (readAll resolve read parse rest _) as [promises st2].
      cbn [fst snd] in *. destruct IH as (I1 & I2 & I3).
      split; [exact I1|]. split; [exact I2|].
      constructor; [now apply I2 | exact I3].
    + pose proof (readDescriptor_state packageLocation
                    {| memo := memo st; files := change (files st);
                       readLog := readLog st |}) as [Hm Hl].
      destruct (readDescriptor resolve read parse packageLocation _)
        as [promise st1].
      cbn [fst snd memo readLog] in Hm, Hl.
      specialize (IH {| memo := obj_set packageLocation promise (memo st1);
                        files := files st1; readLog := readLog st1 |}).
      cbv zeta in IH. cbn [memo readLog] in IH.
      destruct (readAll resolve read parse rest _) as [promises st2].
      cbn [fst snd] in *. destruct IH as (I1 & I2 & I3).
      split; [|split].
      * rewrite I1, Hl, Hm. rewrite <- app_assoc. simpl. do 3 f_equal.
        apply misses_ext. intros x. rewrite obj_keys_set. unfold obj_has.
        rewrite E. rewrite includes_app. simpl.
        rewrite orb_false_r. apply orb_comm.
      * intros l p Hp. apply I2. rewrite Hm.
        rewrite obj_get_set_ne; [exact Hp | congruence].
      * constructor; [|exact I3]. cbn [fst]. apply I2. apply obj_get_set_eq.
Qed.


End Descriptors.

End NodeModulesFacts.

(** * Properties of evaluation *)

Section EvaluateFacts.

Import Evaluate.

Context {Transform Lexicals W : Type}.
Variable mandatoryTransforms : Transform.
Variable evadeHtmlCommentTest : Transform.
Variable evadeImportExpressionTest : Transform.
Variable rejectSomeDirectEvalExpressions : Transform.
Variable applyTransforms :
  string -> list Transform -> SM (State Transform Lexicals W) string.
Variable runSource :
  nat -> Scope Lexicals -> string -> SM (State Transform Lexicals W) JsVal.
Variable assertFail : option JsVal -> JsVal.
Variable withModuleLexicals : Lexicals -> Lexicals -> Completion Lexicals.

Local Abbreviation callEvaluator :=
  (Evaluate.callEvaluator Transform mandatoryTransforms Lexicals W
     applyTransforms runSource assertFail).
Local Abbreviation guarded :=
  (Evaluate.guarded Transform Lexicals W runSource assertFail).
Local Abbreviation evaluateMethod :=
  (Evaluate.evaluateMethod Transform mandatoryTransforms evadeHtmlCommentTest
     evadeImportExpressionTest rejectSomeDirectEvalExpressions Lexicals W
     applyTransforms runSource assertFail withModuleLexicals).
Local Abbreviation evaluateFunctor :=
  (Evaluate.evaluateFunctor Transform mandatoryTransforms evadeHtmlCommentTest
     evadeImportExpressionTest rejectSomeDirectEvalExpressions Lexicals W
     applyTransforms runSource assertFail withModuleLexicals).
Local Abbreviation localTransformsOf :=
  (Evaluate.localTransformsOf Transform evadeHtmlCommentTest
     evadeImportExpressionTest rejectSomeDirectEvalExpressions Lexicals).
Local Abbreviation setupEvaluation := (Evaluate.setupEvaluation Transform Lexicals W).
Local Abbreviation unsafeOutOfReach := (Evaluate.unsafeOutOfReach Transform Lexicals W).
Local Abbreviation stillUnsafe := (Evaluate.stillUnsafe Transform Lexicals W).
Local Abbreviation setUnsafe := (Evaluate.setUnsafe Transform Lexicals W).
Local Abbreviation revoke := (Evaluate.revoke Transform Lexicals W).

Lemma revoke_outOfReach h (st : State Transform Lexicals W) :
  unsafeOutOfReach h (revoke h st).
Proof.
  intros handler. unfold Evaluate.revoke. simpl.
  destruct (handlers st !! h) as [handler0|] eqn:E.
  - rewrite list_lookup_insert_eq by (eapply lookup_lt_Some; exact E).
    intros H. inversion H; subst. now right.
  - congruence.
Qed.

Lemma notUnsafe_outOfReach h (st : State Transform Lexicals W) :
  stillUnsafe h st = false ->
  unsafeOutOfReach h st.
Proof.
  unfold Evaluate.stillUnsafe. intros H handler E. rewrite E in H. now left.
Qed.

(** X21.  The function [makeEvaluate] returns, on a source that its
    transforms accept (the local ones, then the global ones, then the
    mandatory ones, as one list): it runs the transformed source with
    [useUnsafeEvaluator] set, and when it is done the unsafe evaluator is
    out of reach, whatever the evaluated code did: the flag is off, or the
    scope proxy is revoked.  It returns a value only if the evaluation
    returned that value and reset the flag; if the flag is still set it
    revokes the scope proxy and throws the error of [assert.fail] instead of
    the outcome of the evaluation. *)
Theorem evaluator_guards_unsafe_flag (ev : Evaluator Transform Lexicals)
    (source source' : string) (localTransforms : list Transform)
    (st st1 : State Transform Lexicals W) :
  let h := ev_handler ev in
  let call :=
    callEvaluator ev source localTransforms st in
  let evaluation := runSource h (ev_scope ev) source' (setUnsafe h st1) in
  applyTransforms source
    (localTransforms ++ ev_globalTransforms ev ++ [mandatoryTransforms]) st
    = (Normal source', st1) ->
  ((forall f, fst call <> Abort f) ->
   unsafeOutOfReach h (snd call)) /\
  (forall v, fst call = Normal v ->
     evaluation = (Normal v, snd call) /\
     stillUnsafe h (snd call) = false) /\
  (stillUnsafe h (snd evaluation) = true ->
   (forall f, fst evaluation <> Abort f) ->
   (exists err, fst call = Throw (assertFail err)) /\
   snd call = revoke h (snd evaluation)) /\
  (stillUnsafe h (snd evaluation) = false -> call = evaluation).
Proof.
  intros h call evaluation Ht. subst call evaluation.
  unfold Evaluate.callEvaluator, bind. rewrite Ht. unfold Evaluate.guarded. fold h.
  destruct (runSource h (ev_scope ev) source' (setUnsafe h st1))
    as [[v|e|f] st2]; cbn [fst snd].
  - destruct (stillUnsafe h st2) eqn:Eu; cbn [fst snd].
    + split; [intros _; apply revoke_outOfReach|].
      split; [discriminate|]. split; [|discriminate].
      intros _ _. split; [now exists None | reflexivity].
    + split; [intros _; now apply notUnsafe_outOfReach|].
      split; [intros v' H; inversion H; subst; auto|].
      split; [discriminate | reflexivity].
  - destruct (stillUnsafe h st2) eqn:Eu; cbn [fst snd].
    + split; [intros _; apply revoke_outOfReach|].
      split; [discriminate|]. split; [|discriminate].
      intros _ _. split; [now exists (Some e) | reflexivity].
    + split; [intros _; now apply notUnsafe_outOfReach|].
      split; [discriminate|]. split; [discriminate | reflexivity].
  - split; [intros H; exfalso; now apply (H f)|].
    split; [discriminate|]. split; [|reflexivity].
    intros _ H. exfalso. now apply (H f).
Qed.

Lemma evaluator_transform_throws (ev : Evaluator Transform Lexicals)
    (source : string) (localTransforms : list Transform)
    (st st1 : State Transform Lexicals W) e :
  applyTransforms source
    (localTransforms ++ ev_globalTransforms ev ++ [mandatoryTransforms]) st
    = (Throw e, st1) ->
  callEvaluator ev source localTransforms st = (Throw e, st1).
Proof. intros H. unfold Evaluate.callEvaluator, bind. now rewrite H. Qed.

Lemma typeof_JStr s : String.eqb (typeof (JStr s)) "string" = true.
Proof. reflexivity. Qed.

(** X22.  Which transforms a source passes through.  In a compartment
    whose constructor was given [transforms] and [__shimTransforms__]:
    [evaluate(source, options)] without [__moduleShimLexicals__] and not in
    sloppy globals mode runs the shared evaluator of the compartment on the
    source transformed by the list of: the transforms of the options, the
    evasions that are asked for, [rejectSomeDirectEvalExpressions] unless
    that option is given a value other than [true], the [transforms] of the
    constructor, its [__shimTransforms__], and last the mandatory
    transforms.  The call by which [makeModuleInstance] evaluates the
    functor source of a module runs a new evaluator on the source
    transformed by [__shimTransforms__],
    [rejectSomeDirectEvalExpressions] and the mandatory transforms: the
    [transforms] of the constructor are not applied to modules.  A source
    that is not a string is a TypeError, before the compartment is looked
    at; and when a transform throws, that error is thrown and nothing is
    evaluated. *)
Theorem evaluate_pipeline (this : nat) (transforms shimTransforms : list Transform)
    (lexicals : Lexicals) (st0 st : State Transform Lexicals W) :
  setupEvaluation this transforms shimTransforms lexicals st0 = (Normal tt, st) ->
  let shared :=
    {| ev_handler := length (handlers st0);
       ev_scope := {| localObject := lexicals; sloppyGlobalsMode := false |};
       ev_globalTransforms := transforms ++ shimTransforms |} in
  (forall source o,
     opt_moduleShimLexicals _ _ o = None ->
     truthy (opt_sloppyGlobalsMode _ _ o) = false ->
     evaluateMethod this (JStr source) o st
       = (source' <- applyTransforms source
                       (localTransformsOf o ++ transforms ++ shimTransforms
                        ++ [mandatoryTransforms]) ;;
          guarded shared source') st) /\
  (forall functorSource moduleLexicals localObject,
     withModuleLexicals lexicals moduleLexicals = Normal localObject ->
     evaluateFunctor this functorSource shimTransforms moduleLexicals st
       = (source' <- applyTransforms functorSource
                       (shimTransforms
                        ++ [rejectSomeDirectEvalExpressions; mandatoryTransforms]) ;;
          guarded {| ev_handler := length (handlers st);
                     ev_scope := {| localObject := localObject;
                                    sloppyGlobalsMode := false |};
                     ev_globalTransforms := [] |} source')
         {| handlers := handlers st
                        ++ [{| useUnsafeEvaluator := false; revoked := false |}];
            privateFields := privateFields st;
            world := world st |}) /\
  (forall source o other st',
     isString source = false ->
     evaluateMethod other source o st'
       = (Throw (JErr TypeError "first argument of evaluate() must be a string"),
          st')) /\
  (forall ev source localTransforms e st' st'',
     applyTransforms source
       (localTransforms ++ ev_globalTransforms ev ++ [mandatoryTransforms]) st'
       = (Throw e, st'') ->
     callEvaluator ev source localTransforms st' = (Throw e, st'')).
Proof.
  intros Hsetup shared.
  unfold Evaluate.setupEvaluation, Evaluate.makeEvaluate, bind in Hsetup.
  inversion Hsetup as [Hst]. clear Hsetup.
  split; [|split; [|split]].
  - intros source o Hlex Hsloppy.
    unfold Evaluate.evaluateMethod. rewrite typeof_JStr. cbn [negb].
    cbn [privateFields]. rewrite lookup_insert_eq. rewrite Hlex, Hsloppy.
    cbn [negb evaluate]. unfold Evaluate.callEvaluator.
    cbn [ev_globalTransforms default]. now rewrite <- app_assoc.
  - intros functorSource moduleLexicals localObject Hmerge.
    unfold Evaluate.evaluateFunctor, Evaluate.evaluateMethod.
    rewrite typeof_JStr. cbn [negb privateFields opt_moduleShimLexicals].
    rewrite lookup_insert_eq. cbn [globalLexicals]. rewrite Hmerge.
    unfold bind at 1. unfold Evaluate.makeEvaluate at 1.
    unfold Evaluate.callEvaluator.
    cbn [ev_globalTransforms default opt_sloppyGlobalsMode truthy handlers
         privateFields world].
    unfold Evaluate.localTransformsOf. cbn. rewrite <- app_assoc.
    reflexivity.
  - intros source o other st' Hs. unfold Evaluate.evaluateMethod.
    rewrite typeof_string, Hs. reflexivity.
  - intros ev source localTransforms e st' st'' H.
    now apply evaluator_transform_throws.
Qed.

End EvaluateFacts.

(** * [export *] in an import cycle *)

Section CycleFacts.

Import Binding Instance InstanceNotions Scenario Scenario2.

(** [execute] calls the functor on the instance with its functor field
    cleared: the instance that a cycle of imports reaches meanwhile. *)
Lemma execute_enters_running {X} deferred smr importedInstances fuel functor
    (st st2 : InstanceState X) (w w2 : World X) :
  optFunctor st = Some functor ->
  callFunctor deferred smr importedInstances fuel functor (running st, w)
    = (Normal tt, (st2, w2)) ->
  didThrow st2 = false ->
  execute deferred smr importedInstances fuel (st, w) = (Normal tt, (st2, w2)).
Proof.
  intros Hf Hcall Hd. unfold execute. rewrite Hf.
  change {| tables := tables st; namespace := namespace st; optFunctor := None;
            didThrow := didThrow st; thrownError := thrownError st;
            functorCalls := S (functorCalls st) |} with (@running X X st).
  rewrite Hcall. now rewrite Hd.
Qed.

(** The [execute] of an instance reached again while it runs returns at
    once, and its notifiers are those the instance had when its own
    [execute] was called. *)
Lemma reentered_execute {X Y} deferred smr (st : InstanceState X) (w : World Y) :
  didThrow st = false ->
  mi_execute (reentered deferred smr st) w = (Normal tt, w) /\
  mi_notifiers (reentered deferred smr st) w = notifiers (tables st).
Proof.
  intros Hd. unfold reentered, execute, running. cbn. now rewrite Hd.
Qed.

(** C2.  The ambiguity of a name between [export *] sources is missed in an
    import cycle.  ./top.js is [import './mid.js'; export * from './a.js';]
    and ./mid.js is [export * from './top.js'; export * from './b.js';],
    where ./a.js and ./b.js both export [x]; ./mid.js defines no export
    itself.  When ./top.js is executed first, both runs of [imports]
    return, ./top.js exports [x] (the binding of ./a.js) and ./b.js exports
    [x], so that both [export *] sources of ./mid.js provide [x]; yet [x] is
    in the notifiers, the export descriptors and the namespace of ./mid.js,
    forwarded from ./b.js: when the [imports] of ./mid.js runs through the
    notifiers of ./top.js, ./top.js is still in its own [imports] and has
    no export yet.  When ./mid.js is executed first, [x] is absent from
    ./mid.js as it should be: what a module exports depends on where the
    execution of the cycle starts. *)
Theorem star_export_ambiguity_missed_in_cycle :
  let topFirst :=
    execute topDeferred topRecord topLinked 1 (topMade, topFirstWorld) in
  let top := fst (snd topFirst) in
  let mid := fst (others (snd (snd topFirst))) in
  let midFirst :=
    execute midDeferred midRecord midLinked 1 (midMade, midFirstWorld) in
  let mid' := fst (snd midFirst) in
  let top' := fst (others (snd (snd midFirst))) in
  (* the module *)
  reexports midRecord = ["./top.js"; "./b.js"] /\
  exportedLocals midRecord = [] /\
  notExported "x" (@midMade unit) /\
  (* ./top.js first *)
  fst topFirst = Normal tt /\
  didThrow mid = false /\ functorCalls mid = 1 /\ frozen (namespace mid) = true /\
  obj_get "x" (notifiers (tables top)) = Some (NotifyPlain 0) /\
  obj_get "x" (mi_notifiers instanceB world0) = Some (NotifyPlain 2) /\
  obj_get "x" (notifiers (tables mid)) = Some (NotifyPlain 2) /\
  obj_get "x" (exportsProps (tables mid))
    = Some (GetForward (ForwardVar (exportsProxy midDeferred) "x")) /\
  obj_get "x" (properties (namespace mid))
    = Some (GetForward (ForwardVar (exportsProxy midDeferred) "x")) /\
  (* ./mid.js first *)
  fst midFirst = Normal tt /\
  obj_get "x" (notifiers (tables top')) = Some (NotifyPlain 0) /\
  notExported "x" mid'.
Proof.
  vm_compute. repeat split; reflexivity.
Qed.

End CycleFacts.

(** * The further statements on the example programs *)

Section MoreExamples.

Import Binding Instance InstanceNotions Scenario Scenario2.

(** X5 on the example: [x] has been initialized with 7; after an update of
    [z] and another subscription, a second [init] of [x] throws and the
    getter returns 7. *)
Lemma fixed_init_once_witness :
  let s1 := runOps 2 [OpUpdate 2 (JNum 5); OpNotifyFixed 0 (UAssign (ImportVar 9))]
              initialized in
  init 2 0 (JNum 8) s1
    = (Throw (JErr Error ("Internal: binding " +:+ q "x" +:+ " already initialized")),
       s1) /\
  fixed_get 0 s1 = (Normal (JNum 7), s1).
Proof.
  exact (fixed_init_once 2 initialized 0 xInitialized
           [OpUpdate 2 (JNum 5); OpNotifyFixed 0 (UAssign (ImportVar 9))] (JNum 8)
           eq_refl eq_refl).
Defined.

(** X6 on the example: setting the third-party export to 3 calls the two
    importers on 3, in the order of their subscriptions. *)
Lemma third_party_binding_set_witness :
  plain_get 0 subscribed = (Normal JUndefined, subscribed) /\
  exists s',
    plain_set (callUpdater 1) 0 (JNum 3) subscribed = (Normal tt, s') /\
    plain_get 0 s' = (Normal (JNum 3), s') /\
    calls s' = calls subscribed
               ++ [(UAssign (ImportVar 1), JNum 3); (UAssign (ImportVar 2), JNum 3)].
Proof.
  destruct (third_party_binding_set 1 subscribed 0 subscribedBinding (JNum 3) eq_refl)
    as (Hget & res & s' & E & _ & Hget' & _ & Hassign).
  split; [exact Hget|].
  destruct (Hassign eq_refl (le_n 1)) as [-> Hcalls].
  exists s'. split; [exact E|]. split; [exact Hget' | exact Hcalls].
Defined.

(** X7 on the example: the update of [x] in ./source.js reaches the
    importer of ./middle.js between the two importers of ./source.js. *)
Lemma live_reexport_propagates_witness :
  exists s',
    update 2 0 (JNum 4) reexported = (Normal tt, s') /\
    live_get 1 s' = (Normal (JNum 4), s') /\
    calls s' = calls reexported
               ++ [(UAssign (ImportVar 1), JNum 4); (UUpdate 1, JNum 4);
                   (UAssign (ImportVar 3), JNum 4); (UAssign (ImportVar 2), JNum 4)].
Proof.
  destruct (live_reexport_propagates 2 reexported 0 1 sourceBinding middleBinding
              [UAssign (ImportVar 1)] [UAssign (ImportVar 2)] (JNum 4)
              (le_n 2) (fun H : 0 = 1 => O_S 0 H)
              eq_refl eq_refl eq_refl eq_refl eq_refl eq_refl)
    as (s' & E & _ & Hmid & Hcalls).
  exists s'. split; [exact E|]. split; [|exact Hcalls].
  unfold live_get. now rewrite Hmid.
Defined.

(** X9 on the example: [a] and [b] export the local [x] and share its
    binding; [y] has a live binding. *)
Lemma makeModuleInstance_bindings_witness :
  let made := makeModuleInstance mainDeferred aliasRecord idleFunctor emptyStore in
  bindingOf (tables (fst made)) (snd made) 0 "a" "x" /\
  bindingOf (tables (fst made)) (snd made) 0 "b" "x" /\
  bindingOf (tables (fst made)) (snd made) 0 "y" "y" /\
  obj_get "a" (notifiers (tables (fst made)))
    = obj_get "b" (notifiers (tables (fst made))).
Proof.
  intros made.
  assert (Hnd : NoDup (obj_keys (exportedLocals aliasRecord))).
  { compute_done. }
  destruct (makeModuleInstance_bindings mainDeferred aliasRecord idleFunctor
              emptyStore Hnd) as (H & _).
  split; [|split; [|split]].
  - apply (H "a" "x"); [now left | discriminate].
  - apply (H "b" "x"); [right; now left | discriminate].
  - apply (H "y" "y"); [right; right; now left | discriminate].
  - reflexivity.
Defined.

(** X10 on the example: ./a.js provides [x] and [y]; the module keeps its
    own [x] and forwards [y]. *)
Lemma local_exports_win_witness :
  let st' :=
    fst (snd (imports mainDeferred shadowRecord (linked instanceB) 1
                (updateRecord shadowFunctor) (shadowInstance, shadowWorld))) in
  obj_get "x" (notifiers (tables st')) = Some (NotifyFixed 4) /\
  obj_get "x" (exportsProps (tables st')) = Some (GetFixed 4) /\
  obj_get "y" (notifiers (tables st')) = Some (NotifyPlain 1).
Proof.
  intros st'.
  destruct (local_exports_win mainDeferred shadowRecord (linked instanceB) 1
              (updateRecord shadowFunctor) shadowInstance st' shadowWorld _ _
              "x" (NotifyFixed 4) eq_refl eq_refl) as [H1 H2].
  split; [exact H1|]. split; [rewrite H2; reflexivity | reflexivity].
Defined.

(** X11 on the example: [y] is provided by ./a.js only, and is forwarded. *)
Lemma unique_star_export_forwarded_witness :
  let st' :=
    fst (snd (imports mainDeferred starRecord (linked instanceB) 1
                (updateRecord starFunctor) (starInstance, world0))) in
  obj_get "y" (notifiers (tables st')) = Some (NotifyPlain 1) /\
  obj_get "y" (properties (namespace st'))
    = Some (GetForward (ForwardVar 102 "y")).
Proof.
  intros st'.
  assert (Hall : Forall (fun es : list (string * Notifier) => NoDup (obj_keys es))
                   (starEntries starRecord (linked instanceB) 1
                      (updateRecord starFunctor) world0)).
  { compute_done. }
  destruct (unique_star_export_forwarded mainDeferred starRecord (linked instanceB) 1
              (updateRecord starFunctor) starInstance st' world0 _ "y"
              eq_refl Hall eq_refl)
    as (es & notify & Hin & Hes & Hn & _ & Hp).
  - discriminate.
  - reflexivity.
  - split; [|exact Hp]. rewrite Hn. f_equal.
    destruct Hin as [<-|[<-|[]]]; simpl in Hes; congruence.
Defined.

(** X12 on the example: the namespace of the module lists [x] and [y], in
    this order, and is frozen. *)
Lemma namespace_lists_exports_witness :
  let st' :=
    fst (snd (imports mainDeferred shadowRecord (linked instanceB) 1
                (updateRecord shadowFunctor) (shadowInstance, shadowWorld))) in
  obj_keys (properties (namespace st')) = ["x"; "y"] /\
  frozen (namespace st') = true.
Proof.
  intros st'.
  assert (Hnd : NoDup (obj_keys (exportsProps (tables shadowInstance)))).
  { compute_done. }
  destruct (namespace_lists_exports mainDeferred shadowRecord (linked instanceB) 1
              (updateRecord shadowFunctor) shadowInstance st' shadowWorld _
              eq_refl eq_refl Hnd) as (Hkeys & _ & Hfrozen & _).
  destruct (Hkeys eq_refl) as [Hsorted _].
  split; [rewrite Hsorted; reflexivity | exact Hfrozen].
Defined.

(** X13 on the example: the exports [a] and [b] get the bindings 0 and 1. *)
Lemma third_party_exports_bound_witness :
  exists st s',
    makeThirdPartyModuleInstance "./pair.js" pairRecord emptyStore = (Normal st, s') /\
    obj_keys (tp_notifiers st) = ["a"; "b"] /\
    obj_get "a" (tp_notifiers st) = Some (NotifyPlain 0) /\
    obj_get "b" (tp_notifiers st) = Some (NotifyPlain 1) /\
    cells s' !! 1 = Some (newPlain JUndefined).
Proof.
  destruct (third_party_exports_bound "./pair.js" pairRecord ["a"; "b"] emptyStore
              eq_refl) as [H _].
  assert (Hnd : NoDup ["a"; "b"]).
  { compute_done. }
  destruct (H Hnd) as (st & s' & E & Hk & _ & Hi & _).
  exists st, s'. split; [exact E|]. split; [exact (Hk eq_refl)|].
  destruct (Hi 0 "a" eq_refl) as (A1 & _ & _).
  destruct (Hi 1 "b" eq_refl) as (B1 & _ & B3).
  auto.
Defined.

(** X14 on the example: the record's [execute] throws; it is called once
    in three calls of [execute], of which the first throws and the others
    return. *)
Lemma third_party_execute_once_witness :
  let run := executeAllThirdParty throwingRecord [id; id; id] throwingInstance world0 in
  executeCalls (fst (snd run)) = 1 /\
  fst run = [Throw boom; Normal tt; Normal tt].
Proof.
  intros run.
  destruct (third_party_execute_once "./native.js" throwingRecord emptyStore _
              throwingInstance [id; id; id] world0 eq_refl)
    as (_ & _ & _ & _ & Hcalls).
  split; [exact Hcalls | reflexivity].
Defined.

(** X23 on the example: the body of ./b.js throws; the module that imports
    from it throws that error, at every [execute], and its namespace stays
    as it was made. *)
Lemma dependency_failure_propagates_witness :
  exists st',
    execute mainDeferred importingRecord (linked instanceBThrowing) 1
      (importingInstance, world0) = (Throw boom, (st', world0)) /\
    namespace st' = emptyNamespace /\
    execute mainDeferred importingRecord (linked instanceBThrowing) 1 (st', world0)
      = (Throw boom, (st', world0)).
Proof.
  destruct (dependency_failure_propagates mainDeferred importingRecord
              (linked instanceBThrowing) 1 importingInstance world0
              importingFunctor [] "./b.js" [("missing", [UAssign (ImportVar 0)])] []
              instanceBThrowing [("default", None)] world0 world0 boom
              eq_refl eq_refl eq_refl eq_refl eq_refl eq_refl)
    as (st' & E & _ & Hn & _ & Hlater).
  exists st'. split; [exact E|]. split; [exact Hn | apply Hlater].
Defined.

(** X17 on the example: compartment 1 has its hooks and [link] throws:
    [importNow] throws that error. *)
Lemma importNow_propagates_witness :
  Compartment.importNow unit failingLink 1 (JStr "./main.js") (realm0, tt)
  = (Throw noSuchModule, (realm0, tt)).
Proof.
  destruct (importNow_propagates (fun _ _ => ret tt) failingLink id 1 "./main.js"
              (realm0, tt) eq_refl) as (H & _).
  exact (H noSuchModule (realm0, tt) eq_refl).
Defined.

(** X18 on the examples: both dependencies of the application export
    [shared], and the application gets it from the second one; and a
    module exported as [__proto__] becomes the prototype of [modules], not
    a property. *)
Lemma translateGraph_closed_witness :
  (exists map c,
     NodeModules.translateGraph "file:///app/" appGraph = Normal map /\
     obj_keys (Names.own (NodeModules.compartments map)) = obj_keys appGraph /\
     obj_get "file:///app/" (Names.own (NodeModules.compartments map)) = Some c /\
     obj_get "shared" (Names.own (NodeModules.c_modules c))
       = Some {| NodeModules.compartment := "file:///app/node_modules/b/";
                 NodeModules.module := "./shared.js" |} /\
     obj_get "app" (Names.own (NodeModules.c_modules c)) = None) /\
  (exists map c,
     NodeModules.translateGraph "file:///app/" protoGraph = Normal map /\
     obj_get "file:///app/" (Names.own (NodeModules.compartments map)) = Some c /\
     obj_get "__proto__" (Names.own (NodeModules.c_modules c)) = None /\
     Names.proto (NodeModules.c_modules c)
       = Some {| NodeModules.compartment := "file:///app/node_modules/p/";
                 NodeModules.module := "./proto.js" |} /\
     obj_get "p" (Names.own (NodeModules.c_modules c))
       = Some {| NodeModules.compartment := "file:///app/node_modules/p/";
                 NodeModules.module := "./p.js" |}).
Proof.
  split.
  - assert (Hnd : NoDup (obj_keys appGraph)).
    { compute_done. }
    assert (Hex : NodeModules.distinctExports appGraph).
    { intros l n [H|[H|[H|[]]]]; inversion H; subst;
        compute_done. }
    assert (Hclosed : NodeModules.closed appGraph).
    { intros l n d [H|[H|[H|[]]]] Hd; inversion H; subst; simpl in Hd;
        [destruct Hd as [<-|[<-|[]]]; discriminate | destruct Hd | destruct Hd]. }
    destruct (translateGraph_closed "file:///app/" appGraph Hnd Hex Hclosed)
      as (map & E & _ & Hkeys & _ & Hall).
    destruct (Hall "file:///app/" appNode (or_introl eq_refl))
      as (c & Hc & _ & _ & _ & _ & _ & Hmods).
    exists map, c. split; [exact E|]. split; [exact (Hkeys eq_refl)|].
    split; [exact Hc|].
    split; [exact (Hmods "shared") | exact (Hmods "app")].
  - assert (Hnd : NoDup (obj_keys protoGraph)).
    { compute_done. }
    assert (Hex : NodeModules.distinctExports protoGraph).
    { intros l n [H|[H|[]]]; inversion H; subst;
        compute_done. }
    assert (Hclosed : NodeModules.closed protoGraph).
    { intros l n d [H|[H|[]]] Hd; inversion H; subst; simpl in Hd;
        [destruct Hd as [<-|[]]; discriminate | destruct Hd]. }
    destruct (translateGraph_closed "file:///app/" protoGraph Hnd Hex Hclosed)
      as (map & E & _ & _ & _ & Hall).
    destruct (Hall "file:///app/" protoAppNode (or_introl eq_refl))
      as (c & Hc & _ & _ & _ & _ & Hown & Hmods).
    exists map, c. split; [exact E|]. split; [exact Hc|].
    split; [exact Hown|].
    split; [exact (Hmods "__proto__") | exact (Hmods "p")].
Defined.

(** X19 on the example: the second dependency of the application is not in
    the graph. *)
Lemma translateGraph_missing_dependency_witness :
  NodeModules.translateGraph "file:///app/" brokenGraph
    = Throw NodeModules.undefinedNode.
Proof.
  destruct (translateGraph_missing_dependency "file:///app/" brokenGraph
              "file:///app/" "file:///app/node_modules/b/" appNode
              (or_introl eq_refl) (or_intror (or_introl eq_refl)) eq_refl)
    as [H _].
  exact H.
Defined.

(** X21 on the example: the evaluator that does not reset the flag makes
    the call throw, with the scope proxy revoked; the one that resets it
    lets its value through. *)
Lemma evaluator_guards_unsafe_flag_witness :
  let bad :=
    Evaluate.callEvaluator nat 0 unit (list (list nat)) keepSource badEvaluator
      confused sharedEvaluator "1" [] evalState1 in
  let good :=
    Evaluate.callEvaluator nat 0 unit (list (list nat)) keepSource goodEvaluator
      confused sharedEvaluator "1" [] evalState1 in
  fst bad = Throw (confused None) /\
  Evaluate.handlers (snd bad) !! 0
    = Some {| Evaluate.useUnsafeEvaluator := true; Evaluate.revoked := true |} /\
  fst good = Normal (JNum 1) /\
  Evaluate.handlers (snd good) !! 0
    = Some {| Evaluate.useUnsafeEvaluator := false; Evaluate.revoked := false |}.
Proof.
  intros bad good.
  destruct (evaluator_guards_unsafe_flag 0 keepSource badEvaluator confused
              sharedEvaluator "1" "1" [] evalState1
              (snd (keepSource "1" [10; 20; 0] evalState1)) eq_refl)
    as (_ & _ & Hbad & _).
  destruct (Hbad eq_refl) as [_ Hst]; [discriminate|].
  destruct (evaluator_guards_unsafe_flag 0 keepSource goodEvaluator confused
              sharedEvaluator "1" "1" [] evalState1
              (snd (keepSource "1" [10; 20; 0] evalState1)) eq_refl)
    as (_ & _ & _ & Hgood).
  split; [reflexivity|]. split; [subst bad; rewrite Hst; reflexivity|].
  subst good. rewrite (Hgood eq_refl). split; reflexivity.
Defined.

(** X22 on the example: the compartment was constructed with the
    transform 10 and the shim transform 20; a program passes through 3, 10,
    20 and 0, the functor source of a module through 20, 3 and 0. *)
Lemma evaluate_pipeline_witness :
  Evaluate.world
    (snd (Evaluate.evaluateMethod nat 0 1 2 3 unit (list (list nat)) keepSource
            goodEvaluator confused noLexicals 1 (JStr "1") defaultOptions
            evalState1))
    = [[3; 10; 20; 0]] /\
  Evaluate.world
    (snd (Evaluate.evaluateFunctor nat 0 1 2 3 unit (list (list nat)) keepSource
            goodEvaluator confused noLexicals 1 "1" [20] tt evalState1))
    = [[20; 3; 0]].
Proof.
  destruct (evaluate_pipeline 0 1 2 3 keepSource goodEvaluator confused noLexicals
              1 [10] [20] tt evalState0 evalState1 eq_refl) as (H1 & H2 & _).
  rewrite (H1 "1" defaultOptions eq_refl eq_refl).
  rewrite (H2 "1" tt tt eq_refl).
  split; reflexivity.
Defined.

End MoreExamples.

